(** * tid: connections, sparse tick-indexed views, dense data and TEC geometry

    A shallow embedding of [tid/connections.py], [tid/dense_data.py] and
    [tid/tec.py], followed by the properties established about them.

    Conventions of the embedding.
    - Python callables that can raise return a [result]; the exception
      classes that occur in the sources are constructors of [exn].
    - Python [int] values (ticks, indices) are [Z]; list and array
      indexing follows Python (negative indices count from the end,
      out-of-range raises, slices clip).  The [tick] column is stored as
      ["i4"]: where the code computes on its entries with numpy
      ([numpy.diff], [first + 1], [tick_end + 1]) the result wraps
      around like [int32] does ([Numpy.wrap_i4]), and the statements
      that depend on it say which tick columns are free of overflow
      ([i4_ticks]).
    - Python's [/] and [**] on two scalars raise [ZeroDivisionError] and
      [OverflowError]; numpy's operations on arrays do not raise.
    - The [f8] measurement values live in an arbitrary type [F] carrying
      the float operations the code applies ([Float64]); nothing is
      assumed about those operations, so every statement proved for an
      arbitrary [F] holds for IEEE doubles, NaN included.  [float] (the
      binary64 numbers of the kernel) is the instance used for concrete
      runs.
    - [tec.ion_locs] is embedded over the real numbers: its properties
      are geometric and hold up to rounding. *)

From Stdlib Require Import ZArith List Lia Reals Lra Psatz Permutation Sorted.
From Stdlib Require Floats.
From stdpp Require Import base option list list_numbers gmap sets fin_sets strings.

(* ===================================================================== *)
(** * Part I: the embedding                                               *)
(* ===================================================================== *)

(** ** Python runtime: exceptions, indexing, slicing *)

Module Py.
Local Open Scope Z_scope.

Inductive exn : Set :=
| KeyError
| IndexError
| ValueError
| AssertionError
| ZeroDivisionError
| OverflowError
| ExternalError.   (* anything raised inside a collaborator outside this code *)

Inductive result (A : Type) : Type :=
| Ok (a : A)
| Raise (e : exn).
Arguments Ok {A} a.
Arguments Raise {A} e.

Definition bind {A B} (m : result A) (k : A → result B) : result B :=
  match m with
  | Ok a => k a
  | Raise e => Raise e
  end.

#[export] Instance result_ret : MRet result := @Ok.
#[export] Instance result_bind : MBind result := λ A B k m, bind m k.

(** [d[k]] on a dict. *)
Definition dict_getitem `{Countable K} {V} (d : gmap K V) (k : K) : result V :=
  match d !! k with
  | Some v => Ok v
  | None => Raise KeyError
  end.

(** [d.get(k, dflt)] on a dict. *)
Definition dict_get `{Countable K} {V} (d : gmap K V) (k : K) (dflt : V) : V :=
  match d !! k with
  | Some v => v
  | None => dflt
  end.

(** [l[i]] on a list or array: a negative index counts from the end. *)
Definition getitem {A} (l : list A) (i : Z) : result A :=
  let n := Z.of_nat (length l) in
  let j := if bool_decide (i < 0) then i + n else i in
  if bool_decide (0 ≤ j < n) then
    match l !! Z.to_nat j with
    | Some x => Ok x
    | None => Raise IndexError
    end
  else Raise IndexError.

(** A slice bound, normalised and clipped to [0, n]. *)
Definition clip (n i : Z) : Z :=
  let j := if bool_decide (i < 0) then i + n else i in
  Z.max 0 (Z.min n j).

(** [l[start:stop]]. *)
Definition slice {A} (l : list A) (start stop : Z) : list A :=
  let n := Z.of_nat (length l) in
  let s := clip n start in
  let e := clip n stop in
  take (Z.to_nat (e - s)) (drop (Z.to_nat s) l).

(** [set(range(a, b))]. *)
Definition set_range (a b : Z) : gset Z := list_to_set (seqZ a (b - a)).

(** [for x in xs: acc = body(acc, x)] where the body may raise. *)
Fixpoint for_each {A B} (body : B → A → result B) (xs : list A) (acc : B) : result B :=
  match xs with
  | [] => Ok acc
  | x :: xs' => acc' ← body acc x; for_each body xs' acc'
  end.

(** [[f(x) for x in xs]] where [f] may raise. *)
Fixpoint comprehension {A B} (f : A → result B) (xs : list A) : result (list B) :=
  match xs with
  | [] => Ok []
  | x :: xs' => y ← f x; ys ← comprehension f xs'; Ok (y :: ys)
  end.

(** [assert cond]. *)
Definition assert (cond : bool) : result unit :=
  if cond then Ok tt else Raise AssertionError.
End Py.
Export Py.

(** ** numpy on one-dimensional arrays *)

(** The float operations used by the sources, kept abstract. *)
Class Float64 (F : Type) : Type := {
  fsub : F → F → F;
  fmul : F → F → F;
  fdiv : F → F → F;
  fzero : F;                    (* the literal 0.0 *)
  feq_zero : F → bool;          (* x == 0.0 *)
  nan : F;                      (* numpy.nan *)
  isnan : F → bool;             (* numpy.isnan *)
  as_f4 : F → F;                (* storing into an "f4" field *)
  np_mean : list F → F;         (* numpy.mean *)
  np_std : list F → F;          (* numpy.std *)
  SPEED_OF_LIGHT : F;           (* laika.constants.SPEED_OF_LIGHT *)
}.

Module Numpy.
Local Open Scope Z_scope.

(** Arithmetic on [int32] values wraps around modulo [2^32]. *)
Definition wrap_i4 (x : Z) : Z := (x + 2 ^ 31) mod 2 ^ 32 - 2 ^ 31.

(** [numpy.diff(a)] on an ["i4"] array: [out[i] = a[i+1] - a[i]] in
    [int32]. *)
Definition diff (a : list Z) : list Z :=
  zip_with (λ x y, wrap_i4 (y - x)) a (drop 1 a).

(** [numpy.where(mask)[0]]: the positions holding [True]. *)
Fixpoint where_from (k : nat) (mask : list bool) : list nat :=
  match mask with
  | [] => []
  | b :: mask' => if b then k :: where_from (S k) mask' else where_from (S k) mask'
  end.
Definition np_where (mask : list bool) : list nat := where_from 0 mask.

(** [a > v], elementwise. *)
Definition gt (a : list Z) (v : Z) : list bool := (λ x, bool_decide (x > v)) <$> a.

Section float_arrays.
Context `{Float64 F}.
(** [a - b], [a / s] and [s * a] on float arrays. *)
Definition sub (a b : list F) : list F := zip_with fsub a b.
Definition div_scalar (a : list F) (s : F) : list F := (λ x, fdiv x s) <$> a.
Definition scalar_mul (s : F) (a : list F) : list F := fmul s <$> a.
(** [numpy.all(numpy.isnan(a))]. *)
Definition all_isnan (a : list F) : bool := forallb isnan a.
(** Python's [x / y] on two scalars, the divisor a float. *)
Definition truediv (x y : F) : result F :=
  if feq_zero y then Raise ZeroDivisionError else Ok (fdiv x y).
End float_arrays.
End Numpy.

(** ** tid/dense_data.py *)

Module DenseData.
Local Open Scope Z_scope.

(** One element of an array of dtype [DENSE_TYPE]. *)
Record Row (F : Type) : Type := mkRow {
  tick : Z;
  C1C : F;
  C2C : F;
  C2P : F;
  C5C : F;
  L1C : F;
  L2C : F;
  L5C : F;
  recv_time_sec : F;
  recv_time_week : Z;
  sat_clock_err : F;
  sat_pos : F * F * F;
  sat_vel : F * F * F;
  sat_pos_final : F * F * F;
  is_processed : bool;
  is_corrected : bool;
}.
Arguments mkRow {F}.
Arguments tick {F}.
Arguments C1C {F}.
Arguments C2C {F}.
Arguments C2P {F}.
Arguments C5C {F}.
Arguments L1C {F}.
Arguments L2C {F}.
Arguments L5C {F}.
Arguments recv_time_sec {F}.
Arguments recv_time_week {F}.
Arguments sat_clock_err {F}.
Arguments sat_pos {F}.
Arguments sat_vel {F}.
Arguments sat_pos_final {F}.
Arguments is_processed {F}.
Arguments is_corrected {F}.

(** The attributes of laika's [GNSSMeasurement] that the conversion reads. *)
Record GNSSMeasurement (F : Type) : Type := mkMeas {
  m_prn : string;
  m_observables : gmap string F;
  m_recv_time_sec : F;
  m_recv_time_week : Z;
  m_sat_clock_err : F;
  m_sat_pos : F * F * F;
  m_sat_vel : F * F * F;
  m_sat_pos_final : F * F * F;
  m_corrected : bool;
  m_processed : bool;
}.
Arguments mkMeas {F}.
Arguments m_prn {F}.
Arguments m_observables {F}.
Arguments m_recv_time_sec {F}.
Arguments m_recv_time_week {F}.
Arguments m_sat_clock_err {F}.
Arguments m_sat_pos {F}.
Arguments m_sat_vel {F}.
Arguments m_sat_pos_final {F}.
Arguments m_corrected {F}.
Arguments m_processed {F}.

Section conversion.
Context `{Float64 F}.

(** [_meas_to_tuple], read through [DENSE_TYPE]: the tuple is positional,
    so [corrected] lands in [is_processed] and [processed] in
    [is_corrected]. *)
Definition _meas_to_tuple (raw_meas : GNSSMeasurement F) : Row F :=
  let obs := m_observables raw_meas in
  {| tick := 0;
     C1C := dict_get obs "C1C"%string nan;
     C2C := dict_get obs "C2C"%string nan;
     C2P := dict_get obs "C2P"%string nan;
     C5C := dict_get obs "C5C"%string nan;
     L1C := dict_get obs "L1C"%string nan;
     L2C := dict_get obs "L2C"%string nan;
     L5C := dict_get obs "L5C"%string nan;
     recv_time_sec := as_f4 (m_recv_time_sec raw_meas);
     recv_time_week := m_recv_time_week raw_meas;
     sat_clock_err := m_sat_clock_err raw_meas;
     sat_pos := m_sat_pos raw_meas;
     sat_vel := m_sat_vel raw_meas;
     sat_pos_final := m_sat_pos_final raw_meas;
     is_processed := m_corrected raw_meas;
     is_corrected := m_processed raw_meas |}.

(** [arr[["C2C", "C2P"]] = arr[["C2P", "C2C"]]]: assignment between
    structured arrays is by position, which exchanges the two columns. *)
Definition swap_C2C_C2P (r : Row F) : Row F :=
  {| tick := tick r; C1C := C1C r;
     C2C := C2P r;
     C2P := C2C r;
     C5C := C5C r; L1C := L1C r; L2C := L2C r; L5C := L5C r;
     recv_time_sec := recv_time_sec r; recv_time_week := recv_time_week r;
     sat_clock_err := sat_clock_err r; sat_pos := sat_pos r;
     sat_vel := sat_vel r; sat_pos_final := sat_pos_final r;
     is_processed := is_processed r; is_corrected := is_corrected r |}.

(** First loop of [from_raw_obs]: group the tuples per satellite. *)
Definition collect (sv_dict_tmp : gmap string (list (Row F)))
    (obs : GNSSMeasurement F) : gmap string (list (Row F)) :=
  let sv_dict_tmp :=
    match sv_dict_tmp !! m_prn obs with
    | Some _ => sv_dict_tmp
    | None => <[m_prn obs := []]> sv_dict_tmp
    end in
  alter (λ l, l ++ [_meas_to_tuple obs]) (m_prn obs) sv_dict_tmp.

(** Second loop of [from_raw_obs], for one key. *)
Definition normalise_bands (value : list (Row F)) : list (Row F) :=
  if Numpy.all_isnan (C2C <$> value) then swap_C2C_C2P <$> value else value.

Definition from_raw_obs (raw_obs : list (list (GNSSMeasurement F)))
    : gmap string (list (Row F)) :=
  let sv_dict_tmp :=
    foldl (λ d sat_obs, foldl collect d sat_obs) (∅ : gmap string (list (Row F))) raw_obs in
  normalise_bands <$> sv_dict_tmp.
End conversion.
End DenseData.
Export DenseData.

(** ** tid/connections.py *)

Module Connections.
Local Open Scope Z_scope.

(** What [Connection] reads from its owning [Scenario]: the per-station,
    per-satellite arrays and the frequency lookup (a method of the
    scenario, which may answer [None]). *)
Record Scenario (F : Type) : Type := mkScenario {
  station_data : gmap string (gmap string (list (Row F)));
  get_frequencies : string → list (Row F) → option (F * F);
}.
Arguments mkScenario {F}.
Arguments station_data {F}.
Arguments get_frequencies {F}.

Record Connection (F : Type) : Type := mkConnection {
  scenario : Scenario F;
  station : string;
  prn : string;
  idx_start : Z;
  idx_end : Z;
  tick_start : Z;
  tick_end : Z;
  missing_ticks : gset Z;
  n_chan1 : option F;
  n_chan2 : option F;
  offset : option F;
  offset_error : option F;
}.
Arguments mkConnection {F}.
Arguments scenario {F}.
Arguments station {F}.
Arguments prn {F}.
Arguments idx_start {F}.
Arguments idx_end {F}.
Arguments tick_start {F}.
Arguments tick_end {F}.
Arguments missing_ticks {F}.
Arguments n_chan1 {F}.
Arguments n_chan2 {F}.
Arguments offset {F}.
Arguments offset_error {F}.

Section connection.
Context {F : Type}.

(** [scenario.station_data[station][prn]]. *)
Definition station_array (scn : Scenario F) (station prn : string) : result (list (Row F)) :=
  by_prn ← dict_getitem (station_data scn) station;
  dict_getitem by_prn prn.

(** The [observations] property; [assert self.scenario.station_data]
    fails on an empty dict. *)
Definition observations (self : Connection F) : result (list (Row F)) :=
  _ ← assert (negb (bool_decide (station_data (scenario self) = ∅)));
  arr ← station_array (scenario self) (station self) (prn self);
  Ok (slice arr (idx_start self) (idx_end self + 1)).

(** Body of the loop of [_init_missing_ticks]; unpacking
    [first, last = ...] needs exactly two values, and [first + 1] is an
    [int32] sum. *)
Definition add_gap (ticks : list Z) (missing : gset Z) (gap_idx : nat) : result (gset Z) :=
  match slice ticks (Z.of_nat gap_idx) (Z.of_nat gap_idx + 2) with
  | [first; last] => Ok (missing ∪ set_range (Numpy.wrap_i4 (first + 1)) last)
  | _ => Raise ValueError
  end.

(** [_init_missing_ticks], as a function of the [tick] column of the
    observations and of the set built so far. *)
Definition missing_ticks_of (ticks : list Z) (missing : gset Z) : result (gset Z) :=
  let gap_idxs := Numpy.np_where (Numpy.gt (Numpy.diff ticks) 1) in
  for_each (add_gap ticks) gap_idxs missing.

Definition _init_missing_ticks (self : Connection F) : result (Connection F) :=
  obs ← observations self;
  missing ← missing_ticks_of (tick <$> obs) (missing_ticks self);
  Ok (mkConnection (scenario self) (station self) (prn self)
        (idx_start self) (idx_end self) (tick_start self) (tick_end self)
        missing
        (n_chan1 self) (n_chan2 self) (offset self) (offset_error self)).

(** [Connection.__init__].  The correction fields are assigned after the
    missing ticks are filled in; they start out as [None] either way. *)
Definition Connection_init (scn : Scenario F) (station prn : string)
    (idx_start idx_end : Z) : result (Connection F) :=
  arr ← station_array scn station prn;
  first ← getitem arr idx_start;
  arr' ← station_array scn station prn;
  last ← getitem arr' idx_end;
  _init_missing_ticks
    (mkConnection scn station prn idx_start idx_end (tick first) (tick last)
       ∅ None None None None).

(** [tick_idx]. *)
Definition tick_idx (self : Connection F) (tick : Z) : option Z :=
  if bool_decide (tick ∈ missing_ticks self) then None
  else
    let guess := tick - tick_start self in
    Some (set_fold (λ missing guess, if bool_decide (tick > missing) then guess - 1 else guess)
            guess (missing_ticks self)).

(** [__contains__]. *)
Definition contains (self : Connection F) (tick : Z) : bool :=
  bool_decide (tick_start self ≤ tick) && bool_decide (tick ≤ tick_end self).

(** The cached [frequencies] property. *)
Definition frequencies (self : Connection F) : result (F * F) :=
  obs ← observations self;
  match get_frequencies (scenario self) (prn self) obs with
  | Some fs => Ok fs
  | None => Raise AssertionError
  end.

Context `{!Float64 F}.

(** [self.observations[name]]: one column of the observation slice. *)
Definition column {A} (self : Connection F) (field : Row F → A) : result (list A) :=
  obs ← observations self;
  Ok (List.map field obs).

(** [_correct_ambiguities_avg]; [tec.C] is laika's speed of light. *)
Definition _correct_ambiguities_avg (self : Connection F) : result (Connection F) :=
  '(f1, f2) ← frequencies self;
  c2c ← column self C2C;
  c1c ← column self C1C;
  let code_phase_diffs := Numpy.sub c2c c1c in
  l1c ← column self L1C;
  l2c ← column self L2C;
  let carrier_phase_diffs :=
    Numpy.scalar_mul SPEED_OF_LIGHT
      (Numpy.sub (Numpy.div_scalar l1c f1) (Numpy.div_scalar l2c f2)) in
  let difference := Numpy.sub code_phase_diffs carrier_phase_diffs in
  Ok (mkConnection (scenario self) (station self) (prn self)
        (idx_start self) (idx_end self) (tick_start self) (tick_end self)
        (missing_ticks self) (n_chan1 self) (n_chan2 self)
        (Some (np_mean difference)) (Some (np_std difference))).

Definition correct_ambiguities (self : Connection F) : result (Connection F) :=
  _correct_ambiguities_avg self.

(** The [carrier_correction_meters] property; the two quotients are
    scalar divisions, [n_chan2 / f2] first. *)
Definition carrier_correction_meters (self : Connection F) : result F :=
  match n_chan1 self, n_chan2 self with
  | Some n1, Some n2 =>
      '(f1, f2) ← frequencies self;
      q2 ← Numpy.truediv n2 f2;
      q1 ← Numpy.truediv n1 f1;
      Ok (fmul SPEED_OF_LIGHT (fsub q2 q1))
  | _, _ =>
      match offset self with
      | Some o => Ok o
      | None => Raise AssertionError
      end
  end.
End connection.
End Connections.
Export Connections.

(** ** SparseList and ConnTickMap (tid/connections.py, continued) *)

Module Sparse.
Local Open Scope Z_scope.

Record SparseList (D : Type) : Type := mkSparseList {
  ranges : list (Z * Z);
  data : list (list D);
  tick_lookup : list (Z → option Z);
  default : D;
  max : Z;
}.
Arguments mkSparseList {D}.
Arguments ranges {D}.
Arguments data {D}.
Arguments tick_lookup {D}.
Arguments default {D}.
Arguments max {D}.

(** Python's [max] over an iterable: [ValueError] when it is empty. *)
Definition py_max (xs : list Z) : result Z :=
  match xs with
  | [] => Raise ValueError
  | x :: xs' => Ok (foldl Z.max x xs')
  end.

(** [zip] of three iterables stops with the shortest. *)
Definition zip3 {A B C} (xs : list A) (ys : list B) (zs : list C) : list (A * B * C) :=
  zip (zip xs ys) zs.

Section sparse_list.
Context {D : Type}.

(** [SparseList.__init__]. *)
Definition SparseList_init (index_ranges : list (Z * Z)) (data : list (list D))
    (tick_lookup : list (Z → option Z)) (default : D) : result (SparseList D) :=
  m ← py_max (snd <$> index_ranges);
  Ok (mkSparseList index_ranges data tick_lookup default m).

(** [__len__]. *)
Definition len (self : SparseList D) : Z := max self + 1.

(** The loop of [__getitem__] over the zipped triples. *)
Fixpoint scan (default : D) (triples : list (Z * Z * list D * (Z → option Z)))
    (tick : Z) : result D :=
  match triples with
  | [] => Ok default
  | (data_range, datum, tick_lookup) :: rest =>
      if bool_decide (data_range.1 ≤ tick) && bool_decide (tick ≤ data_range.2) then
        match tick_lookup tick with
        | None => Ok default
        | Some idx => getitem datum idx
        end
      else scan default rest tick
  end.

(** [SparseList.__getitem__]. *)
Definition sparse_getitem (self : SparseList D) (tick : Z) : result D :=
  scan (default self) (zip3 (ranges self) (data self) (tick_lookup self)) tick.
End sparse_list.

(** The parts of the repository that [ConnTickMap] calls and that are not
    among the sources at hand: [util.BUTTER_MIN_LENGTH], [util.bpfilter]
    and [tec.calculate_vtecs] (the pair of arrays behind
    [Connection.vtecs]).  They are parameters of the embedding. *)
Class TidExternals (F : Type) : Type := {
  BUTTER_MIN_LENGTH : Z;
  bpfilter : list F → result (list F);
  calculate_vtecs : Connection F → result (list F * list F);
}.

Section conn_tick_map.
Context `{Float64 F, TidExternals F}.

(** A [ConnTickMap] holds its connections in order. *)
Definition ConnTickMap : Type := list (Connection F).

(** [con.vtecs[0]]. *)
Definition vtecs0 (con : Connection F) : result (list F) :=
  v ← calculate_vtecs con; Ok v.1.

(** [ConnTickMap.__getitem__]. *)
Fixpoint conn_getitem (connections : ConnTickMap) (tick : Z) : result (Connection F) :=
  match connections with
  | [] => Raise KeyError
  | con :: rest => if contains con tick then Ok con else conn_getitem rest tick
  end.

(** [ConnTickMap.get_vtecs]. *)
Definition get_vtecs (connections : ConnTickMap) : result (SparseList F) :=
  let index_ranges := (λ con, (tick_start con, tick_end con)) <$> connections in
  data ← comprehension vtecs0 connections;
  let lookups := tick_idx <$> connections in
  SparseList_init index_ranges data lookups fzero.

(** One round of the loop of [get_filtered_vtecs], on the three lists
    it appends to. *)
Definition filtered_step
    (acc : list (Z * Z) * list (list F) * list (Z → option Z)) (con : Connection F)
    : result (list (Z * Z) * list (list F) * list (Z → option Z)) :=
  let '(index_ranges, data, tick_lookup) := acc in
  if bool_decide (idx_end con - idx_start con < BUTTER_MIN_LENGTH) then
    Ok acc
  else
    v ← vtecs0 con;
    filtered ← bpfilter v;
    Ok (index_ranges ++ [(tick_start con, tick_end con)],
        data ++ [filtered],
        tick_lookup ++ [tick_idx con]).

(** [ConnTickMap.get_filtered_vtecs]. *)
Definition get_filtered_vtecs (connections : ConnTickMap) : result (SparseList F) :=
  '(index_ranges, data, tick_lookup) ← for_each filtered_step connections ([], [], []);
  SparseList_init index_ranges data tick_lookup fzero.
End conn_tick_map.
End Sparse.
Export Sparse.

(** ** tid/tec.py: pierce points, over the reals *)

Module Tec.
Local Open Scope R_scope.

(** An XYZ ECEF position. *)
Definition vec3 : Type := R * R * R.

(** Elementwise operations on one row, and the sum along it
    ([numpy.sum(..., axis=1)] of a [(?, 3)] array, row by row). *)
Definition vsub (u v : vec3) : vec3 :=
  let '(ux, uy, uz) := u in let '(vx, vy, vz) := v in (ux - vx, uy - vy, uz - vz).
Definition vadd (u v : vec3) : vec3 :=
  let '(ux, uy, uz) := u in let '(vx, vy, vz) := v in (ux + vx, uy + vy, uz + vz).
Definition vmul (u v : vec3) : vec3 :=
  let '(ux, uy, uz) := u in let '(vx, vy, vz) := v in (ux * vx, uy * vy, uz * vz).
Definition vsq (u : vec3) : vec3 :=
  let '(ux, uy, uz) := u in (ux ^ 2, uy ^ 2, uz ^ 2).
Definition vsum (u : vec3) : R :=
  let '(ux, uy, uz) := u in ux + uy + uz.

(** [IONOSPHERE_H = constants.EARTH_RADIUS + 350000]; the Earth radius is
    laika's constant. *)
Definition IONOSPHERE_H (EARTH_RADIUS : R) : R := EARTH_RADIUS + 350000.

(** The loop body of [ion_locs]: of [x] and [y], the one of smallest
    absolute value, written to the three entries of a row of [scale]. *)
Definition smallest (x y : R) : R :=
  if Rlt_dec (Rabs x) (Rabs y) then x else y.
Definition scale_row (x y : R) : vec3 :=
  (smallest x y, smallest x y, smallest x y).

(** [ion_locs], for one receiver position (shape [(3,)], as [ipps] passes
    it) and an array of satellite positions. *)
Definition ion_locs (rec_pos : vec3) (sat_pos : list vec3) (ionh : R) : list vec3 :=
  let a := (λ s, vsum (vsq (vsub s rec_pos))) <$> sat_pos in
  let b := (λ s, 2 * vsum (vmul (vsub s rec_pos) rec_pos)) <$> sat_pos in
  let c := vsum (vsq rec_pos) - ionh ^ 2 in
  let common := zip_with (λ a b, sqrt (b ^ 2 - 4 * a * c) / (2 * a)) a b in
  let b_scaled := zip_with (λ a b, - b / (2 * a)) a b in
  let scale :=
    zip_with scale_row (zip_with Rplus b_scaled common) (zip_with Rminus b_scaled common) in
  zip_with (λ s sc, vadd rec_pos (vmul (vsub s rec_pos) sc)) sat_pos scale.

(** Vocabulary of the statements about [ion_locs]: the squared norm, the
    coefficients of the quadratic for one satellite position, its two
    roots as the code writes them, the scale the loop picks, and the
    point of the line at a given scale. *)
Definition norm2 (u : vec3) : R := vsum (vsq u).
Definition qa (rec_pos s : vec3) : R := vsum (vsq (vsub s rec_pos)).
Definition qb (rec_pos s : vec3) : R := 2 * vsum (vmul (vsub s rec_pos) rec_pos).
Definition qc (rec_pos : vec3) (ionh : R) : R := vsum (vsq rec_pos) - ionh ^ 2.
Definition discriminant (rec_pos s : vec3) (ionh : R) : R :=
  qb rec_pos s ^ 2 - 4 * qa rec_pos s * qc rec_pos ionh.
Definition root_plus (rec_pos s : vec3) (ionh : R) : R :=
  - qb rec_pos s / (2 * qa rec_pos s)
  + sqrt (discriminant rec_pos s ionh) / (2 * qa rec_pos s).
Definition root_minus (rec_pos s : vec3) (ionh : R) : R :=
  - qb rec_pos s / (2 * qa rec_pos s)
  - sqrt (discriminant rec_pos s ionh) / (2 * qa rec_pos s).
Definition pierce_scale (rec_pos s : vec3) (ionh : R) : R :=
  smallest (root_plus rec_pos s ionh) (root_minus rec_pos s ionh).
Definition point_at (rec_pos s : vec3) (t : R) : vec3 :=
  vadd rec_pos (vmul (vsub s rec_pos) (t, t, t)).
End Tec.

(** ** Vocabulary of the statements *)

Module Vocabulary.
Local Open Scope Z_scope.

(** The ticks strictly between consecutive entries of a tick column. *)
Fixpoint gaps (ticks : list Z) : gset Z :=
  match ticks with
  | [] => ∅
  | first :: rest =>
      match rest with
      | [] => ∅
      | last :: _ => set_range (first + 1) last ∪ gaps rest
      end
  end.

Section vocabulary.
Context {F : Type}.

(** The number of missing ticks strictly below [tick]. *)
Definition missing_below (self : Connection F) (tick : Z) : nat :=
  size (filter (λ m, m < tick) (missing_ticks self)).

(** A tick column free of [int32] overflow: its entries are values of
    dtype ["i4"] and no two of them are [2^31] or more apart, so that the
    differences and successors the code computes on them do not wrap. *)
Definition i4_ticks (ticks : list Z) : Prop :=
  (∀ t, t ∈ ticks → - 2 ^ 31 ≤ t < 2 ^ 31) ∧
  (∀ a b, a ∈ ticks → b ∈ ticks → b - a < 2 ^ 31).

(** The derived attributes of a connection agree with a slice of rows. *)
Definition describes (self : Connection F) (obs : list (Row F)) : Prop :=
  head (tick <$> obs) = Some (tick_start self) ∧
  last (tick <$> obs) = Some (tick_end self) ∧
  missing_ticks self = gaps (tick <$> obs).

(** The number of samples of a connection: the rows [idx_start .. idx_end]. *)
Definition sample_count (self : Connection F) : Z :=
  idx_end self - idx_start self + 1.

(** An inclusive range of ticks. *)
Definition in_range (r : Z * Z) (tick : Z) : Prop := r.1 ≤ tick ≤ r.2.

(** No tick lies in the ranges of two different positions. *)
Definition non_overlapping {D : Type} (triples : list (Z * Z * list D * (Z → option Z)))
    : Prop :=
  ∀ (i j : nat) ti tj tick,
    triples !! i = Some ti → triples !! j = Some tj →
    in_range ti.1.1 tick → in_range tj.1.1 tick → i = j.

(** What [__getitem__] answers from one triple whose range holds the tick. *)
Definition resolve {D : Type} (dflt : D) (triple : Z * Z * list D * (Z → option Z))
    (tick : Z) : result D :=
  match triple.2 tick with
  | None => Ok dflt
  | Some idx => getitem triple.1.2 idx
  end.

(** The tick range of a connection. *)
Definition tick_range (con : Connection F) : Z * Z := (tick_start con, tick_end con).

(** The connections that [get_filtered_vtecs] does not skip. *)
Definition long_enough `{!TidExternals F} (connections : list (Connection F))
    : list (Connection F) :=
  filter (λ con, ¬ (idx_end con - idx_start con < BUTTER_MIN_LENGTH)) connections.

(** The filtered VTEC sequence of one connection. *)
Definition filtered_vtecs0 `{!TidExternals F} (con : Connection F) : result (list F) :=
  v ← vtecs0 con; bpfilter v.

(** A dict entry of [from_raw_obs] after more rows were appended to it. *)
Definition entry_rows (o : option (list (Row F))) : list (Row F) :=
  match o with
  | Some l => l
  | None => []
  end.
Definition extend (o : option (list (Row F))) (rows : list (Row F)) : option (list (Row F)) :=
  match rows with
  | [] => o
  | _ :: _ => Some (entry_rows o ++ rows)
  end.

(** The rows a satellite gets from the first loop of [from_raw_obs]: the
    tuples of its measurements, in the order they are met. *)
Definition converted `{!Float64 F} (raw_obs : list (list (GNSSMeasurement F)))
    (sv : string) : list (Row F) :=
  _meas_to_tuple <$> filter (λ obs, m_prn obs = sv) (concat raw_obs).

(** The residual of one sample: code-phase difference minus
    carrier-phase difference. *)
Definition residual `{!Float64 F} (f1 f2 : F) (r : Row F) : F :=
  fsub (fsub (C2C r) (C1C r))
       (fmul SPEED_OF_LIGHT (fsub (fdiv (L1C r) f1) (fdiv (L2C r) f2))).
End vocabulary.
End Vocabulary.
Export Vocabulary.

(** ** The binary64 instance *)

Module Binary64.
Abbreviation float := PrimFloat.float.

(** Rounding a double to the nearest single, for an ["f4"] field. *)
Definition to_f4 (x : float) : float :=
  match FloatOps.Prim2SF x with
  | SpecFloat.S754_finite s m e => FloatOps.SF2Prim (SpecFloat.binary_round 24 128 s m e)
  | _ => x
  end.

(** An integer literal as a double. *)
Definition lit (n : Z) : float := PrimFloat.of_uint63 (Uint63.of_Z n).

(** Mean and standard deviation with sequential accumulation. *)
Definition fsum (l : list float) : float := foldl PrimFloat.add PrimFloat.zero l.
Definition mean (l : list float) : float :=
  PrimFloat.div (fsum l) (lit (Z.of_nat (length l))).
Definition std (l : list float) : float :=
  let m := mean l in
  PrimFloat.sqrt (mean ((λ x, PrimFloat.mul (PrimFloat.sub x m) (PrimFloat.sub x m)) <$> l)).

#[global] Instance float64 : Float64 float := {|
  fsub := PrimFloat.sub;
  fmul := PrimFloat.mul;
  fdiv := PrimFloat.div;
  fzero := PrimFloat.zero;
  feq_zero := λ x, PrimFloat.eqb x PrimFloat.zero;
  nan := PrimFloat.nan;
  isnan := PrimFloat.is_nan;
  as_f4 := to_f4;
  np_mean := mean;
  np_std := std;
  SPEED_OF_LIGHT := lit 299792458;
|}.

(** A row holding only a tick; every measurement is NaN. *)
Definition blank_row (t : Z) : Row float :=
  mkRow t nan nan nan nan nan nan nan nan 0 nan
    (nan, nan, nan) (nan, nan, nan) (nan, nan, nan) false false.

(** A row with the four measurements that the ambiguity correction reads. *)
Definition meas_row (t : Z) (c1c c2c l1c l2c : float) : Row float :=
  mkRow t c1c c2c nan nan l1c l2c nan nan 0 nan
    (nan, nan, nan) (nan, nan, nan) (nan, nan, nan) false false.

(** A scenario with one station and one satellite; the GPS L1/L2 pair is
    the answer of the frequency lookup. *)
Definition one_pair_scenario (rows : list (Row float)) : Scenario float :=
  mkScenario {[ "STA1"%string := {[ "G01"%string := rows ]} ]}
             (λ _ _, Some (lit 1575420000, lit 1227600000)).

(** Samples at ticks 100, 101, 103 and 104: tick 102 was never recorded. *)
Definition gapped_scenario : Scenario float :=
  one_pair_scenario (blank_row <$> [100; 101; 103; 104]%Z).

Definition gapped_connection : Connection float :=
  mkConnection gapped_scenario "STA1" "G01" 0 3 100 104 {[ 102%Z ]} None None None None.

(** Stand-ins for the absent [util] and [tec] parts, for concrete runs: a
    threshold of 27, a filter that returns its input, and VTEC arrays
    with one entry per row of the connection. *)
Definition stand_in_externals : TidExternals float := {|
  BUTTER_MIN_LENGTH := 27;
  bpfilter := Ok;
  calculate_vtecs := λ con,
    let n := Z.to_nat (idx_end con - idx_start con + 1) in
    Ok (replicate n PrimFloat.one, replicate n PrimFloat.one);
|}.

(** Sixty consecutive samples, cut into a connection of exactly 27
    samples and one of 33. *)
Definition long_scenario : Scenario float :=
  one_pair_scenario (blank_row <$> seqZ 0 60).

Definition con_27 : Connection float :=
  mkConnection long_scenario "STA1" "G01" 0 26 0 26 ∅ None None None None.

Definition con_33 : Connection float :=
  mkConnection long_scenario "STA1" "G01" 27 59 27 59 ∅ None None None None.

(** A connection of five samples, too short for the filter. *)
Definition con_5 : Connection float :=
  mkConnection long_scenario "STA1" "G01" 0 4 0 4 ∅ None None None None.

(** One connection per correction state: integer ambiguities set, only the
    smoothed offset set, nothing set. *)
Definition con_integer : Connection float :=
  mkConnection long_scenario "STA1" "G01" 0 4 0 4 ∅
    (Some (lit 3)) (Some (lit 5)) (Some (lit 2)) (Some (lit 1)).

Definition con_offset : Connection float :=
  mkConnection long_scenario "STA1" "G01" 0 4 0 4 ∅
    (Some (lit 3)) None (Some (lit 2)) (Some (lit 1)).

(** A sparse list over two ranges given out of tick order; the second
    range has no sample at tick 2. *)
Definition second_lookup (t : Z) : option Z :=
  if bool_decide (t = 2%Z) then None
  else Some (if bool_decide (t < 2)%Z then t else (t - 1)%Z).

Definition unsorted_sparse : SparseList float :=
  mkSparseList [(10, 12); (0, 3)]%Z
    [[lit 5; lit 6; lit 7]; [lit 1; lit 2; lit 3]]
    [λ t, Some (t - 10)%Z; second_lookup]
    PrimFloat.zero 12.

Definition sorted_sparse : SparseList float :=
  mkSparseList [(0, 3); (10, 12)]%Z
    [[lit 1; lit 2; lit 3]; [lit 5; lit 6; lit 7]]
    [second_lookup; λ t, Some (t - 10)%Z]
    PrimFloat.zero 12.

(** A measurement carrying the given observables and nothing else of
    interest. *)
Definition meas (sv : string) (observables : gmap string float) : GNSSMeasurement float :=
  mkMeas sv observables PrimFloat.zero 0 PrimFloat.zero
    (PrimFloat.zero, PrimFloat.zero, PrimFloat.zero)
    (PrimFloat.zero, PrimFloat.zero, PrimFloat.zero)
    (PrimFloat.zero, PrimFloat.zero, PrimFloat.zero) false false.

(** A batch in which G01 reports its second code phase as C2P only and
    G02 reports both. *)
Definition mixed_batch : list (list (GNSSMeasurement float)) :=
  [[meas "G01" {[ "C1C"%string := lit 1; "C2P"%string := lit 2 ]};
    meas "G02" {[ "C2C"%string := lit 3; "C2P"%string := lit 4 ]}];
   [meas "G01" {[ "C1C"%string := lit 5; "C2P"%string := lit 6 ]}]].
End Binary64.

(** ** The rest of tid/connections.py, tid/dense_data.py and tid/tec.py *)

Module ConnectionsRest.
Local Open Scope Z_scope.

Section connection_rest.
Context {F : Type}.

(** The [ticks] property: [numpy.arange(tick_start, tick_end + 1)], the
    stop being an [int32] sum. *)
Definition ticks (self : Connection F) : list Z :=
  seqZ (tick_start self) (Numpy.wrap_i4 (tick_end self + 1) - tick_start self).
End connection_rest.
End ConnectionsRest.
Export ConnectionsRest.

Module DenseDataRest.

Section merge.
Context {F : Type}.

(** One round of the loop of [merge_data]. *)
Definition merge_step (data1 : gmap string (list (Row F))) (sv : string)
    (rows2 : list (Row F)) (combined : gmap string (list (Row F)))
    : gmap string (list (Row F)) :=
  match data1 !! sv with
  | None => <[sv := rows2]> combined
  | Some rows1 => <[sv := rows1 ++ rows2]> combined
  end.

(** [merge_data]: a copy of [data1], updated for every key of [data2]. *)
Definition merge_data (data1 data2 : gmap string (list (Row F)))
    : gmap string (list (Row F)) :=
  map_fold (merge_step data1) data1 data2.
End merge.
End DenseDataRest.
Export DenseDataRest.

Module TecRest.
Import Tec.

(** Float addition, which [calc_carrier_delays] needs besides the
    operations of [Float64]. *)
Class FloatAdd (F : Type) : Type := {
  fadd : F → F → F;
}.

Section carrier.
Context `{Float64 F, FloatAdd F}.

End carrier.

Local Open Scope R_scope.

(** [s_to_v_factor], over the reals; the Earth radius is laika's
    constant.  Division and square root are those of the reals: what is
    proved about the factor takes [ionh] non-zero and the radicand
    non-negative. *)
Definition s_to_v_factor (EARTH_RADIUS : R) (elevations : list R) (ionh : R) : list R :=
  (λ el, sqrt (1 - (cos el * EARTH_RADIUS / ionh) ^ 2)) <$> elevations.

(** Where binary64 leaves the reals in [calc_delay_factor]: whether the
    square of a frequency is out of the range of a float, in which case
    Python's [**] raises [OverflowError]. *)
Class FloatRange : Type := {
  square_overflows : R → bool;
}.

(** Python's [f ** 2] and [x / y] on two floats, read over the reals:
    the values are exact, the exceptions are Python's. *)
Definition pow2 `{FloatRange} (f : R) : result R :=
  if square_overflows f then Raise OverflowError else Ok (f ^ 2).
Definition rdiv (x y : R) : result R :=
  if Req_dec_T y 0 then Raise ZeroDivisionError else Ok (x / y).

(** [calc_delay_factor]: the numerator is evaluated before the
    denominator, and each of them squares both frequencies.  Rounding is
    not modelled: the divisor is zero when the exact squares agree. *)
Definition calc_delay_factor `{FloatRange} (connection : Connection R) : result R :=
  '(f1, f2) ← frequencies connection;
  n1 ← pow2 f1;
  n2 ← pow2 f2;
  d1 ← pow2 f1;
  d2 ← pow2 f2;
  rdiv (n1 * n2) (d1 - d2).

(** The [ipps] property of a connection whose rows hold real positions:
    [station_locs] is the scenario's dict of station positions, and the
    shell radius is the default of [ion_locs]. *)
Definition ipps (EARTH_RADIUS : R) (station_locs : gmap string vec3)
    (self : Connection R) : result (list vec3) :=
  rec_pos ← dict_getitem station_locs (station self);
  sats ← column self sat_pos;
  Ok (ion_locs rec_pos sats (IONOSPHERE_H EARTH_RADIUS)).

(** [ConnTickMap.get_ipps]: the default of the view is [None]. *)
Definition get_ipps (EARTH_RADIUS : R) (station_locs : gmap string vec3)
    (connections : list (Connection R)) : result (SparseList (option vec3)) :=
  let index_ranges :=
    List.map (λ con : Connection R, (tick_start con, tick_end con)) connections in
  data ← comprehension (ipps EARTH_RADIUS station_locs) connections;
  let lookups := List.map tick_idx connections in
  SparseList_init index_ranges (List.map (List.map Some) data) lookups None.
End TecRest.
Export TecRest.

(** ** More concrete data *)

Module Samples.
Import Tec.



(** Both integer ambiguities set, and a frequency lookup that answers
    0.0 for the second band. *)
Definition zero_frequency_connection : Connection Binary64.float :=
  mkConnection
    (mkScenario (station_data Binary64.long_scenario)
                (λ _ _, Some (Binary64.lit 1575420000, PrimFloat.zero)))
    "STA1" "G01" 0 4 0 4 ∅
    (Some (Binary64.lit 3)) (Some (Binary64.lit 5)) None None.

(** Binary64 addition. *)
#[global] Instance float_add : FloatAdd Binary64.float := {| fadd := PrimFloat.add |}.

(** A row over the reals: a tick and a satellite position. *)
Definition real_row (t : Z) (pos : vec3) : Row R :=
  mkRow t 0%R 0%R 0%R 0%R 0%R 0%R 0%R 0%R 0 0%R pos (0, 0, 0)%R pos false false.

(** A station on the x axis at the Earth's surface and a satellite seen
    at ticks 5, 6 and 8 (tick 7 was lost), straight overhead. *)
Definition real_rows : list (Row R) :=
  [real_row 5 (20000000, 0, 0)%R; real_row 6 (21000000, 0, 0)%R;
   real_row 8 (22000000, 0, 0)%R].

Definition real_scenario : Scenario R :=
  mkScenario {[ "STA1"%string := {[ "G01"%string := real_rows ]} ]}
             (λ _ _, Some (1575420000, 1227600000)%R).

Definition real_connection : Connection R :=
  mkConnection real_scenario "STA1" "G01" 0 2 5 8 {[ 7%Z ]} None None None None.

Definition real_station_locs : gmap string vec3 :=
  {[ "STA1"%string := (6378137, 0, 0)%R ]}.

(** The range of binary64: a square overflows when it rounds to
    infinity, that is from [2^1024 - 2^970] on. *)
Definition SQUARE_OVERFLOW : R :=
  IZR ltac:(let v := eval vm_compute in (2 ^ 1024 - 2 ^ 970)%Z in exact v).

#[global] Instance binary64_range : FloatRange := {|
  square_overflows := λ f, if Rle_dec SQUARE_OVERFLOW (f ^ 2) then true else false;
|}.

(** The same station data with a frequency lookup that answers the same
    frequency twice. *)
Definition equal_frequency_connection : Connection R :=
  mkConnection (mkScenario (station_data real_scenario) (λ _ _, Some (5, 5)%R))
    "STA1" "G01" 0 2 5 8 {[ 7%Z ]} None None None None.

(** Two batches of G01: the first reports its second code phase as C2P
    only, the second reports both C2C and C2P. *)
Definition c2p_only_batch : list (list (GNSSMeasurement Binary64.float)) :=
  [[Binary64.meas "G01" {[ "C1C"%string := Binary64.lit 1; "C2P"%string := Binary64.lit 2 ]}]].

Definition both_bands_batch : list (list (GNSSMeasurement Binary64.float)) :=
  [[Binary64.meas "G01" {[ "C2C"%string := Binary64.lit 3; "C2P"%string := Binary64.lit 4 ]}]].
End Samples.

(* ===================================================================== *)
(** * Part II: properties                                                 *)
(* ===================================================================== *)

Section python_facts.
Local Open Scope Z_scope.

Lemma bind_Ok {A B} (m : result A) (k : A → result B) (b : B) :
  m ≫= k = Ok b ↔ ∃ a, m = Ok a ∧ k a = Ok b.
Proof.
  destruct m as [a|e]; simpl; split.
  - intros Hk. exists a. split; [reflexivity | exact Hk].
  - intros (a' & Ha & Hk). inversion Ha. subst. exact Hk.
  - intros Hk. discriminate Hk.
  - intros (a' & Ha & _). discriminate Ha.
Qed.

Lemma getitem_nat {A} (l : list A) (i : nat) (x : A) :
  l !! i = Some x → getitem l (Z.of_nat i) = Ok x.
Proof.
  intros Hi. unfold getitem.
  pose proof (lookup_lt_Some _ _ _ Hi) as Hlt.
  rewrite (bool_decide_eq_false_2 (Z.of_nat i < 0)) by lia.
  rewrite bool_decide_eq_true_2 by lia.
  rewrite Nat2Z.id, Hi. reflexivity.
Qed.

Lemma slice_nat {A} (l : list A) (i j : nat) :
  (i ≤ j)%nat → (j ≤ length l)%nat →
  slice l (Z.of_nat i) (Z.of_nat j) = take (j - i) (drop i l).
Proof.
  intros Hij Hj. unfold slice, clip.
  rewrite !bool_decide_eq_false_2 by lia.
  replace (Z.max 0 (Z.min (Z.of_nat (length l)) (Z.of_nat i))) with (Z.of_nat i) by lia.
  replace (Z.max 0 (Z.min (Z.of_nat (length l)) (Z.of_nat j))) with (Z.of_nat j) by lia.
  rewrite Nat2Z.id. f_equal. lia.
Qed.
End python_facts.

(** ** Connection.tick_idx *)

Section tick_idx_facts.
Local Open Scope Z_scope.
Context {F : Type}.

(** The loop of [tick_idx] removes one slot per missing tick below the
    queried one, whatever the order in which the set is visited. *)
Lemma tick_idx_loop (tick guess : Z) (missing : gset Z) :
  set_fold (λ m g, if bool_decide (tick > m) then g - 1 else g) guess missing
  = guess - Z.of_nat (size (filter (λ m, m < tick) missing)).
Proof.
  apply (set_fold_ind_L
           (λ r X, r = guess - Z.of_nat (size (filter (λ m, m < tick) X)))).
  - rewrite filter_empty_L by apply _. rewrite size_empty. lia.
  - intros x X r Hx IH. rewrite filter_union_L by apply _. rewrite size_union.
    + destruct (decide (x < tick)) as [Hlt|Hge].
      * rewrite filter_singleton_True_L by (exact Hlt || apply _).
        rewrite size_singleton, bool_decide_eq_true_2 by lia. lia.
      * rewrite filter_singleton_False_L by (exact Hge || apply _).
        rewrite size_empty, bool_decide_eq_false_2 by lia. lia.
    + intros y Hy1 Hy2. apply elem_of_filter in Hy1 as [_ Hy1].
      apply elem_of_filter in Hy2 as [_ Hy2].
      apply elem_of_singleton in Hy1. subst y. contradiction.
Qed.

Lemma tick_idx_present (c : Connection F) (tick : Z) :
  tick ∉ missing_ticks c →
  tick_idx c tick = Some (tick - tick_start c - Z.of_nat (missing_below c tick)).
Proof.
  intros Hnot. unfold tick_idx, missing_below.
  rewrite bool_decide_eq_false_2 by exact Hnot.
  rewrite tick_idx_loop. reflexivity.
Qed.

Lemma tick_idx_None (c : Connection F) (tick : Z) :
  tick_idx c tick = None ↔ tick ∈ missing_ticks c.
Proof.
  unfold tick_idx. case_bool_decide as Hin; split; intros H'.
  - exact Hin.
  - reflexivity.
  - discriminate H'.
  - contradiction.
Qed.
End tick_idx_facts.




(** ** Connection._init_missing_ticks *)

Section missing_ticks_facts.
Local Open Scope Z_scope.

Lemma elem_of_set_range (a b m : Z) : m ∈ set_range a b ↔ a ≤ m < b.
Proof.
  unfold set_range. rewrite elem_of_list_to_set, elem_of_seqZ. lia.
Qed.

Lemma set_range_empty (a b : Z) : b ≤ a → set_range a b = ∅.
Proof.
  intros Hba. unfold set_range. rewrite seqZ_nil by lia. reflexivity.
Qed.

Lemma size_set_range (a b : Z) : a ≤ b → size (set_range a b) = Z.to_nat (b - a).
Proof.
  intros Hab. unfold set_range.
  rewrite size_list_to_set by apply NoDup_seqZ.
  apply length_seqZ.
Qed.

(** The two rows read at a gap position. *)
Lemma slice_pair (pre : list Z) (x y : Z) (rest : list Z) :
  slice (pre ++ x :: y :: rest) (Z.of_nat (length pre)) (Z.of_nat (length pre) + 2) = [x; y].
Proof.
  replace (Z.of_nat (length pre) + 2) with (Z.of_nat (length pre + 2)) by lia.
  rewrite slice_nat.
  - rewrite drop_app_length. replace (length pre + 2 - length pre)%nat with 2%nat by lia.
    reflexivity.
  - lia.
  - rewrite length_app. simpl. lia.
Qed.

Lemma add_gap_pair (pre : list Z) (x y : Z) (rest : list Z) (acc : gset Z) :
  add_gap (pre ++ x :: y :: rest) acc (length pre)
  = Ok (acc ∪ set_range (Numpy.wrap_i4 (x + 1)) y).
Proof.
  unfold add_gap. rewrite slice_pair. reflexivity.
Qed.

(** Inside the [int32] range nothing wraps. *)
Lemma wrap_i4_id (x : Z) : - 2 ^ 31 ≤ x < 2 ^ 31 → Numpy.wrap_i4 x = x.
Proof.
  intros Hx. unfold Numpy.wrap_i4. rewrite Z.mod_small by lia. lia.
Qed.

(** Non-negative ["i4"] ticks, the usual case, are free of overflow. *)
Lemma i4_ticks_within (ticks : list Z) :
  Forall (λ t, 0 ≤ t < 2 ^ 31) ticks → i4_ticks ticks.
Proof.
  intros Hall. rewrite Forall_forall in Hall. split.
  - intros t Ht. specialize (Hall t Ht). lia.
  - intros a b Ha Hb. pose proof (Hall a Ha). pose proof (Hall b Hb). lia.
Qed.

Lemma i4_ticks_tail (x : Z) (ticks : list Z) : i4_ticks (x :: ticks) → i4_ticks ticks.
Proof.
  intros [Hval Hspan]. split.
  - intros t Ht. apply Hval. right. exact Ht.
  - intros a b Ha Hb. apply Hspan; right; assumption.
Qed.

Lemma i4_ticks_step (x y : Z) (rest : list Z) :
  i4_ticks (x :: y :: rest) →
  Numpy.wrap_i4 (y - x) = y - x ∧ (y - x > 1 → Numpy.wrap_i4 (x + 1) = x + 1).
Proof.
  intros [Hval Hspan].
  assert (x ∈ x :: y :: rest) as Hx by left.
  assert (y ∈ x :: y :: rest) as Hy by (right; left).
  pose proof (Hval x Hx) as Hxv. pose proof (Hval y Hy) as Hyv.
  pose proof (Hspan x y Hx Hy) as Hxy. pose proof (Hspan y x Hy Hx) as Hyx.
  split.
  - apply wrap_i4_id. lia.
  - intros Hgap. apply wrap_i4_id. lia.
Qed.

(** The loop over the gap positions, started anywhere in the column: it
    never raises, and on a column free of overflow it collects the ticks
    strictly between consecutive entries. *)
Lemma for_each_add_gap (ticks pre : list Z) (acc : gset Z) :
  ∃ missing,
    for_each (add_gap (pre ++ ticks))
             (Numpy.where_from (length pre) (Numpy.gt (Numpy.diff ticks) 1)) acc
    = Ok missing ∧
    (i4_ticks ticks → missing = acc ∪ gaps ticks).
Proof.
  revert pre acc. induction ticks as [|x ticks IH]; intros pre acc.
  - exists acc. split; [reflexivity|]. intros _. simpl. rewrite union_empty_r_L. reflexivity.
  - destruct ticks as [|y rest].
    + exists acc. split; [reflexivity|]. intros _. simpl. rewrite union_empty_r_L.
      reflexivity.
    + specialize (IH (pre ++ [x])).
      rewrite <- app_assoc, length_app in IH. cbn [app length] in IH.
      rewrite Nat.add_1_r in IH.
      change (∃ missing,
                for_each (add_gap (pre ++ x :: y :: rest))
                  (Numpy.where_from (length pre)
                     (bool_decide (Numpy.wrap_i4 (y - x) > 1)
                        :: Numpy.gt (Numpy.diff (y :: rest)) 1)) acc
                = Ok missing ∧
                (i4_ticks (x :: y :: rest) →
                 missing = acc ∪ (set_range (x + 1) y ∪ gaps (y :: rest)))).
      cbn [Numpy.where_from]. case_bool_decide as Hgap.
      * cbn [for_each]. rewrite add_gap_pair. cbn [mbind result_bind bind].
        destruct (IH (acc ∪ set_range (Numpy.wrap_i4 (x + 1)) y)) as (missing & Hrun & Hi4).
        exists missing. split; [exact Hrun|]. intros Hcol.
        destruct (i4_ticks_step x y rest Hcol) as [Hdiff Hsucc].
        rewrite Hdiff in Hgap.
        rewrite (Hi4 (i4_ticks_tail _ _ Hcol)), (Hsucc Hgap).
        symmetry. apply (assoc_L (∪)).
      * destruct (IH acc) as (missing & Hrun & Hi4).
        exists missing. split; [exact Hrun|]. intros Hcol.
        destruct (i4_ticks_step x y rest Hcol) as [Hdiff _].
        rewrite Hdiff in Hgap.
        rewrite (Hi4 (i4_ticks_tail _ _ Hcol)), set_range_empty by lia.
        f_equal. symmetry. apply (left_id_L ∅ (∪)).
Qed.

Lemma missing_ticks_of_Ok (ticks : list Z) (acc : gset Z) :
  ∃ missing, missing_ticks_of ticks acc = Ok missing ∧
             (i4_ticks ticks → missing = acc ∪ gaps ticks).
Proof.
  unfold missing_ticks_of, Numpy.np_where.
  apply (for_each_add_gap ticks []).
Qed.

(** Where a difference overflows [int32] the gap goes unseen: between
    the ticks -2 and 2147483647 nothing is recorded as missing. *)
Lemma overflowing_gap_unseen : missing_ticks_of [-2; 2147483647] ∅ = Ok ∅.
Proof. vm_compute. reflexivity. Qed.

(** In an increasing column every gap tick lies above the first entry. *)
Lemma gaps_above_first (x : Z) (rest : list Z) (m : Z) :
  Sorted Z.lt (x :: rest) → m ∈ gaps (x :: rest) → x < m.
Proof.
  revert x. induction rest as [|y rest IH]; intros x Hs Hm.
  - simpl in Hm. set_solver.
  - change (m ∈ set_range (x + 1) y ∪ gaps (y :: rest)) in Hm.
    apply Sorted_inv in Hs as [Hs Hhd]. apply HdRel_inv in Hhd.
    apply elem_of_union in Hm as [Hm|Hm].
    + apply elem_of_set_range in Hm. lia.
    + specialize (IH y Hs Hm). lia.
Qed.
End missing_ticks_facts.

(** ** Round trip through tick_idx *)

Section roundtrip_facts.
Local Open Scope Z_scope.

Lemma filter_lt_all (t : Z) (X : gset Z) :
  (∀ m, m ∈ X → m < t) → filter (λ m, m < t) X = X.
Proof.
  intros Hall. apply set_eq. intros m. rewrite elem_of_filter.
  split; [intros [_ Hm]; exact Hm | intros Hm; split; [apply Hall|]; exact Hm].
Qed.

Lemma filter_lt_none (t : Z) (X : gset Z) :
  (∀ m, m ∈ X → t < m) → filter (λ m, m < t) X = ∅.
Proof.
  intros Hnone. apply set_eq. intros m. rewrite elem_of_filter.
  split.
  - intros [Hlt Hm]. specialize (Hnone m Hm). lia.
  - intros Hm. apply not_elem_of_empty in Hm. contradiction.
Qed.

(** A tick of an increasing column that falls in no gap is an entry of
    the column, and its position is its distance to the first entry less
    the gap ticks below it. *)
Lemma gaps_roundtrip (rest : list Z) :
  ∀ (x te t : Z),
    Sorted Z.lt (x :: rest) → last (x :: rest) = Some te →
    x ≤ t ≤ te → t ∉ gaps (x :: rest) →
    ∃ i : nat, (x :: rest) !! i = Some t ∧
               Z.of_nat i = t - x - Z.of_nat (size (filter (λ m, m < t) (gaps (x :: rest)))).
Proof.
  induction rest as [|y rest IH]; intros x te t Hs Hlast Hrange Hnot.
  - simpl in Hlast. inversion Hlast; subst te. exists 0%nat. split.
    + simpl. f_equal. lia.
    + simpl. rewrite filter_empty_L by apply _. rewrite size_empty. lia.
  - pose proof Hs as Hs0.
    apply Sorted_inv in Hs as [Hs Hhd]. apply HdRel_inv in Hhd.
    change (gaps (x :: y :: rest)) with (set_range (x + 1) y ∪ gaps (y :: rest)) in *.
    destruct (decide (t = x)) as [->|Hne].
    + exists 0%nat. split; [reflexivity|].
      rewrite filter_lt_none.
      * rewrite size_empty. lia.
      * intros m Hm. apply (gaps_above_first x (y :: rest) m Hs0 Hm).
    + apply not_elem_of_union in Hnot as [HnotR HnotG].
      rewrite elem_of_set_range in HnotR.
      assert (y ≤ t) as Hyt by lia.
      rewrite last_cons_cons in Hlast.
      destruct (IH y te t Hs Hlast ltac:(lia) HnotG) as (i & Hi & Hpos).
      exists (S i). split; [exact Hi|].
      rewrite filter_union_L by apply _.
      rewrite size_union.
      * rewrite (filter_lt_all t (set_range (x + 1) y)).
        -- rewrite size_set_range by lia. lia.
        -- intros m Hm. apply elem_of_set_range in Hm. lia.
      * intros m Hm1 Hm2.
        apply elem_of_filter in Hm1 as [_ Hm1]. apply elem_of_filter in Hm2 as [_ Hm2].
        apply elem_of_set_range in Hm1.
        pose proof (gaps_above_first y rest m Hs Hm2). lia.
Qed.
End roundtrip_facts.

Section connection_facts.
Local Open Scope Z_scope.
Context {F : Type}.

Lemma getitem_nonneg {A} (l : list A) (i : Z) (x : A) :
  0 ≤ i → getitem l i = Ok x → l !! Z.to_nat i = Some x.
Proof.
  intros Hi. unfold getitem.
  rewrite (bool_decide_eq_false_2 (i < 0)) by lia.
  case_bool_decide; [|discriminate].
  destruct (l !! Z.to_nat i) as [y|]; [|discriminate].
  intros Hy. inversion Hy. reflexivity.
Qed.

(** The slice [arr[i : j + 1]] for valid non-negative [i <= j]. *)
Lemma slice_inclusive {A} (arr : list A) (i j : Z) (first lastr : A) :
  0 ≤ i ≤ j → arr !! Z.to_nat i = Some first → arr !! Z.to_nat j = Some lastr →
  head (slice arr i (j + 1)) = Some first ∧ last (slice arr i (j + 1)) = Some lastr.
Proof.
  intros Hij Hfirst Hlast.
  pose proof (lookup_lt_Some _ _ _ Hlast) as Hlen.
  replace i with (Z.of_nat (Z.to_nat i)) at 1 2 by lia.
  replace (j + 1) with (Z.of_nat (Z.to_nat j + 1)) by lia.
  rewrite slice_nat by lia.
  set (k := (Z.to_nat j + 1 - Z.to_nat i)%nat).
  split.
  - rewrite head_lookup, lookup_take_lt by (subst k; lia).
    rewrite lookup_drop, Nat.add_0_r. exact Hfirst.
  - rewrite last_lookup, length_take, length_drop.
    replace (Init.Nat.pred (k `min` (length arr - Z.to_nat i)))%nat
      with (Z.to_nat j - Z.to_nat i)%nat by (subst k; lia).
    rewrite lookup_take_lt by (subst k; lia).
    rewrite lookup_drop.
    replace (Z.to_nat i + (Z.to_nat j - Z.to_nat i))%nat with (Z.to_nat j) by lia.
    exact Hlast.
Qed.

Lemma station_array_nonempty (scn : Scenario F) (st pr : string) (arr : list (Row F)) :
  station_array scn st pr = Ok arr → station_data scn ≠ ∅.
Proof.
  unfold station_array, dict_getitem. intros Harr Hempty.
  rewrite Hempty, lookup_empty in Harr. discriminate Harr.
Qed.

(** What a successful construction leaves in the object. *)
Lemma Connection_init_Ok (scn : Scenario F) (st pr : string) (i j : Z) (c : Connection F) :
  Connection_init scn st pr i j = Ok c →
  ∃ arr first lastr missing,
    station_array scn st pr = Ok arr ∧
    getitem arr i = Ok first ∧ getitem arr j = Ok lastr ∧
    observations c = Ok (slice arr i (j + 1)) ∧
    (i4_ticks (tick <$> slice arr i (j + 1)) →
     missing = gaps (tick <$> slice arr i (j + 1))) ∧
    c = mkConnection scn st pr i j (tick first) (tick lastr)
          missing None None None None.
Proof.
  unfold Connection_init. intros Hinit.
  apply bind_Ok in Hinit as (arr & Harr & Hinit).
  apply bind_Ok in Hinit as (first & Hfirst & Hinit).
  apply bind_Ok in Hinit as (arr' & Harr' & Hinit).
  rewrite Harr in Harr'. inversion Harr'; subst arr'.
  apply bind_Ok in Hinit as (lastr & Hlast & Hinit).
  assert (∀ c' : Connection F,
             scenario c' = scn → station c' = st → prn c' = pr →
             idx_start c' = i → idx_end c' = j →
             observations c' = Ok (slice arr i (j + 1))) as Hobs.
  { intros c' H1 H2 H3 H4 H5. unfold observations.
    rewrite H1, H2, H3, H4, H5.
    rewrite bool_decide_eq_false_2 by (eapply station_array_nonempty; exact Harr).
    simpl. rewrite Harr. reflexivity. }
  unfold _init_missing_ticks in Hinit.
  rewrite Hobs in Hinit by reflexivity.
  cbn [mbind result_bind bind] in Hinit.
  cbn [missing_ticks] in Hinit.
  destruct (missing_ticks_of_Ok (tick <$> slice arr i (j + 1)) ∅)
    as (missing & Hmissing & Hgaps).
  rewrite Hmissing in Hinit.
  cbn [mbind result_bind bind scenario station prn idx_start idx_end
       tick_start tick_end n_chan1 n_chan2 offset offset_error] in Hinit.
  inversion Hinit as [Hc].
  exists arr, first, lastr, missing. repeat split; try assumption.
  - apply Hobs; reflexivity.
  - intros Hcol. rewrite (Hgaps Hcol). apply (left_id_L ∅ (∪)).
Qed.

Lemma Connection_init_describes (scn : Scenario F) (st pr : string) (i j : Z)
    (c : Connection F) :
  0 ≤ i ≤ j → Connection_init scn st pr i j = Ok c →
  ∃ obs, observations c = Ok obs ∧ (i4_ticks (tick <$> obs) → describes c obs).
Proof.
  intros Hij Hinit.
  apply Connection_init_Ok in Hinit
    as (arr & first & lastr & missing & _ & Hf & Hl & Hobs & Hmissing & ->).
  exists (slice arr i (j + 1)). split; [exact Hobs|]. intros Hcol.
  apply getitem_nonneg in Hf; [|lia]. apply getitem_nonneg in Hl; [|lia].
  destruct (slice_inclusive arr i j first lastr Hij Hf Hl) as [Hhead Hlast].
  unfold describes. cbn [tick_start tick_end missing_ticks].
  repeat split.
  - rewrite head_lookup, list_lookup_fmap, <- head_lookup, Hhead. reflexivity.
  - rewrite fmap_last, Hlast. reflexivity.
  - apply Hmissing, Hcol.
Qed.

(** A tick of the connection that is not missing is found where
    [tick_idx] says. *)
Lemma describes_roundtrip (c : Connection F) (obs : list (Row F)) (t : Z) :
  describes c obs → Sorted Z.lt (tick <$> obs) →
  tick_start c ≤ t ≤ tick_end c → t ∉ missing_ticks c →
  ∃ idx row, tick_idx c t = Some idx ∧ getitem obs idx = Ok row ∧ tick row = t.
Proof.
  intros (Hhead & Hlast & Hmiss) Hsorted Hrange Hnot.
  destruct (tick <$> obs) as [|x rest] eqn:Hcol; [discriminate Hhead|].
  simpl in Hhead. assert (x = tick_start c) as Hx by congruence. clear Hhead.
  rewrite Hmiss in Hnot.
  destruct (gaps_roundtrip rest x (tick_end c) t Hsorted Hlast ltac:(lia) Hnot)
    as (i & Hi & Hpos).
  rewrite <- Hcol, list_lookup_fmap in Hi.
  destruct (obs !! i) as [row|] eqn:Hrow; [|discriminate Hi].
  simpl in Hi. assert (tick row = t) as Htick by congruence. clear Hi.
  exists (Z.of_nat i), row. repeat split.
  - rewrite tick_idx_present by (rewrite Hmiss; exact Hnot).
    unfold missing_below. rewrite Hmiss, Hpos, Hx. reflexivity.
  - apply getitem_nat. exact Hrow.
  - exact Htick.
Qed.
End connection_facts.

(** ** Ambiguity correction *)

Section correction_facts.
Local Open Scope Z_scope.
Context `{Float64 F}.

(** The array expression of [_correct_ambiguities_avg] computes the
    residual of every row. *)
Lemma difference_rows (f1 f2 : F) (obs : list (Row F)) :
  Numpy.sub (Numpy.sub (C2C <$> obs) (C1C <$> obs))
    (Numpy.scalar_mul SPEED_OF_LIGHT
       (Numpy.sub (Numpy.div_scalar (L1C <$> obs) f1) (Numpy.div_scalar (L2C <$> obs) f2)))
  = residual f1 f2 <$> obs.
Proof.
  induction obs as [|r obs IH].
  - reflexivity.
  - unfold Numpy.sub, Numpy.scalar_mul, Numpy.div_scalar in *.
    cbn [fmap list_fmap zip_with]. rewrite IH. reflexivity.
Qed.

(** The object after [correct_ambiguities], field by field. *)
Lemma correct_ambiguities_Ok (c : Connection F) (f1 f2 : F) (obs : list (Row F)) :
  frequencies c = Ok (f1, f2) → observations c = Ok obs →
  correct_ambiguities c =
    Ok (mkConnection (scenario c) (station c) (prn c) (idx_start c) (idx_end c)
          (tick_start c) (tick_end c) (missing_ticks c) (n_chan1 c) (n_chan2 c)
          (Some (np_mean (residual f1 f2 <$> obs)))
          (Some (np_std (residual f1 f2 <$> obs)))).
Proof.
  intros Hf Hobs. unfold correct_ambiguities, _correct_ambiguities_avg, column.
  rewrite Hf, Hobs. cbn [mbind result_bind bind].
  change (List.map ?f obs) with (f <$> obs).
  rewrite difference_rows. reflexivity.
Qed.

(** It succeeds only when the frequencies are known, and then leaves
    everything but the two correction fields alone. *)
Lemma correct_ambiguities_inv (c c' : Connection F) :
  correct_ambiguities c = Ok c' →
  ∃ f1 f2 obs,
    frequencies c = Ok (f1, f2) ∧ observations c = Ok obs ∧
    c' = mkConnection (scenario c) (station c) (prn c) (idx_start c) (idx_end c)
           (tick_start c) (tick_end c) (missing_ticks c) (n_chan1 c) (n_chan2 c)
           (Some (np_mean (residual f1 f2 <$> obs)))
           (Some (np_std (residual f1 f2 <$> obs))).
Proof.
  intros Hc. destruct (frequencies c) as [[f1 f2]|e] eqn:Hf.
  - destruct (observations c) as [obs|e] eqn:Hobs.
    + exists f1, f2, obs. repeat split.
      rewrite (correct_ambiguities_Ok c f1 f2 obs Hf Hobs) in Hc.
      inversion Hc. reflexivity.
    + unfold frequencies in Hf. rewrite Hobs in Hf. discriminate Hf.
  - unfold correct_ambiguities, _correct_ambiguities_avg in Hc.
    rewrite Hf in Hc. discriminate Hc.
Qed.

Lemma correct_ambiguities_describes (c c' : Connection F) (obs : list (Row F)) :
  correct_ambiguities c = Ok c' →
  observations c' = observations c ∧ (describes c obs → describes c' obs) ∧
  tick_start c' = tick_start c ∧ tick_end c' = tick_end c ∧
  missing_ticks c' = missing_ticks c.
Proof.
  intros Hc. apply correct_ambiguities_inv in Hc as (f1 & f2 & obs' & _ & _ & ->).
  split; [reflexivity|]. split; [|repeat split; reflexivity].
  intros Hd. exact Hd.
Qed.
End correction_facts.

(** C3.  Take a connection as its constructor leaves it, or as
    [correct_ambiguities] leaves it afterwards, over an index range
    [0 <= idx_start <= idx_end], whose observation rows have strictly
    increasing ticks free of [int32] overflow.  For every tick of
    [[tick_start, tick_end]] that is not missing, [tick_idx] answers an
    index, and the row of the observation slice at that index carries the
    queried tick. *)
Theorem tick_idx_roundtrip `{Float64 F} (scn : Scenario F) (st pr : string) (i j : Z)
    (c0 c : Connection F) (obs : list (Row F)) (t : Z) :
  (0 ≤ i ≤ j)%Z →
  Connection_init scn st pr i j = Ok c0 →
  c = c0 ∨ correct_ambiguities c0 = Ok c →
  observations c = Ok obs →
  Sorted Z.lt (tick <$> obs) →
  i4_ticks (tick <$> obs) →
  (tick_start c ≤ t ≤ tick_end c)%Z →
  t ∉ missing_ticks c →
  ∃ idx row, tick_idx c t = Some idx ∧ getitem obs idx = Ok row ∧ tick row = t.
Proof.
  intros Hij Hinit Hc Hobs Hsorted Hcol Hrange Hnot.
  destruct (Connection_init_describes scn st pr i j c0 Hij Hinit) as (obs0 & Hobs0 & Hd0).
  apply (describes_roundtrip c obs t); try assumption.
  destruct Hc as [->|Hc].
  - rewrite Hobs0 in Hobs. inversion Hobs; subst obs0. exact (Hd0 Hcol).
  - destruct (correct_ambiguities_describes c0 c obs0 Hc) as (Hsame & Hd & _).
    rewrite Hsame, Hobs0 in Hobs. inversion Hobs; subst obs0. apply Hd, Hd0, Hcol.
Qed.

(** The round trip on the gapped connection, at tick 103. *)
Lemma tick_idx_roundtrip_witness :
  ∃ idx row,
    tick_idx Binary64.gapped_connection 103 = Some idx ∧
    getitem (Binary64.blank_row <$> [100; 101; 103; 104]%Z) idx = Ok row ∧
    tick row = 103%Z.
Proof.
  apply (tick_idx_roundtrip Binary64.gapped_scenario "STA1" "G01" 0 3
           Binary64.gapped_connection Binary64.gapped_connection).
  - lia.
  - vm_compute. reflexivity.
  - left. reflexivity.
  - vm_compute. reflexivity.
  - repeat constructor.
  - apply i4_ticks_within. repeat constructor; simpl; lia.
  - simpl. lia.
  - simpl. rewrite elem_of_singleton. lia.
Defined.

(** C3 as stated fails without the index range.  The constructor takes
    [idx_end = -1] for the last row of the station array, while the
    observation slice [[0 : idx_end + 1]] is then empty: the connection
    covers the ticks 100 to 104, none of them is missing, [tick_idx]
    answers index 0 for tick 100, and the empty slice has no row there. *)
Lemma tick_idx_roundtrip_index_counterexample :
  let c := mkConnection Binary64.gapped_scenario "STA1" "G01" 0 (-1) 100 104 ∅
             None None None None in
  Connection_init Binary64.gapped_scenario "STA1" "G01" 0 (-1) = Ok c ∧
  observations c = Ok [] ∧
  Sorted Z.lt (tick <$> ([] : list (Row Binary64.float))) ∧
  (tick_start c ≤ 100 ≤ tick_end c)%Z ∧
  (100%Z ∉ missing_ticks c) ∧
  tick_idx c 100 = Some 0%Z ∧
  getitem ([] : list (Row Binary64.float)) 0 = Raise IndexError.
Proof.
  intros c. split; [vm_compute; reflexivity|]. split; [vm_compute; reflexivity|].
  split; [constructor|]. split; [simpl; lia|]. split; [apply not_elem_of_empty|].
  split; reflexivity.
Qed.

(** C6.  For a connection with frequencies [(f1, f2)],
    [correct_ambiguities] returns, and sets [offset] to the mean and
    [offset_error] to the standard deviation of the per-sample residuals
    [(C2C - C1C) - C * (L1C / f1 - L2C / f2)], with no further change of
    sign. *)
Theorem correct_ambiguities_spec `{Float64 F} (c : Connection F) (f1 f2 : F)
    (obs : list (Row F)) :
  frequencies c = Ok (f1, f2) →
  observations c = Ok obs →
  ∃ c', correct_ambiguities c = Ok c' ∧
        offset c' = Some (np_mean (residual f1 f2 <$> obs)) ∧
        offset_error c' = Some (np_std (residual f1 f2 <$> obs)).
Proof.
  intros Hf Hobs. eexists. split.
  - apply (correct_ambiguities_Ok c f1 f2 obs Hf Hobs).
  - cbn [offset offset_error]. repeat split.
Qed.

(** Two samples of a GPS satellite, corrected. *)
Lemma correct_ambiguities_spec_witness :
  let rows := [Binary64.meas_row 7 (Binary64.lit 20000000) (Binary64.lit 20000005)
                 (Binary64.lit 105000000) (Binary64.lit 81800000);
               Binary64.meas_row 8 (Binary64.lit 20000100) (Binary64.lit 20000107)
                 (Binary64.lit 105000500) (Binary64.lit 81800400)] in
  let c := mkConnection (Binary64.one_pair_scenario rows) "STA1" "G01" 0 1 7 8 ∅
             None None None None in
  let f1 := Binary64.lit 1575420000 in
  let f2 := Binary64.lit 1227600000 in
  ∃ c', correct_ambiguities c = Ok c' ∧
        offset c' = Some (np_mean (residual f1 f2 <$> rows)) ∧
        offset_error c' = Some (np_std (residual f1 f2 <$> rows)).
Proof.
  intros rows c f1 f2.
  apply (correct_ambiguities_spec c f1 f2 rows).
  - vm_compute. reflexivity.
  - vm_compute. reflexivity.
Defined.

(** C5.  [carrier_correction_meters] returns
    [C * (n_chan2 / f2 - n_chan1 / f1)] when both integer ambiguities are
    set (the frequencies of the connection being [(f1, f2)], neither of
    them zero); otherwise it returns [offset] when that is set; and when
    neither is available it raises [AssertionError].  With both
    ambiguities set it fails in two cases only: the frequency lookup
    fails, or a frequency is zero and the division raises
    [ZeroDivisionError]. *)
Theorem carrier_correction_meters_spec `{Float64 F} (c : Connection F) :
  (∀ n1 n2 f1 f2,
      n_chan1 c = Some n1 → n_chan2 c = Some n2 → frequencies c = Ok (f1, f2) →
      (feq_zero f1 = false → feq_zero f2 = false →
       carrier_correction_meters c
       = Ok (fmul SPEED_OF_LIGHT (fsub (fdiv n2 f2) (fdiv n1 f1)))) ∧
      (feq_zero f1 = true ∨ feq_zero f2 = true →
       carrier_correction_meters c = Raise ZeroDivisionError)) ∧
  (∀ o,
      n_chan1 c = None ∨ n_chan2 c = None → offset c = Some o →
      carrier_correction_meters c = Ok o) ∧
  (n_chan1 c = None ∨ n_chan2 c = None → offset c = None →
   carrier_correction_meters c = Raise AssertionError) ∧
  (∀ n1 n2 e,
      n_chan1 c = Some n1 → n_chan2 c = Some n2 → frequencies c = Raise e →
      carrier_correction_meters c = Raise e).
Proof.
  unfold carrier_correction_meters. split; [|split; [|split]].
  - intros n1 n2 f1 f2 -> -> ->. cbn [mbind result_bind bind]. unfold Numpy.truediv.
    split.
    + intros -> ->. reflexivity.
    + intros Hzero. destruct (feq_zero f2); [reflexivity|].
      destruct Hzero as [->|Hzero]; [reflexivity|discriminate Hzero].
  - intros o Hn ->. destruct Hn as [-> | ->]; [reflexivity|].
    destruct (n_chan1 c); reflexivity.
  - intros Hn ->. destruct Hn as [-> | ->]; [reflexivity|].
    destruct (n_chan1 c); reflexivity.
  - intros n1 n2 e -> -> ->. reflexivity.
Qed.

(** The three correction states, and a frequency of 0.0, on concrete
    connections. *)
Lemma carrier_correction_meters_spec_witness :
  carrier_correction_meters Binary64.con_integer
  = Ok (fmul SPEED_OF_LIGHT
          (fsub (fdiv (Binary64.lit 5) (Binary64.lit 1227600000))
                (fdiv (Binary64.lit 3) (Binary64.lit 1575420000)))) ∧
  carrier_correction_meters Binary64.con_offset = Ok (Binary64.lit 2) ∧
  carrier_correction_meters Binary64.con_5 = Raise AssertionError ∧
  carrier_correction_meters Samples.zero_frequency_connection = Raise ZeroDivisionError.
Proof.
  split; [|split; [|split]].
  - apply (proj1 (proj1 (carrier_correction_meters_spec Binary64.con_integer)
                    (Binary64.lit 3) (Binary64.lit 5)
                    (Binary64.lit 1575420000) (Binary64.lit 1227600000)
                    eq_refl eq_refl eq_refl)).
    + vm_compute. reflexivity.
    + vm_compute. reflexivity.
  - apply (proj1 (proj2 (carrier_correction_meters_spec Binary64.con_offset))).
    + right. reflexivity.
    + reflexivity.
  - apply (proj1 (proj2 (proj2 (carrier_correction_meters_spec Binary64.con_5)))).
    + left. reflexivity.
    + reflexivity.
  - apply (proj2 (proj1 (carrier_correction_meters_spec Samples.zero_frequency_connection)
                    (Binary64.lit 3) (Binary64.lit 5)
                    (Binary64.lit 1575420000) PrimFloat.zero
                    eq_refl eq_refl eq_refl)).
    right. vm_compute. reflexivity.
Defined.

(** ** ConnTickMap.__getitem__ *)

Section conn_getitem_facts.
Local Open Scope Z_scope.
Context {F : Type}.

Lemma contains_range (con : Connection F) (t : Z) :
  contains con t = true ↔ tick_start con ≤ t ≤ tick_end con.
Proof.
  unfold contains. rewrite andb_true_iff, !bool_decide_eq_true. tauto.
Qed.

(** The scan answers the connection at the first position whose range
    holds the tick. *)
Lemma conn_getitem_Ok (m : list (Connection F)) (t : Z) (con : Connection F) :
  conn_getitem m t = Ok con ↔
  ∃ k : nat, m !! k = Some con ∧ contains con t = true ∧
             ∀ (k' : nat) con', (k' < k)%nat → m !! k' = Some con' → contains con' t = false.
Proof.
  induction m as [|c m IH]; simpl.
  - split; [discriminate|]. intros (k & Hk & _). rewrite lookup_nil in Hk. discriminate.
  - destruct (contains c t) eqn:Hc.
    + split.
      * intros Hok. inversion Hok; subst con. exists 0%nat. repeat split; [exact Hc|].
        intros k' con' Hlt. lia.
      * intros (k & Hk & Hin & Hfirst). destruct k as [|k].
        -- simpl in Hk. congruence.
        -- specialize (Hfirst 0%nat c ltac:(lia) eq_refl). congruence.
    + rewrite IH. split.
      * intros (k & Hk & Hin & Hfirst). exists (S k). repeat split; [exact Hk|exact Hin|].
        intros [|k'] con' Hlt Hk'.
        -- simpl in Hk'. congruence.
        -- apply (Hfirst k'); [lia|exact Hk'].
      * intros (k & Hk & Hin & Hfirst). destruct k as [|k].
        -- simpl in Hk. congruence.
        -- exists k. repeat split; [exact Hk|exact Hin|].
           intros k' con' Hlt Hk'. apply (Hfirst (S k')); [lia|exact Hk'].
Qed.

Lemma conn_getitem_Raise (m : list (Connection F)) (t : Z) (e : exn) :
  conn_getitem m t = Raise e ↔
  e = KeyError ∧ ∀ con, con ∈ m → contains con t = false.
Proof.
  induction m as [|c m IH]; simpl.
  - split.
    + intros Hr. inversion Hr. split; [reflexivity|]. intros con Hin.
      apply elem_of_nil in Hin. contradiction.
    + intros [-> _]. reflexivity.
  - destruct (contains c t) eqn:Hc.
    + split; [discriminate|]. intros [_ Hnone].
      specialize (Hnone c ltac:(left)). congruence.
    + rewrite IH. split; intros [He Hnone]; (split; [exact He|]).
      * intros con Hin. apply elem_of_cons in Hin as [->|Hin]; [exact Hc|apply Hnone, Hin].
      * intros con Hin. apply Hnone. right. exact Hin.
Qed.
End conn_getitem_facts.

(** C8.  [ConnTickMap.__getitem__] returns the first member connection
    whose inclusive range [[tick_start, tick_end]] holds the tick, and
    raises [KeyError] (and nothing else) exactly when no member
    connection's range holds it.  Membership is
    [tick_start <= tick <= tick_end] and does not look at the missing
    ticks: tick 102 belongs to the gapped connection. *)
Theorem conn_getitem_spec {F : Type} (m : list (Connection F)) (t : Z) :
  (∀ con, conn_getitem m t = Ok con ↔
          ∃ k : nat, m !! k = Some con ∧ (tick_start con ≤ t ≤ tick_end con)%Z ∧
            ∀ (k' : nat) con', (k' < k)%nat → m !! k' = Some con' →
                               ¬ (tick_start con' ≤ t ≤ tick_end con')%Z) ∧
  (∀ e, conn_getitem m t = Raise e ↔
        e = KeyError ∧ ∀ con, con ∈ m → ¬ (tick_start con ≤ t ≤ tick_end con)%Z) ∧
  (∀ con : Connection F,
      contains con t = true ↔ (tick_start con ≤ t ≤ tick_end con)%Z) ∧
  (102%Z ∈ missing_ticks Binary64.gapped_connection ∧
   contains Binary64.gapped_connection 102 = true).
Proof.
  assert (∀ con : Connection F,
             contains con t = false ↔ ¬ (tick_start con ≤ t ≤ tick_end con)%Z) as Hfalse.
  { intros con. rewrite <- contains_range. destruct (contains con t); split; congruence. }
  split; [|split; [|split]].
  - intros con. rewrite conn_getitem_Ok. split.
    + intros (k & Hk & Hin & Hfirst). exists k. repeat split; try apply contains_range, Hin.
      * exact Hk.
      * intros k' con' Hlt Hk'. apply Hfalse. apply (Hfirst k' con' Hlt Hk').
    + intros (k & Hk & Hin & Hfirst). exists k. repeat split.
      * exact Hk.
      * apply contains_range. exact Hin.
      * intros k' con' Hlt Hk'. apply Hfalse. apply (Hfirst k' con' Hlt Hk').
  - intros e. rewrite conn_getitem_Raise. split; intros [He Hnone]; (split; [exact He|]).
    + intros con Hin. apply Hfalse, Hnone, Hin.
    + intros con Hin. apply Hfalse, Hnone, Hin.
  - intros con. apply contains_range.
  - split; [apply elem_of_singleton; reflexivity | reflexivity].
Qed.

(** Lookups in a map of two connections: a missing tick of the first, a
    tick of the second, a tick of neither. *)
Lemma conn_getitem_spec_witness :
  conn_getitem [Binary64.gapped_connection; Binary64.con_33] 102
  = Ok Binary64.gapped_connection ∧
  conn_getitem [Binary64.gapped_connection; Binary64.con_33] 30 = Ok Binary64.con_33 ∧
  conn_getitem [Binary64.gapped_connection; Binary64.con_33] 500 = Raise KeyError.
Proof.
  split; [|split].
  - apply (proj1 (conn_getitem_spec _ 102%Z)). exists 0%nat.
    split; [reflexivity|]. split; [simpl; lia|]. intros k' con' Hlt. lia.
  - apply (proj1 (conn_getitem_spec _ 30%Z)). exists 1%nat.
    split; [reflexivity|]. split; [simpl; lia|].
    intros [|k'] con' Hlt Hk'; [|lia].
    inversion Hk'; subst con'. simpl. lia.
  - apply (proj1 (proj2 (conn_getitem_spec _ 500%Z))).
    split; [reflexivity|]. intros con Hin.
    apply elem_of_cons in Hin as [->|Hin]; [simpl; lia|].
    apply list_elem_of_singleton in Hin as ->. simpl. lia.
Defined.


(** ** SparseList.__getitem__ *)

Section sparse_getitem_facts.
Local Open Scope Z_scope.
Context {D : Type}.
Implicit Types (l : list (Z * Z * list D * (Z → option Z))) (dflt : D) (t : Z).

Lemma scan_cons dflt x l t :
  scan dflt (x :: l) t =
  if decide (in_range x.1.1 t) then resolve dflt x t else scan dflt l t.
Proof.
  destruct x as [[r d] f]. unfold resolve, in_range. simpl.
  destruct (decide (r.1 ≤ t ≤ r.2)) as [Hin|Hout].
  - rewrite !bool_decide_eq_true_2 by lia. reflexivity.
  - destruct (bool_decide (r.1 ≤ t)) eqn:H1; [|reflexivity].
    rewrite bool_decide_eq_false_2; [reflexivity|].
    apply bool_decide_eq_true in H1. lia.
Qed.

Lemma scan_first dflt l t (k : nat) x :
  l !! k = Some x → in_range x.1.1 t →
  (∀ (k' : nat) x', (k' < k)%nat → l !! k' = Some x' → ¬ in_range x'.1.1 t) →
  scan dflt l t = resolve dflt x t.
Proof.
  revert k. induction l as [|y l IH]; intros k Hk Hin Hfirst.
  - rewrite lookup_nil in Hk. discriminate.
  - rewrite scan_cons. destruct k as [|k].
    + simpl in Hk. inversion Hk; subst y. rewrite decide_True by exact Hin. reflexivity.
    + rewrite decide_False by (apply (Hfirst 0%nat y); [lia|reflexivity]).
      apply (IH k Hk Hin). intros k' x' Hlt Hk'. apply (Hfirst (S k')); [lia|exact Hk'].
Qed.

Lemma scan_none dflt l t :
  (∀ x, x ∈ l → ¬ in_range x.1.1 t) → scan dflt l t = Ok dflt.
Proof.
  induction l as [|y l IH]; intros Hnone.
  - reflexivity.
  - rewrite scan_cons, decide_False by (apply Hnone; left).
    apply IH. intros x Hx. apply Hnone. right. exact Hx.
Qed.

(** When the triples holding the tick are all the same, any of them
    decides the answer. *)
Lemma scan_member dflt l t x :
  (∀ y z, y ∈ l → z ∈ l → in_range y.1.1 t → in_range z.1.1 t → y = z) →
  x ∈ l → in_range x.1.1 t → scan dflt l t = resolve dflt x t.
Proof.
  induction l as [|y l IH]; intros Huniq Hx Hin.
  - apply elem_of_nil in Hx. contradiction.
  - rewrite scan_cons. destruct (decide (in_range y.1.1 t)) as [Hy|Hy].
    + rewrite (Huniq y x); [reflexivity|left|exact Hx|exact Hy|exact Hin].
    + apply elem_of_cons in Hx as [->|Hx]; [contradiction|].
      apply IH; [|exact Hx|exact Hin].
      intros y' z' Hy' Hz'. apply Huniq; right; assumption.
Qed.

Lemma holder_or_none l t :
  (∃ x, x ∈ l ∧ in_range x.1.1 t) ∨ (∀ x, x ∈ l → ¬ in_range x.1.1 t).
Proof.
  induction l as [|y l [(x & Hx & Hin)|Hnone]].
  - right. intros x Hx. apply elem_of_nil in Hx. contradiction.
  - left. exists x. split; [right|]; assumption.
  - destruct (decide (in_range y.1.1 t)) as [Hy|Hy].
    + left. exists y. split; [left|exact Hy].
    + right. intros x Hx. apply elem_of_cons in Hx as [->|Hx]; [exact Hy|apply Hnone, Hx].
Qed.

Lemma non_overlapping_member l t y z :
  non_overlapping l → y ∈ l → z ∈ l → in_range y.1.1 t → in_range z.1.1 t → y = z.
Proof.
  intros Hno Hy Hz Hiny Hinz.
  apply list_elem_of_lookup in Hy as [i Hi]. apply list_elem_of_lookup in Hz as [j Hj].
  pose proof (Hno i j y z t Hi Hj Hiny Hinz) as ->. congruence.
Qed.

(** Reordering non-overlapping triples does not change any answer. *)
Lemma scan_permutation dflt l l' t :
  non_overlapping l → l' ≡ₚ l → scan dflt l' t = scan dflt l t.
Proof.
  intros Hno Hperm.
  assert (∀ y z, y ∈ l → z ∈ l → in_range y.1.1 t → in_range z.1.1 t → y = z) as Huniq.
  { intros y z. apply non_overlapping_member. exact Hno. }
  destruct (holder_or_none l t) as [(x & Hx & Hin)|Hnone].
  - rewrite (scan_member dflt l t x Huniq Hx Hin).
    apply scan_member; [|rewrite Hperm; exact Hx|exact Hin].
    intros y z Hy Hz. apply Huniq; rewrite <- Hperm; assumption.
  - rewrite (scan_none dflt l t Hnone). apply scan_none.
    intros x Hx. apply Hnone. rewrite <- Hperm. exact Hx.
Qed.
End sparse_getitem_facts.

(** C4.  [SparseList.__getitem__] goes through the zipped
    (range, data, lookup) triples in order.  At the first triple whose
    inclusive range holds the tick it answers [data[lookup(tick)]], or the
    default when the lookup answers [None]; when no range holds the tick it
    answers the default.  When the ranges do not overlap, two sparse lists
    with the same default and the same triples in any order answer alike. *)
Theorem sparse_getitem_spec {D : Type} (sl : SparseList D) (t : Z) :
  let triples := zip3 (ranges sl) (data sl) (tick_lookup sl) in
  (∀ (k : nat) r d f,
      triples !! k = Some (r, d, f) → (r.1 ≤ t ≤ r.2)%Z →
      (∀ (k' : nat) r' d' f', (k' < k)%nat → triples !! k' = Some (r', d', f') →
                              ¬ (r'.1 ≤ t ≤ r'.2)%Z) →
      sparse_getitem sl t =
        match f t with
        | None => Ok (default sl)
        | Some idx => getitem d idx
        end) ∧
  ((∀ (k : nat) r d f, triples !! k = Some (r, d, f) → ¬ (r.1 ≤ t ≤ r.2)%Z) →
   sparse_getitem sl t = Ok (default sl)) ∧
  (∀ sl' : SparseList D,
      default sl' = default sl →
      zip3 (ranges sl') (data sl') (tick_lookup sl') ≡ₚ triples →
      non_overlapping triples →
      sparse_getitem sl' t = sparse_getitem sl t).
Proof.
  intros triples. unfold sparse_getitem. fold triples. split; [|split].
  - intros k r d f Hk Hin Hfirst.
    rewrite (scan_first (default sl) triples t k (r, d, f) Hk Hin); [reflexivity|].
    intros k' [[r' d'] f'] Hlt Hk'. apply (Hfirst k' r' d' f' Hlt Hk').
  - intros Hnone. apply scan_none. intros [[r d] f] Hx.
    apply list_elem_of_lookup in Hx as [k Hk]. apply (Hnone k r d f Hk).
  - intros sl' Hdflt Hperm Hno. rewrite Hdflt.
    apply scan_permutation; assumption.
Qed.

(** Two ranges given out of tick order: a present tick of each, a tick the
    second range's lookup reports missing, a tick outside both, and the
    same triples in tick order. *)
Lemma sparse_getitem_spec_witness :
  sparse_getitem Binary64.unsorted_sparse 11 = Ok (Binary64.lit 6) ∧
  sparse_getitem Binary64.unsorted_sparse 3 = Ok (Binary64.lit 3) ∧
  sparse_getitem Binary64.unsorted_sparse 2 = Ok PrimFloat.zero ∧
  sparse_getitem Binary64.unsorted_sparse 7 = Ok PrimFloat.zero ∧
  sparse_getitem Binary64.sorted_sparse 11 = sparse_getitem Binary64.unsorted_sparse 11.
Proof.
  split; [|split; [|split; [|split]]].
  - destruct (sparse_getitem_spec Binary64.unsorted_sparse 11) as (Hfirst & _ & _).
    rewrite (Hfirst 0%nat (10, 12)%Z
               [Binary64.lit 5; Binary64.lit 6; Binary64.lit 7] (λ t, Some (t - 10)%Z)).
    + vm_compute. reflexivity.
    + reflexivity.
    + simpl. lia.
    + intros k' r' d' f' Hlt. lia.
  - destruct (sparse_getitem_spec Binary64.unsorted_sparse 3) as (Hfirst & _ & _).
    rewrite (Hfirst 1%nat (0, 3)%Z
               [Binary64.lit 1; Binary64.lit 2; Binary64.lit 3] Binary64.second_lookup).
    + vm_compute. reflexivity.
    + reflexivity.
    + simpl. lia.
    + intros [|k'] r' d' f' Hlt Hk'; [|lia].
      inversion Hk'; subst. simpl. lia.
  - destruct (sparse_getitem_spec Binary64.unsorted_sparse 2) as (Hfirst & _ & _).
    rewrite (Hfirst 1%nat (0, 3)%Z
               [Binary64.lit 1; Binary64.lit 2; Binary64.lit 3] Binary64.second_lookup).
    + vm_compute. reflexivity.
    + reflexivity.
    + simpl. lia.
    + intros [|k'] r' d' f' Hlt Hk'; [|lia].
      inversion Hk'; subst. simpl. lia.
  - destruct (sparse_getitem_spec Binary64.unsorted_sparse 7) as (_ & Hnone & _).
    apply Hnone. intros [|[|k]] r d f Hk; inversion Hk; subst; simpl; lia.
  - destruct (sparse_getitem_spec Binary64.unsorted_sparse 11) as (_ & _ & Hperm).
    apply Hperm.
    + reflexivity.
    + apply perm_swap.
    + intros [|[|i]] [|[|j]] ti tj t Hi Hj; inversion Hi; inversion Hj; subst;
        unfold in_range; simpl; intros; first [reflexivity | lia].
Defined.


(** ** SparseList.__init__ and the views of ConnTickMap *)

Section sparse_init_facts.
Local Open Scope Z_scope.

Lemma foldl_max_bounds (xs : list Z) (x : Z) :
  (x ≤ foldl Z.max x xs ∧ ∀ y, y ∈ xs → y ≤ foldl Z.max x xs) ∧
  (foldl Z.max x xs = x ∨ foldl Z.max x xs ∈ xs).
Proof.
  revert x. induction xs as [|z xs IH]; intros x; simpl.
  - split; [split; [lia|]|left; reflexivity].
    intros y Hy. apply elem_of_nil in Hy. contradiction.
  - destruct (IH (Z.max x z)) as [[Hle Hub] Hat]. split; [split|].
    + lia.
    + intros y Hy. apply elem_of_cons in Hy as [->|Hy]; [lia|apply Hub, Hy].
    + destruct Hat as [Hat|Hat].
      * destruct (Z.max_spec x z) as [[_ Hm]|[_ Hm]].
        -- right. rewrite Hat, Hm. left.
        -- left. rewrite Hat, Hm. reflexivity.
      * right. right. exact Hat.
Qed.

(** [max] of a non-empty list is its greatest element. *)
Lemma py_max_Ok (xs : list Z) :
  xs ≠ [] → ∃ m, py_max xs = Ok m ∧ m ∈ xs ∧ ∀ y, y ∈ xs → y ≤ m.
Proof.
  destruct xs as [|x xs]; [congruence|]. intros _.
  exists (foldl Z.max x xs). split; [reflexivity|].
  destruct (foldl_max_bounds xs x) as [[Hle Hub] Hat]. split.
  - destruct Hat as [->|Hat]; [left|right; exact Hat].
  - intros y Hy. apply elem_of_cons in Hy as [->|Hy]; [exact Hle|apply Hub, Hy].
Qed.

Lemma SparseList_init_Ok {D : Type} (index_ranges : list (Z * Z)) (ds : list (list D))
    (ls : list (Z → option Z)) (dflt : D) :
  index_ranges ≠ [] →
  ∃ m, SparseList_init index_ranges ds ls dflt = Ok (mkSparseList index_ranges ds ls dflt m) ∧
       m ∈ snd <$> index_ranges ∧ ∀ r, r ∈ index_ranges → r.2 ≤ m.
Proof.
  intros Hne. destruct (py_max_Ok (snd <$> index_ranges)) as (m & Hm & Hin & Hub).
  - destruct index_ranges; [congruence|discriminate].
  - exists m. unfold SparseList_init. rewrite Hm. split; [reflexivity|]. split; [exact Hin|].
    intros r Hr. apply Hub. apply list_elem_of_fmap. exists r. split; [reflexivity|exact Hr].
Qed.
End sparse_init_facts.

Section views_facts.
Local Open Scope Z_scope.
Context `{Float64 F, TidExternals F}.

Lemma filtered_step_eq (rs : list (Z * Z)) (ds : list (list F))
    (ls : list (Z → option Z)) (con : Connection F) :
  filtered_step (rs, ds, ls) con =
  if bool_decide (idx_end con - idx_start con < BUTTER_MIN_LENGTH) then Ok (rs, ds, ls)
  else fv ← filtered_vtecs0 con;
       Ok (rs ++ [tick_range con], ds ++ [fv], ls ++ [tick_idx con]).
Proof.
  unfold filtered_step, filtered_vtecs0, tick_range.
  case_bool_decide; [reflexivity|].
  destruct (vtecs0 con); reflexivity.
Qed.

(** The loop of [get_filtered_vtecs], run from any three lists. *)
Lemma for_each_filtered_step (m : list (Connection F)) :
  ∀ (rs : list (Z * Z)) (ds : list (list F)) (ls : list (Z → option Z)),
    for_each filtered_step m (rs, ds, ls) =
    (ds' ← comprehension filtered_vtecs0 (long_enough m);
     Ok (rs ++ (tick_range <$> long_enough m), ds ++ ds',
         ls ++ (tick_idx <$> long_enough m))).
Proof.
  unfold long_enough.
  induction m as [|con m IH]; intros rs ds ls.
  - simpl. rewrite !app_nil_r. reflexivity.
  - cbn [for_each]. rewrite filtered_step_eq.
    case_bool_decide as Hshort.
    + rewrite filter_cons_False by (intros Hn; apply Hn, Hshort).
      cbn [mbind result_bind bind]. apply IH.
    + rewrite filter_cons_True by exact Hshort.
      cbn [comprehension].
      destruct (filtered_vtecs0 con) as [fv|e]; [|reflexivity].
      cbn [mbind result_bind bind]. rewrite IH.
      destruct (comprehension filtered_vtecs0 _) as [ds'|e]; [|reflexivity].
      cbn [mbind result_bind bind fmap list_fmap].
      rewrite <- !app_assoc. reflexivity.
Qed.

Lemma long_enough_nil (m : list (Connection F)) :
  (∀ con, con ∈ m → idx_end con - idx_start con < BUTTER_MIN_LENGTH) →
  long_enough m = [].
Proof.
  unfold long_enough. induction m as [|con m IH]; intros Hshort.
  - reflexivity.
  - rewrite filter_cons_False.
    + apply IH. intros con' Hcon'. apply Hshort. right. exact Hcon'.
    + intros Hlong. apply Hlong, Hshort. left.
Qed.

Lemma get_filtered_vtecs_unfold (m : list (Connection F)) :
  get_filtered_vtecs m =
  (ds ← comprehension filtered_vtecs0 (long_enough m);
   SparseList_init (tick_range <$> long_enough m) ds (tick_idx <$> long_enough m) fzero).
Proof.
  unfold get_filtered_vtecs. rewrite for_each_filtered_step.
  destruct (comprehension filtered_vtecs0 (long_enough m)); reflexivity.
Qed.
End views_facts.

(** C10.  [SparseList.__init__] computes [max] at once as the greatest
    range end, and [__len__] is one more; on an empty collection of ranges
    it raises ([ValueError], from [max]) instead of building an empty
    view.  Hence [get_filtered_vtecs] raises on a [ConnTickMap] whose
    connections are all below the minimum filtering length. *)
Theorem SparseList_init_needs_range `{Float64 F, TidExternals F} :
  (∀ (D : Type) (ds : list (list D)) (ls : list (Z → option Z)) (dflt : D),
      SparseList_init [] ds ls dflt = Raise ValueError) ∧
  (∀ (D : Type) (r : Z * Z) (rs : list (Z * Z)) (ds : list (list D))
     (ls : list (Z → option Z)) (dflt : D),
      ∃ sl, SparseList_init (r :: rs) ds ls dflt = Ok sl ∧
            ranges sl = r :: rs ∧
            len sl = (1 + max sl)%Z ∧
            (∃ r', r' ∈ r :: rs ∧ r'.2 = max sl) ∧
            (∀ r', r' ∈ r :: rs → (r'.2 ≤ max sl)%Z)) ∧
  (∀ m : list (Connection F),
      (∀ con, con ∈ m → (sample_count con < BUTTER_MIN_LENGTH)%Z) →
      get_filtered_vtecs m = Raise ValueError).
Proof.
  split; [|split].
  - intros D ds ls dflt. reflexivity.
  - intros D r rs ds ls dflt.
    destruct (SparseList_init_Ok (r :: rs) ds ls dflt) as (m & Hm & Hin & Hub);
      [discriminate|].
    eexists. split; [exact Hm|]. cbn [ranges max]. unfold len. cbn [max].
    repeat split.
    + lia.
    + apply list_elem_of_fmap in Hin as (r' & -> & Hr'). exists r'. split; [exact Hr'|reflexivity].
    + exact Hub.
  - intros m Hshort. rewrite get_filtered_vtecs_unfold.
    rewrite long_enough_nil; [reflexivity|].
    intros con Hcon. specialize (Hshort con Hcon).
    unfold sample_count in Hshort. lia.
Qed.

(** No ranges, one range, and a map whose only connection has five
    samples against a threshold of 27. *)
Lemma SparseList_init_needs_range_witness :
  SparseList_init [] [] [] PrimFloat.zero = Raise ValueError ∧
  (∃ sl, SparseList_init [(3, 9)%Z] [[PrimFloat.one]] [λ t, Some t] PrimFloat.zero = Ok sl ∧
         len sl = 10%Z) ∧
  @get_filtered_vtecs _ _ Binary64.stand_in_externals [Binary64.con_5] = Raise ValueError.
Proof.
  pose proof (@SparseList_init_needs_range _ _ Binary64.stand_in_externals)
    as (Hempty & Hsome & Hshort).
  split; [apply Hempty|]. split.
  - destruct (Hsome _ (3, 9)%Z [] [[PrimFloat.one]] [λ t, Some t] PrimFloat.zero)
      as (sl & Hsl & _ & Hlen & (r' & Hr' & Hmax) & _).
    exists sl. split; [exact Hsl|].
    apply list_elem_of_singleton in Hr' as ->. rewrite Hlen, <- Hmax. reflexivity.
  - apply Hshort. intros con Hin.
    apply list_elem_of_singleton in Hin as ->. reflexivity.
Defined.


(** ** get_vtecs and get_filtered_vtecs *)

Section filtered_facts.
Local Open Scope Z_scope.
Context `{Float64 F, TidExternals F}.

Lemma get_vtecs_unfold (m : list (Connection F)) :
  get_vtecs m =
  (ds ← comprehension vtecs0 m;
   SparseList_init (tick_range <$> m) ds (tick_idx <$> m) fzero).
Proof. reflexivity. Qed.

(** A connection is skipped when its last index is less than
    [BUTTER_MIN_LENGTH] away from its first, that is when it has at most
    [BUTTER_MIN_LENGTH] samples. *)
Lemma long_enough_iff (m : list (Connection F)) (con : Connection F) :
  con ∈ long_enough m ↔ con ∈ m ∧ BUTTER_MIN_LENGTH < sample_count con.
Proof.
  unfold long_enough, sample_count. rewrite list_elem_of_filter. split.
  - intros [Hlong Hin]. split; [exact Hin|lia].
  - intros [Hin Hlong]. split; [lia|exact Hin].
Qed.

(** A connection of exactly [BUTTER_MIN_LENGTH] samples is skipped,
    whatever the value of the constant. *)
Lemma exact_length_skipped (acc : list (Z * Z) * list (list F) * list (Z → option Z))
    (con : Connection F) :
  sample_count con = BUTTER_MIN_LENGTH → filtered_step acc con = Ok acc.
Proof.
  intros Hlen. destruct acc as [[rs ds] ls]. rewrite filtered_step_eq.
  rewrite bool_decide_eq_true_2; [reflexivity|].
  unfold sample_count in Hlen. lia.
Qed.

Lemma SparseList_init_fields {D : Type} (rs : list (Z * Z)) (ds : list (list D))
    (ls : list (Z → option Z)) (dflt : D) (sl : SparseList D) :
  SparseList_init rs ds ls dflt = Ok sl →
  ranges sl = rs ∧ data sl = ds ∧ tick_lookup sl = ls ∧ default sl = dflt.
Proof.
  unfold SparseList_init. intros Hinit.
  apply bind_Ok in Hinit as (mx & _ & Hinit). inversion Hinit. repeat split.
Qed.

Lemma view_Ok {D : Type} {A : Type} (f : A → result (list D)) (xs : list A)
    (rs : list (Z * Z)) (ls : list (Z → option Z)) (dflt : D) :
  (∀ sl, (ds ← comprehension f xs; SparseList_init rs ds ls dflt) = Ok sl →
         ranges sl = rs ∧ tick_lookup sl = ls ∧ default sl = dflt ∧
         comprehension f xs = Ok (data sl)) ∧
  (∀ ds, rs ≠ [] → comprehension f xs = Ok ds →
         ∃ sl, (ds ← comprehension f xs; SparseList_init rs ds ls dflt) = Ok sl).
Proof.
  split.
  - intros sl Hsl. apply bind_Ok in Hsl as (ds & Hds & Hinit).
    apply SparseList_init_fields in Hinit as (Hr & Hd & Hl & Hdf).
    rewrite Hd. repeat split; assumption.
  - intros ds Hne Hds. rewrite Hds. cbn [mbind result_bind bind].
    destruct (SparseList_init_Ok rs ds ls dflt Hne) as (mx & Hinit & _).
    eexists. exact Hinit.
Qed.
End filtered_facts.

(** C1, as the code has it.  [get_filtered_vtecs] leaves out exactly the
    member connections with [idx_end - idx_start < BUTTER_MIN_LENGTH],
    that is those of at most [BUTTER_MIN_LENGTH] samples: they add no
    range, no data and no lookup, and their VTEC values are not even
    computed.  [get_vtecs] builds its view over every member connection.
    Each view is returned whenever it has at least one range and the
    VTEC arrays it needs can be computed. *)
Theorem get_filtered_vtecs_spec `{Float64 F, TidExternals F} (m : list (Connection F)) :
  (∀ con, con ∈ long_enough m ↔ con ∈ m ∧ (BUTTER_MIN_LENGTH < sample_count con)%Z) ∧
  (∀ sl, get_filtered_vtecs m = Ok sl →
         ranges sl = tick_range <$> long_enough m ∧
         tick_lookup sl = tick_idx <$> long_enough m ∧
         default sl = fzero ∧
         comprehension filtered_vtecs0 (long_enough m) = Ok (data sl)) ∧
  (∀ ds, long_enough m ≠ [] →
         comprehension filtered_vtecs0 (long_enough m) = Ok ds →
         ∃ sl, get_filtered_vtecs m = Ok sl) ∧
  (∀ sl, get_vtecs m = Ok sl →
         ranges sl = tick_range <$> m ∧
         tick_lookup sl = tick_idx <$> m ∧
         default sl = fzero ∧
         comprehension vtecs0 m = Ok (data sl)) ∧
  (∀ ds, m ≠ [] → comprehension vtecs0 m = Ok ds → ∃ sl, get_vtecs m = Ok sl).
Proof.
  split; [apply long_enough_iff|].
  pose proof (view_Ok filtered_vtecs0 (long_enough m) (tick_range <$> long_enough m)
                (tick_idx <$> long_enough m) fzero) as [Hf1 Hf2].
  pose proof (view_Ok vtecs0 m (tick_range <$> m) (tick_idx <$> m) fzero) as [Hv1 Hv2].
  rewrite <- get_filtered_vtecs_unfold in Hf1, Hf2.
  rewrite <- get_vtecs_unfold in Hv1, Hv2.
  repeat split; try (apply Hf1; assumption); try (apply Hv1; assumption).
  - intros ds Hne Hds. apply (Hf2 ds); [|exact Hds].
    destruct (long_enough m); [congruence|discriminate].
  - intros ds Hne Hds. apply (Hv2 ds); [|exact Hds].
    destruct m; [congruence|discriminate].
Qed.

(** With a threshold of 27, the connection of 27 samples is left out of
    the filtered view and kept in the raw one. *)
Lemma get_filtered_vtecs_spec_witness :
  let E := Binary64.stand_in_externals in
  let m := [Binary64.con_27; Binary64.con_33] in
  (∃ sl, @get_filtered_vtecs _ _ E m = Ok sl ∧
         ranges sl = [(27, 59)%Z] ∧ tick_lookup sl = [tick_idx Binary64.con_33]) ∧
  (∃ sl, @get_vtecs _ _ E m = Ok sl ∧
         ranges sl = [(0, 26); (27, 59)]%Z ∧
         tick_lookup sl = [tick_idx Binary64.con_27; tick_idx Binary64.con_33]).
Proof.
  intros E m.
  destruct (@get_filtered_vtecs_spec _ _ E m) as (_ & Hf1 & Hf2 & Hv1 & Hv2).
  assert (@long_enough _ E m = [Binary64.con_33]) as Hlong by (vm_compute; reflexivity).
  split.
  - destruct (Hf2 [replicate 33 PrimFloat.one]) as [sl Hsl].
    + rewrite Hlong. discriminate.
    + rewrite Hlong. vm_compute. reflexivity.
    + exists sl. destruct (Hf1 sl Hsl) as (Hr & Hl & _).
      rewrite Hr, Hl, Hlong. split; [exact Hsl|]. split; reflexivity.
  - destruct (Hv2 [replicate 27 PrimFloat.one; replicate 33 PrimFloat.one]) as [sl Hsl].
    + discriminate.
    + vm_compute. reflexivity.
    + exists sl. destruct (Hv1 sl Hsl) as (Hr & Hl & _).
      rewrite Hr, Hl. split; [exact Hsl|]. split; reflexivity.
Defined.


(** C1 as stated fails: with a threshold of 27, a connection of exactly
    27 samples is not below the minimum length, yet the filtered view is
    built from the other connection alone. *)
Lemma get_filtered_vtecs_threshold_counterexample :
  let E := Binary64.stand_in_externals in
  let m := [Binary64.con_27; Binary64.con_33] in
  Connection_init Binary64.long_scenario "STA1" "G01" 0 26 = Ok Binary64.con_27 ∧
  Connection_init Binary64.long_scenario "STA1" "G01" 27 59 = Ok Binary64.con_33 ∧
  sample_count Binary64.con_27 = @BUTTER_MIN_LENGTH _ E ∧
  ¬ (sample_count Binary64.con_27 < @BUTTER_MIN_LENGTH _ E)%Z ∧
  ∃ sl, @get_filtered_vtecs _ _ E m = Ok sl ∧
        ranges sl = [(27, 59)%Z] ∧
        ranges sl ≠
          tick_range <$>
            filter (λ con, ¬ (sample_count con < @BUTTER_MIN_LENGTH _ E)%Z) m.
Proof.
  intros E m. split; [vm_compute; reflexivity|]. split; [vm_compute; reflexivity|].
  split; [reflexivity|]. split; [vm_compute; discriminate|].
  eexists. split; [vm_compute; reflexivity|]. split; [reflexivity|].
  vm_compute. discriminate.
Qed.

(** ** from_raw_obs *)

Section from_raw_obs_facts.
Context `{Float64 F}.

Lemma collect_lookup (d : gmap string (list (Row F))) (obs : GNSSMeasurement F) (sv : string) :
  collect d obs !! sv =
  if decide (m_prn obs = sv) then Some (entry_rows (d !! sv) ++ [_meas_to_tuple obs])
  else d !! sv.
Proof.
  unfold collect. destruct (d !! m_prn obs) as [l|] eqn:Hd.
  - rewrite lookup_alter. destruct (decide (m_prn obs = sv)) as [<-|Hne].
    + rewrite Hd. reflexivity.
    + reflexivity.
  - rewrite lookup_alter. destruct (decide (m_prn obs = sv)) as [<-|Hne].
    + rewrite lookup_insert_eq, Hd. reflexivity.
    + rewrite lookup_insert_ne by exact Hne. reflexivity.
Qed.

Lemma foldl_collect_lookup (l : list (GNSSMeasurement F)) :
  ∀ (d : gmap string (list (Row F))) (sv : string),
    foldl collect d l !! sv =
    extend (d !! sv) (_meas_to_tuple <$> filter (λ obs, m_prn obs = sv) l).
Proof.
  induction l as [|o l IH]; intros d sv.
  - reflexivity.
  - cbn [foldl]. rewrite IH, collect_lookup.
    destruct (decide (m_prn o = sv)) as [Heq|Hne].
    + rewrite filter_cons_True by exact Heq. cbn [fmap list_fmap extend].
      destruct (_meas_to_tuple <$> filter (λ obs, m_prn obs = sv) l) as [|r rs].
      * reflexivity.
      * cbn [extend entry_rows]. f_equal. rewrite <- app_assoc. reflexivity.
    + rewrite filter_cons_False by exact Hne. reflexivity.
Qed.

Lemma foldl_collect_concat (raw_obs : list (list (GNSSMeasurement F))) :
  ∀ d : gmap string (list (Row F)),
    foldl (λ d sat_obs, foldl collect d sat_obs) d raw_obs
    = foldl collect d (concat raw_obs).
Proof.
  induction raw_obs as [|sat_obs raw_obs IH]; intros d.
  - reflexivity.
  - cbn [foldl concat]. rewrite foldl_app. apply IH.
Qed.

Lemma from_raw_obs_lookup (raw_obs : list (list (GNSSMeasurement F))) (sv : string) :
  from_raw_obs raw_obs !! sv = normalise_bands <$> extend None (converted raw_obs sv).
Proof.
  unfold from_raw_obs, converted.
  rewrite lookup_fmap, foldl_collect_concat, foldl_collect_lookup, lookup_empty.
  reflexivity.
Qed.

Lemma all_isnan_Forall (rows : list (Row F)) :
  Numpy.all_isnan (C2C <$> rows) = true ↔ Forall (λ r, isnan (C2C r) = true) rows.
Proof.
  unfold Numpy.all_isnan. induction rows as [|r rows IH].
  - split; [constructor|reflexivity].
  - cbn [fmap list_fmap forallb]. rewrite andb_true_iff, Forall_cons, IH. reflexivity.
Qed.
End from_raw_obs_facts.

(** C9.  A satellite has an array after [from_raw_obs] exactly when the
    batch holds a measurement of it.  If every [C2C] value of the
    converted array is NaN, the array returned has the [C2P] values in
    its [C2C] column (and the former [C2C] values in [C2P], the other
    columns being untouched); otherwise the array is returned as
    converted. *)
Theorem from_raw_obs_band_swap `{Float64 F} (raw_obs : list (list (GNSSMeasurement F)))
    (sv : string) :
  let conv := converted raw_obs sv in
  (conv = [] → from_raw_obs raw_obs !! sv = None) ∧
  (conv ≠ [] →
   ∃ rows, from_raw_obs raw_obs !! sv = Some rows ∧
     (Forall (λ r, isnan (C2C r) = true) conv →
      C2C <$> rows = C2P <$> conv ∧ C2P <$> rows = C2C <$> conv ∧
      rows = swap_C2C_C2P <$> conv) ∧
     (¬ Forall (λ r, isnan (C2C r) = true) conv → rows = conv)).
Proof.
  intros conv. rewrite from_raw_obs_lookup. fold conv. split.
  - intros ->. reflexivity.
  - intros Hne. destruct conv as [|r rs] eqn:Hconv; [congruence|].
    cbn [extend entry_rows app fmap option_fmap option_map]. rewrite <- Hconv.
    eexists. split; [reflexivity|]. unfold normalise_bands. split.
    + intros Hall. apply all_isnan_Forall in Hall. rewrite Hall.
      repeat split; rewrite <- list_fmap_compose; reflexivity.
    + intros Hnot. destruct (Numpy.all_isnan (C2C <$> conv)) eqn:Hall; [|reflexivity].
      apply all_isnan_Forall in Hall. contradiction.
Qed.

(** G01 reported C2P only, so its C2C column is filled from C2P; G02
    reported both and is left as converted; G03 was never seen. *)
Lemma from_raw_obs_band_swap_witness :
  (∃ rows, from_raw_obs Binary64.mixed_batch !! "G01"%string = Some rows ∧
           C2C <$> rows = [Binary64.lit 2; Binary64.lit 6]) ∧
  (∃ rows, from_raw_obs Binary64.mixed_batch !! "G02"%string = Some rows ∧
           C2C <$> rows = [Binary64.lit 3] ∧ C2P <$> rows = [Binary64.lit 4]) ∧
  from_raw_obs Binary64.mixed_batch !! "G03"%string = None.
Proof.
  split; [|split].
  - destruct (from_raw_obs_band_swap Binary64.mixed_batch "G01") as [_ Hsome].
    destruct Hsome as (rows & Hrows & Hswap & _).
    + vm_compute. discriminate.
    + exists rows. split; [exact Hrows|].
      destruct Hswap as (Hc2c & _).
      * vm_compute. repeat constructor.
      * rewrite Hc2c. vm_compute. reflexivity.
  - destruct (from_raw_obs_band_swap Binary64.mixed_batch "G02") as [_ Hsome].
    destruct Hsome as (rows & Hrows & _ & Hkeep).
    + vm_compute. discriminate.
    + exists rows. split; [exact Hrows|].
      rewrite Hkeep.
      * vm_compute. split; reflexivity.
      * intros Hall. vm_compute in Hall. inversion Hall as [|? ? Hnan _]. discriminate Hnan.
  - apply (proj1 (from_raw_obs_band_swap Binary64.mixed_batch "G03")).
    vm_compute. reflexivity.
Defined.


(** ** ion_locs *)

Section ion_locs_facts.
Import Tec.
Local Open Scope R_scope.

(** [ion_locs] treats every satellite position on its own. *)
Lemma ion_locs_map (rec_pos : vec3) (sat_pos : list vec3) (ionh : R) :
  ion_locs rec_pos sat_pos ionh
  = (λ s, point_at rec_pos s (pierce_scale rec_pos s ionh)) <$> sat_pos.
Proof.
  unfold ion_locs. induction sat_pos as [|s sat_pos IH].
  - reflexivity.
  - cbn [fmap list_fmap zip_with]. rewrite IH. reflexivity.
Qed.

Lemma smallest_cases (x y : R) :
  (smallest x y = x ∨ smallest x y = y) ∧
  Rabs (smallest x y) <= Rabs x ∧ Rabs (smallest x y) <= Rabs y.
Proof.
  unfold smallest. destruct (Rlt_dec (Rabs x) (Rabs y)) as [Hlt|Hge].
  - split; [left; reflexivity|]. split; lra.
  - split; [right; reflexivity|]. split; lra.
Qed.

(** Both values computed by the code are roots of the quadratic. *)
Lemma roots_solve (a b c t : R) :
  a <> 0 → 0 <= b ^ 2 - 4 * a * c →
  t = - b / (2 * a) + sqrt (b ^ 2 - 4 * a * c) / (2 * a) ∨
  t = - b / (2 * a) - sqrt (b ^ 2 - 4 * a * c) / (2 * a) →
  a * t ^ 2 + b * t + c = 0.
Proof.
  intros Ha Hdisc Ht.
  pose proof (sqrt_sqrt _ Hdisc) as Hd.
  set (d := sqrt (b ^ 2 - 4 * a * c)) in *.
  assert (2 * a * t + b = d ∨ 2 * a * t + b = - d) as Hlin.
  { destruct Ht as [-> | ->]; [left|right]; field; exact Ha. }
  assert (4 * a * (a * t ^ 2 + b * t + c) = 0) as Hzero.
  { destruct Hlin as [Hlin|Hlin];
      replace (4 * a * (a * t ^ 2 + b * t + c))
        with ((2 * a * t + b) * (2 * a * t + b) - (b ^ 2 - 4 * a * c)) by ring;
      rewrite Hlin, <- Hd; ring. }
  apply Rmult_integral in Hzero as [Hzero|Hzero]; [lra|exact Hzero].
Qed.

(** The squared distance to the origin along the line, in terms of the
    quadratic. *)
Lemma norm2_point_at (rec_pos s : vec3) (ionh t : R) :
  norm2 (point_at rec_pos s t)
  = qa rec_pos s * t ^ 2 + qb rec_pos s * t + qc rec_pos ionh + ionh ^ 2.
Proof.
  destruct rec_pos as [[rx ry] rz], s as [[sx sy] sz].
  unfold norm2, point_at, qa, qb, qc, vadd, vmul, vsub, vsq, vsum. ring.
Qed.

Lemma norm2_sat (rec_pos s : vec3) (ionh : R) :
  norm2 s = qa rec_pos s + qb rec_pos s + qc rec_pos ionh + ionh ^ 2.
Proof.
  destruct rec_pos as [[rx ry] rz], s as [[sx sy] sz].
  unfold norm2, qa, qb, qc, vmul, vsub, vsq, vsum. ring.
Qed.

Lemma pow2_zero (x : R) : x ^ 2 = 0 → x = 0.
Proof.
  intros Hx. destruct (Req_dec x 0) as [Hz|Hnz]; [exact Hz|].
  exfalso. apply (pow_nonzero x 2 Hnz). exact Hx.
Qed.

(** A satellite off the receiver's horizon plane is not at the receiver. *)
Lemma qa_pos (rec_pos s : vec3) : qb rec_pos s <> 0 → 0 < qa rec_pos s.
Proof.
  destruct rec_pos as [[rx ry] rz], s as [[sx sy] sz].
  unfold qa, qb, vmul, vsub, vsq, vsum. intros Hb.
  pose proof (pow2_ge_0 (sx - rx)) as Hx. pose proof (pow2_ge_0 (sy - ry)) as Hy.
  pose proof (pow2_ge_0 (sz - rz)) as Hz.
  destruct (Req_dec ((sx - rx) ^ 2 + (sy - ry) ^ 2 + (sz - rz) ^ 2) 0) as [Hzero|Hne];
    [|lra].
  exfalso. apply Hb.
  assert ((sx - rx) ^ 2 = 0) as Hx0 by lra.
  assert ((sy - ry) ^ 2 = 0) as Hy0 by lra.
  assert ((sz - rz) ^ 2 = 0) as Hz0 by lra.
  apply pow2_zero in Hx0, Hy0, Hz0.
  rewrite Hx0, Hy0, Hz0. ring.
Qed.

(** With the receiver inside the shell, the satellite outside and above
    the receiver's horizon, the code picks the root in (0, 1). *)
Lemma near_root_between (a b c : R) :
  c < 0 → 0 < a + b + c → 0 < b → 0 < a →
  let x := - b / (2 * a) + sqrt (b ^ 2 - 4 * a * c) / (2 * a) in
  let y := - b / (2 * a) - sqrt (b ^ 2 - 4 * a * c) / (2 * a) in
  smallest x y = x ∧ 0 < x < 1.
Proof.
  intros Hc Hs Hb Ha x y.
  assert (0 <= b ^ 2 - 4 * a * c) as Hdisc by nra.
  pose proof (sqrt_sqrt _ Hdisc) as Hd.
  pose proof (sqrt_pos (b ^ 2 - 4 * a * c)) as Hd0.
  set (d := sqrt (b ^ 2 - 4 * a * c)) in *.
  assert (b < d) as Hbd by nra.
  assert (d < 2 * a + b) as Hd1 by nra.
  assert (x * (2 * a) = d - b) as Hx by (subst x; field; lra).
  assert (y * (2 * a) = - d - b) as Hy by (subst y; field; lra).
  assert (0 < x < 1) as Hx01 by (split; nra).
  assert (y < 0) as Hy0 by nra.
  split; [|exact Hx01].
  unfold smallest. destruct (Rlt_dec (Rabs x) (Rabs y)) as [Hlt|Hge]; [reflexivity|].
  exfalso. apply Hge.
  rewrite (Rabs_pos_eq x) by lra. rewrite (Rabs_left y) by exact Hy0. nra.
Qed.
End ion_locs_facts.

Section ion_locs_results.
Import Tec.
Local Open Scope R_scope.

(** A satellite straight through the Earth from the receiver: the root of
    smallest absolute value is the negative one. *)
Lemma antipodal_scale (r h : R) :
  0 < r < h →
  pierce_scale (r, 0, 0) (-2 * h, 0, 0) h = (r - h) / (2 * h + r) ∧
  0 <= discriminant (r, 0, 0) (-2 * h, 0, 0) h.
Proof.
  intros [Hr Hrh].
  assert (discriminant (r, 0, 0) (-2 * h, 0, 0) h = (2 * (2 * h + r) * h) ^ 2) as Hdisc.
  { unfold discriminant, qa, qb, qc, vmul, vsub, vsq, vsum. ring. }
  assert (0 < 2 * (2 * h + r) * h) as Hpos by nra.
  split; [|rewrite Hdisc; apply pow2_ge_0].
  unfold pierce_scale, root_plus, root_minus. rewrite Hdisc.
  rewrite sqrt_pow2 by lra.
  unfold qa, qb, vmul, vsub, vsq, vsum.
  replace (- (2 * ((-2 * h - r) * r + (0 - 0) * 0 + (0 - 0) * 0))
           / (2 * ((-2 * h - r) ^ 2 + (0 - 0) ^ 2 + (0 - 0) ^ 2))
           + 2 * (2 * h + r) * h / (2 * ((-2 * h - r) ^ 2 + (0 - 0) ^ 2 + (0 - 0) ^ 2)))
    with ((r + h) / (2 * h + r)) by (field; lra).
  replace (- (2 * ((-2 * h - r) * r + (0 - 0) * 0 + (0 - 0) * 0))
           / (2 * ((-2 * h - r) ^ 2 + (0 - 0) ^ 2 + (0 - 0) ^ 2))
           - 2 * (2 * h + r) * h / (2 * ((-2 * h - r) ^ 2 + (0 - 0) ^ 2 + (0 - 0) ^ 2)))
    with ((r - h) / (2 * h + r)) by (field; lra).
  assert (0 < / (2 * h + r)) as Hinv by (apply Rinv_0_lt_compat; lra).
  unfold smallest.
  destruct (Rlt_dec (Rabs ((r + h) / (2 * h + r))) (Rabs ((r - h) / (2 * h + r))))
    as [Hlt|Hge]; [|reflexivity].
  exfalso. unfold Rdiv in Hlt.
  rewrite (Rabs_pos_eq ((r + h) * / (2 * h + r))) in Hlt by nra.
  rewrite (Rabs_left ((r - h) * / (2 * h + r))) in Hlt by nra.
  nra.
Qed.

(** For a satellite on the receiver's horizon plane ([b = 0]) the two
    roots are opposite and tie in absolute value. *)
Lemma level_roots_tie (rec_pos s : vec3) (ionh : R) :
  qb rec_pos s = 0 →
  Rabs (root_minus rec_pos s ionh) = Rabs (root_plus rec_pos s ionh).
Proof.
  intros Hb. unfold root_plus, root_minus. rewrite Hb.
  replace (- 0 / (2 * qa rec_pos s)) with 0 by (unfold Rdiv; ring).
  unfold Rminus. rewrite !Rplus_0_l. apply Rabs_Ropp.
Qed.

(** C7, as the code has it.  For each satellite position apart from the
    receiver for which the quadratic [a t^2 + b t + c = 0] has a real
    solution, [ion_locs] returns the point [rec + (sat - rec) t] where
    [t] is, of the two roots, the one of smaller absolute value and, on a
    tie, the second root ([b_scaled - common]), chosen for this sample
    alone.  The point lies on the sphere of radius [ionh].
    When the receiver is inside the shell, the satellite beyond it and
    strictly above the receiver's horizon ([(sat - rec) . rec > 0]), the
    point is strictly between receiver and satellite. *)
Theorem ion_locs_spec (rec_pos : vec3) (sat_pos : list vec3) (ionh : R)
    (i : nat) (s : vec3) :
  sat_pos !! i = Some s →
  qa rec_pos s <> 0 →
  0 <= discriminant rec_pos s ionh →
  ∃ t : R,
    ion_locs rec_pos sat_pos ionh !! i = Some (point_at rec_pos s t) ∧
    (t = root_plus rec_pos s ionh ∨ t = root_minus rec_pos s ionh) ∧
    (Rabs (root_plus rec_pos s ionh) < Rabs (root_minus rec_pos s ionh) →
     t = root_plus rec_pos s ionh) ∧
    (Rabs (root_minus rec_pos s ionh) <= Rabs (root_plus rec_pos s ionh) →
     t = root_minus rec_pos s ionh) ∧
    Rabs t <= Rabs (root_plus rec_pos s ionh) ∧
    Rabs t <= Rabs (root_minus rec_pos s ionh) ∧
    qa rec_pos s * t ^ 2 + qb rec_pos s * t + qc rec_pos ionh = 0 ∧
    norm2 (point_at rec_pos s t) = ionh ^ 2 ∧
    (0 <= ionh → sqrt (norm2 (point_at rec_pos s t)) = ionh) ∧
    (norm2 rec_pos < ionh ^ 2 → ionh ^ 2 < norm2 s → 0 < qb rec_pos s → 0 < t < 1).
Proof.
  intros Hs Ha Hdisc. exists (pierce_scale rec_pos s ionh).
  destruct (smallest_cases (root_plus rec_pos s ionh) (root_minus rec_pos s ionh))
    as (Hcase & Hle1 & Hle2).
  fold (pierce_scale rec_pos s ionh) in Hcase, Hle1, Hle2.
  assert (qa rec_pos s * pierce_scale rec_pos s ionh ^ 2
          + qb rec_pos s * pierce_scale rec_pos s ionh + qc rec_pos ionh = 0) as Hroot.
  { apply roots_solve; [exact Ha|exact Hdisc|exact Hcase]. }
  assert (norm2 (point_at rec_pos s (pierce_scale rec_pos s ionh)) = ionh ^ 2) as Hnorm.
  { rewrite (norm2_point_at rec_pos s ionh), Hroot. ring. }
  repeat split; try assumption.
  - rewrite ion_locs_map, list_lookup_fmap, Hs. reflexivity.
  - intros Hnear. unfold pierce_scale, smallest.
    destruct (Rlt_dec (Rabs (root_plus rec_pos s ionh)) (Rabs (root_minus rec_pos s ionh)));
      [reflexivity|contradiction].
  - intros Hfar. unfold pierce_scale, smallest.
    destruct (Rlt_dec (Rabs (root_plus rec_pos s ionh)) (Rabs (root_minus rec_pos s ionh)));
      [lra|reflexivity].
  - intros Hionh. rewrite Hnorm. apply sqrt_pow2. exact Hionh.
  - pose proof (norm2_sat rec_pos s ionh) as Hsat.
    assert (0 < qa rec_pos s) as Hapos by (apply qa_pos; lra).
    apply (near_root_between (qa rec_pos s) (qb rec_pos s) (qc rec_pos ionh)) in Hapos
      as [Hpick Hbetween]; [| unfold qc, norm2 in *; lra | lra | lra].
    fold (discriminant rec_pos s ionh) in Hpick, Hbetween.
    fold (root_plus rec_pos s ionh) in Hpick, Hbetween.
    fold (root_minus rec_pos s ionh) in Hpick.
    unfold pierce_scale. rewrite Hpick. apply Hbetween.
  - pose proof (norm2_sat rec_pos s ionh) as Hsat.
    assert (0 < qa rec_pos s) as Hapos by (apply qa_pos; lra).
    apply (near_root_between (qa rec_pos s) (qb rec_pos s) (qc rec_pos ionh)) in Hapos
      as [Hpick Hbetween]; [| unfold qc, norm2 in *; lra | lra | lra].
    fold (discriminant rec_pos s ionh) in Hpick, Hbetween.
    fold (root_plus rec_pos s ionh) in Hpick, Hbetween.
    fold (root_minus rec_pos s ionh) in Hpick.
    unfold pierce_scale. rewrite Hpick. apply Hbetween.
Qed.

(** A receiver at distance 1, a shell of radius 2 and a satellite at
    distance 3 straight overhead: the pierce point is on the shell,
    strictly between the two.  For a satellite on the horizon plane of
    the same receiver the roots tie and the second one is taken. *)
Lemma ion_locs_spec_witness :
  let rec_pos := (1, 0, 0) in
  let s := (3, 0, 0) in
  let level := (1, 3, 0) in
  let ionh := 2 in
  (∃ t : R,
     ion_locs rec_pos [s] ionh !! 0%nat = Some (point_at rec_pos s t) ∧
     qa rec_pos s * t ^ 2 + qb rec_pos s * t + qc rec_pos ionh = 0 ∧
     sqrt (norm2 (point_at rec_pos s t)) = ionh ∧
     0 < t < 1) ∧
  (∃ t : R,
     ion_locs rec_pos [level] ionh !! 0%nat = Some (point_at rec_pos level t) ∧
     Rabs (root_plus rec_pos level ionh) = Rabs (root_minus rec_pos level ionh) ∧
     t = root_minus rec_pos level ionh).
Proof.
  intros rec_pos s level ionh. split.
  - destruct (ion_locs_spec rec_pos [s] ionh 0%nat s)
      as (t & Hpoint & _ & _ & _ & _ & _ & Hroot & _ & Hdist & Hbetween).
    + reflexivity.
    + unfold qa, vsub, vsq, vsum, rec_pos, s. lra.
    + unfold discriminant, qa, qb, qc, vmul, vsub, vsq, vsum, rec_pos, s, ionh. lra.
    + exists t. split; [exact Hpoint|split; [exact Hroot|split]].
      * apply Hdist. unfold ionh. lra.
      * apply Hbetween.
        -- unfold norm2, vsq, vsum, rec_pos, ionh. lra.
        -- unfold norm2, vsq, vsum, s, ionh. lra.
        -- unfold qb, vmul, vsub, vsum, rec_pos, s. lra.
  - assert (Rabs (root_minus rec_pos level ionh) = Rabs (root_plus rec_pos level ionh))
      as Htie.
    { apply level_roots_tie. unfold qb, vmul, vsub, vsum, rec_pos, level. lra. }
    destruct (ion_locs_spec rec_pos [level] ionh 0%nat level)
      as (t & Hpoint & _ & _ & Hsecond & _).
    + reflexivity.
    + unfold qa, vsub, vsq, vsum, rec_pos, level. lra.
    + unfold discriminant, qa, qb, qc, vmul, vsub, vsq, vsum, rec_pos, level, ionh. lra.
    + exists t. split; [exact Hpoint|]. split; [symmetry; exact Htie|].
      apply Hsecond. rewrite Htie. lra.
Defined.

(** C7 as stated fails for a satellite below the horizon.  With laika's
    Earth radius taken as 6378137 m and the default shell 350 km above, a
    receiver on the x axis and a satellite on the far side of the Earth,
    beyond the shell: the quadratic has real solutions, the returned
    point is on the shell, but its scale is negative, so it is not
    between receiver and satellite. *)
Lemma ion_locs_between_counterexample :
  let R_earth := 6378137 in
  let ionh := IONOSPHERE_H R_earth in
  let rec_pos := (R_earth, 0, 0) in
  let s := (-2 * ionh, 0, 0) in
  norm2 rec_pos = R_earth ^ 2 ∧
  ionh ^ 2 < norm2 s ∧
  0 <= discriminant rec_pos s ionh ∧
  ion_locs rec_pos [s] ionh = [point_at rec_pos s (pierce_scale rec_pos s ionh)] ∧
  norm2 (point_at rec_pos s (pierce_scale rec_pos s ionh)) = ionh ^ 2 ∧
  pierce_scale rec_pos s ionh = -350000 / 19834411 ∧
  ¬ (0 <= pierce_scale rec_pos s ionh <= 1).
Proof.
  intros R_earth ionh rec_pos s.
  assert (ionh = 6728137) as Hionh by (unfold ionh, IONOSPHERE_H, R_earth; lra).
  destruct (antipodal_scale R_earth ionh) as [Hscale Hdisc].
  { unfold R_earth. lra. }
  fold rec_pos in Hscale, Hdisc. fold s in Hscale, Hdisc.
  assert (pierce_scale rec_pos s ionh = -350000 / 19834411) as Hvalue.
  { rewrite Hscale, Hionh. unfold R_earth. field. }
  split; [unfold norm2, vsq, vsum, rec_pos; ring|].
  split; [unfold norm2, vsq, vsum, s; rewrite Hionh; lra|].
  split; [exact Hdisc|].
  split; [reflexivity|].
  split.
  - rewrite (norm2_point_at rec_pos s ionh).
    replace (qa rec_pos s * pierce_scale rec_pos s ionh ^ 2
             + qb rec_pos s * pierce_scale rec_pos s ionh + qc rec_pos ionh) with 0; [ring|].
    symmetry. apply roots_solve.
    + unfold qa, vsub, vsq, vsum, rec_pos, s. rewrite Hionh. unfold R_earth. lra.
    + exact Hdisc.
    + apply smallest_cases.
  - split; [exact Hvalue|]. rewrite Hvalue. lra.
Qed.
End ion_locs_results.

(* ===================================================================== *)
(** * Part III: further properties of the code                            *)
(* ===================================================================== *)

From stdpp Require Import sorting.

(** ** Tick columns and their gaps *)

Section column_facts.
Local Open Scope Z_scope.

Lemma sorted_strongly (l : list Z) : Sorted Z.lt l → StronglySorted Z.lt l.
Proof.
  apply Sorted.Sorted_StronglySorted. intros x y z Hxy Hyz. lia.
Qed.

Lemma sorted_above_head (x : Z) (rest : list Z) (y : Z) :
  Sorted Z.lt (x :: rest) → y ∈ rest → x < y.
Proof.
  intros Hs Hy. apply sorted_strongly in Hs.
  apply StronglySorted_inv in Hs as [_ Hall].
  rewrite Forall_forall in Hall. apply Hall, Hy.
Qed.

Lemma sorted_lookup_lt (l : list Z) :
  ∀ (i j : nat) (a b : Z),
    Sorted Z.lt l → l !! i = Some a → l !! j = Some b → (i < j)%nat → a < b.
Proof.
  induction l as [|x l IH]; intros i j a b Hs Hi Hj Hlt.
  - rewrite lookup_nil in Hi. discriminate.
  - destruct j as [|j]; [lia|]. destruct i as [|i].
    + simpl in Hi. inversion Hi; subst a.
      apply (sorted_above_head x l b Hs). apply list_elem_of_lookup. exists j. exact Hj.
    + apply Sorted_inv in Hs as [Hs _]. apply (IH i j a b Hs Hi Hj). lia.
Qed.

Lemma sorted_below_last (rest : list Z) :
  ∀ (x te y : Z),
    Sorted Z.lt (x :: rest) → last (x :: rest) = Some te → y ∈ x :: rest → y ≤ te.
Proof.
  induction rest as [|z rest IH]; intros x te y Hs Hlast Hy.
  - simpl in Hlast. inversion Hlast; subst te.
    apply list_elem_of_singleton in Hy. lia.
  - rewrite last_cons_cons in Hlast. pose proof Hs as Hs0.
    apply Sorted_inv in Hs as [Hs Hhd]. apply HdRel_inv in Hhd.
    apply elem_of_cons in Hy as [->|Hy].
    + pose proof (IH z te z Hs Hlast ltac:(left)). lia.
    + apply (IH z te y Hs Hlast Hy).
Qed.

(** A gap tick is no entry of the column. *)
Lemma gaps_not_member (l : list Z) (m : Z) :
  Sorted Z.lt l → m ∈ gaps l → m ∉ l.
Proof.
  induction l as [|x l IH]; intros Hs Hm.
  - simpl in Hm. apply not_elem_of_empty in Hm. contradiction.
  - destruct l as [|y rest].
    + simpl in Hm. apply not_elem_of_empty in Hm. contradiction.
    + change (m ∈ set_range (x + 1) y ∪ gaps (y :: rest)) in Hm.
      pose proof Hs as Hs0. apply Sorted_inv in Hs as [Hs Hhd]. apply HdRel_inv in Hhd.
      intros Hin. apply elem_of_union in Hm as [Hm|Hm].
      * apply elem_of_set_range in Hm.
        apply elem_of_cons in Hin as [->|Hin]; [lia|].
        apply elem_of_cons in Hin as [->|Hin]; [lia|].
        pose proof (sorted_above_head y rest m Hs Hin). lia.
      * apply elem_of_cons in Hin as [->|Hin].
        -- pose proof (gaps_above_first y rest x Hs Hm). lia.
        -- apply (IH Hs Hm Hin).
Qed.

Lemma gaps_below_last (rest : list Z) :
  ∀ (x te m : Z),
    Sorted Z.lt (x :: rest) → last (x :: rest) = Some te → m ∈ gaps (x :: rest) → m < te.
Proof.
  induction rest as [|y rest IH]; intros x te m Hs Hlast Hm.
  - simpl in Hm. apply not_elem_of_empty in Hm. contradiction.
  - change (m ∈ set_range (x + 1) y ∪ gaps (y :: rest)) in Hm.
    rewrite last_cons_cons in Hlast.
    apply Sorted_inv in Hs as [Hs _].
    apply elem_of_union in Hm as [Hm|Hm].
    + apply elem_of_set_range in Hm.
      pose proof (sorted_below_last rest y te y Hs Hlast ltac:(left)). lia.
    + apply (IH y te m Hs Hlast Hm).
Qed.

(** Entries and gap ticks together fill the span of the column. *)
Lemma gaps_count (rest : list Z) :
  ∀ (x te : Z),
    Sorted Z.lt (x :: rest) → last (x :: rest) = Some te →
    Z.of_nat (length (x :: rest)) + Z.of_nat (size (gaps (x :: rest))) = te - x + 1.
Proof.
  induction rest as [|y rest IH]; intros x te Hs Hlast.
  - simpl in Hlast. inversion Hlast; subst te.
    change (gaps [x]) with (∅ : gset Z). rewrite size_empty. cbn [length]. lia.
  - change (gaps (x :: y :: rest)) with (set_range (x + 1) y ∪ gaps (y :: rest)).
    rewrite last_cons_cons in Hlast.
    apply Sorted_inv in Hs as [Hs Hhd]. apply HdRel_inv in Hhd.
    specialize (IH y te Hs Hlast).
    rewrite size_union.
    + rewrite size_set_range by lia. cbn [length] in *. lia.
    + intros m Hm1 Hm2. apply elem_of_set_range in Hm1.
      pose proof (gaps_above_first y rest m Hs Hm2). lia.
Qed.

Lemma StronglySorted_seqZ (m n : Z) : StronglySorted Z.lt (seqZ m n).
Proof.
  destruct (decide (0 ≤ n)) as [Hn|Hn]; [|rewrite seqZ_nil by lia; constructor].
  revert m. pattern n. apply natlike_ind; [| |exact Hn].
  - intros m. rewrite seqZ_nil by lia. constructor.
  - intros k Hk IH m. rewrite seqZ_cons by lia.
    replace (Z.pred (Z.succ k)) with k by lia. constructor; [apply IH|].
    apply Forall_forall. intros y Hy. apply elem_of_seqZ in Hy. lia.
Qed.

Lemma StronglySorted_filter_lt (P : Z → Prop) `{∀ x, Decision (P x)} (l : list Z) :
  StronglySorted Z.lt l → StronglySorted Z.lt (filter P l).
Proof.
  induction 1 as [|x l Hs IH Hall].
  - constructor.
  - destruct (decide (P x)) as [Hp|Hp].
    + rewrite filter_cons_True by exact Hp. constructor; [exact IH|].
      rewrite Forall_forall in *. intros y Hy.
      apply Hall. apply list_elem_of_filter in Hy as [_ Hy]. exact Hy.
    + rewrite filter_cons_False by exact Hp. exact IH.
Qed.

(** Dropping the gap ticks from the full span gives the column back. *)
Lemma span_without_gaps (x : Z) (rest : list Z) (te : Z) :
  Sorted Z.lt (x :: rest) → last (x :: rest) = Some te →
  filter (λ t, t ∉ gaps (x :: rest)) (seqZ x (te + 1 - x)) = x :: rest.
Proof.
  intros Hs Hlast.
  apply (StronglySorted_unique_strong Z.lt).
  - intros a b _ _ Hab Hba. lia.
  - apply StronglySorted_filter_lt, StronglySorted_seqZ.
  - apply sorted_strongly. exact Hs.
  - apply NoDup_Permutation.
    + apply NoDup_filter, NoDup_seqZ.
    + apply sorted_strongly in Hs.
      clear Hlast. induction Hs as [|a l Hs IH Hall]; constructor.
      * intros Hin. rewrite Forall_forall in Hall.
        apply Hall in Hin. lia.
      * exact IH.
    + intros t. rewrite list_elem_of_filter, elem_of_seqZ. split.
      * intros [Hnot Hrange].
        destruct (gaps_roundtrip rest x te t Hs Hlast ltac:(lia) Hnot) as (i & Hi & _).
        apply list_elem_of_lookup. exists i. exact Hi.
      * intros Hin. split.
        -- intros Hgap. apply (gaps_not_member (x :: rest) t Hs Hgap Hin).
        -- pose proof (sorted_below_last rest x te t Hs Hlast Hin) as Hle.
           apply elem_of_cons in Hin as [->|Hin]; [lia|].
           pose proof (sorted_above_head x rest t Hs Hin). lia.
Qed.
End column_facts.

(** ** Connections as the constructor builds them *)

Section built_facts.
Local Open Scope Z_scope.
Context `{Float64 F}.

Lemma slice_inclusive_length {A} (arr : list A) (i j : Z) :
  0 ≤ i ≤ j → j < Z.of_nat (length arr) →
  Z.of_nat (length (slice arr i (j + 1))) = j - i + 1.
Proof.
  intros Hij Hj.
  replace i with (Z.of_nat (Z.to_nat i)) at 1 by lia.
  replace (j + 1) with (Z.of_nat (Z.to_nat j + 1)) by lia.
  rewrite slice_nat by lia. rewrite length_take, length_drop. lia.
Qed.

(** The rows and the derived attributes of a connection, as built and as
    left by the ambiguity correction. *)
Lemma built_describes (scn : Scenario F) (st pr : string) (i j : Z)
    (c0 c : Connection F) (obs : list (Row F)) :
  0 ≤ i ≤ j →
  Connection_init scn st pr i j = Ok c0 →
  c = c0 ∨ correct_ambiguities c0 = Ok c →
  observations c = Ok obs →
  i4_ticks (tick <$> obs) →
  describes c obs ∧ Z.of_nat (length obs) = sample_count c.
Proof.
  intros Hij Hinit Hc Hobs Hi4.
  assert (observations c = observations c0 ∧ (∀ o, describes c0 o → describes c o) ∧
          sample_count c = sample_count c0) as (Hsame & Hd & Hcount).
  { destruct Hc as [->|Hc].
    - split; [reflexivity|]. split; [intros o Ho; exact Ho|reflexivity].
    - destruct (correct_ambiguities_describes c0 c obs Hc) as (Hsame & _).
      apply correct_ambiguities_inv in Hc as (f1 & f2 & obs' & _ & _ & ->).
      split; [exact Hsame|]. split; [intros o Ho; exact Ho|reflexivity]. }
  destruct (Connection_init_describes scn st pr i j c0 Hij Hinit) as (obs0 & Hobs0 & Hd0).
  rewrite Hsame, Hobs0 in Hobs. inversion Hobs; subst obs0.
  split; [apply Hd, Hd0, Hi4|]. rewrite Hcount.
  apply Connection_init_Ok in Hinit
    as (arr & first & lastr & missing & _ & _ & Hl & Hobs1 & _ & ->).
  rewrite Hobs0 in Hobs1. inversion Hobs1; subst obs.
  unfold sample_count. cbn [idx_start idx_end].
  apply slice_inclusive_length; [exact Hij|].
  apply getitem_nonneg in Hl; [|lia].
  apply lookup_lt_Some in Hl. lia.
Qed.

(** The position of a present tick in the tick column. *)
Lemma describes_position (c : Connection F) (obs : list (Row F)) (t : Z) :
  describes c obs → Sorted Z.lt (tick <$> obs) →
  tick_start c ≤ t ≤ tick_end c → t ∉ missing_ticks c →
  ∃ k : nat, tick_idx c t = Some (Z.of_nat k) ∧ (tick <$> obs) !! k = Some t.
Proof.
  intros (Hhead & Hlast & Hmiss) Hsorted Hrange Hnot.
  destruct (tick <$> obs) as [|x rest] eqn:Hcol; [discriminate Hhead|].
  simpl in Hhead. assert (x = tick_start c) as Hx by congruence. clear Hhead.
  rewrite Hmiss in Hnot.
  destruct (gaps_roundtrip rest x (tick_end c) t Hsorted Hlast ltac:(lia) Hnot)
    as (k & Hk & Hpos).
  exists k. split; [|exact Hk].
  rewrite tick_idx_present by (rewrite Hmiss; exact Hnot).
  unfold missing_below. rewrite Hmiss, Hpos, Hx. reflexivity.
Qed.

(** Where [tick_end + 1] does not overflow, the [ticks] array runs from
    [tick_start] to [tick_end]. *)
Lemma ticks_span (c : Connection F) (obs : list (Row F)) :
  describes c obs → i4_ticks (tick <$> obs) → tick_end c < 2 ^ 31 - 1 →
  ticks c = seqZ (tick_start c) (tick_end c + 1 - tick_start c).
Proof.
  intros (_ & Hlast & _) [Hval _] Hend. unfold ticks.
  rewrite wrap_i4_id; [reflexivity|].
  apply last_Some_elem_of in Hlast. specialize (Hval _ Hlast). lia.
Qed.

(** The column of a described connection starts at [tick_start]. *)
Lemma describes_column (c : Connection F) (obs : list (Row F)) :
  describes c obs →
  ∃ rest, tick <$> obs = tick_start c :: rest ∧
          last (tick_start c :: rest) = Some (tick_end c) ∧
          missing_ticks c = gaps (tick_start c :: rest).
Proof.
  intros (Hhead & Hlast & Hmiss).
  destruct (tick <$> obs) as [|x rest] eqn:Hcol; [discriminate Hhead|].
  simpl in Hhead. assert (x = tick_start c) as -> by congruence.
  exists rest. repeat split; assumption.
Qed.
End built_facts.

(** X1.  In a connection over a valid index range whose rows have
    increasing ticks free of [int32] overflow, the missing ticks lie
    strictly between [tick_start] and [tick_end] and are never ticks of a
    row; every row's tick lies in [[tick_start, tick_end]]; and every
    tick of that range is either a row's tick or a missing tick. *)
Theorem missing_ticks_partition `{Float64 F} (scn : Scenario F) (st pr : string)
    (i j : Z) (c0 c : Connection F) (obs : list (Row F)) :
  (0 ≤ i ≤ j)%Z →
  Connection_init scn st pr i j = Ok c0 →
  c = c0 ∨ correct_ambiguities c0 = Ok c →
  observations c = Ok obs →
  Sorted Z.lt (tick <$> obs) →
  i4_ticks (tick <$> obs) →
  (∀ t, t ∈ missing_ticks c →
        (tick_start c < t < tick_end c)%Z ∧ t ∉ tick <$> obs) ∧
  (∀ t, t ∈ tick <$> obs → (tick_start c ≤ t ≤ tick_end c)%Z) ∧
  (∀ t, (tick_start c ≤ t ≤ tick_end c)%Z →
        t ∈ tick <$> obs ∨ t ∈ missing_ticks c).
Proof.
  intros Hij Hinit Hc Hobs Hsorted Hi4.
  destruct (built_describes scn st pr i j c0 c obs Hij Hinit Hc Hobs Hi4) as [Hd _].
  destruct (describes_column c obs Hd) as (rest & Hcol & Hlast & Hmiss).
  rewrite Hcol in *. rewrite Hmiss. split; [|split].
  - intros t Ht. split; [split|].
    + apply (gaps_above_first _ rest t Hsorted Ht).
    + apply (gaps_below_last rest _ _ t Hsorted Hlast Ht).
    + apply (gaps_not_member _ t Hsorted Ht).
  - intros t Ht. split.
    + apply elem_of_cons in Ht as [->|Ht]; [lia|].
      pose proof (sorted_above_head _ rest t Hsorted Ht). lia.
    + apply (sorted_below_last rest _ _ t Hsorted Hlast Ht).
  - intros t Hrange.
    destruct (decide (t ∈ gaps (tick_start c :: rest))) as [Hgap|Hnot]; [right; exact Hgap|].
    left. destruct (gaps_roundtrip rest _ _ t Hsorted Hlast Hrange Hnot) as (k & Hk & _).
    apply list_elem_of_lookup. exists k. exact Hk.
Qed.

(** On the gapped connection: 102 is missing and strictly inside, 103 is
    a row's tick. *)
Lemma missing_ticks_partition_witness :
  ((100 < 102 < 104)%Z ∧
   102%Z ∉ tick <$> (Binary64.blank_row <$> [100; 101; 103; 104]%Z)) ∧
  (103%Z ∈ tick <$> (Binary64.blank_row <$> [100; 101; 103; 104]%Z) ∨
   103%Z ∈ missing_ticks Binary64.gapped_connection).
Proof.
  destruct (missing_ticks_partition Binary64.gapped_scenario "STA1" "G01" 0 3
              Binary64.gapped_connection Binary64.gapped_connection
              (Binary64.blank_row <$> [100; 101; 103; 104]%Z))
    as (Hmissing & _ & Hcover).
  - lia.
  - vm_compute. reflexivity.
  - left. reflexivity.
  - vm_compute. reflexivity.
  - repeat constructor.
  - apply i4_ticks_within. repeat constructor; simpl; lia.
  - split.
    + apply (Hmissing 102%Z). simpl. apply elem_of_singleton. reflexivity.
    + apply (Hcover 103%Z). simpl. lia.
Defined.

(** X2.  For such a connection the number of rows is
    [idx_end - idx_start + 1], and rows and missing ticks together make up
    the span: rows + missing = [tick_end - tick_start + 1], which is also
    the length of the [ticks] array when [tick_end] is not the largest
    [int32].  In particular no tick is missing exactly when the span
    equals the number of rows. *)
Theorem sample_count_identity `{Float64 F} (scn : Scenario F) (st pr : string)
    (i j : Z) (c0 c : Connection F) (obs : list (Row F)) :
  (0 ≤ i ≤ j)%Z →
  Connection_init scn st pr i j = Ok c0 →
  c = c0 ∨ correct_ambiguities c0 = Ok c →
  observations c = Ok obs →
  Sorted Z.lt (tick <$> obs) →
  i4_ticks (tick <$> obs) →
  Z.of_nat (length obs) = sample_count c ∧
  (Z.of_nat (length obs) + Z.of_nat (size (missing_ticks c))
   = tick_end c - tick_start c + 1)%Z ∧
  ((tick_end c < 2 ^ 31 - 1)%Z →
   length (ticks c) = (length obs + size (missing_ticks c))%nat) ∧
  (missing_ticks c = ∅ ↔ (tick_end c - tick_start c + 1 = sample_count c)%Z).
Proof.
  intros Hij Hinit Hc Hobs Hsorted Hi4.
  destruct (built_describes scn st pr i j c0 c obs Hij Hinit Hc Hobs Hi4) as [Hd Hlen].
  pose proof (ticks_span c obs Hd Hi4) as Hticks.
  destruct (describes_column c obs Hd) as (rest & Hcol & Hlast & Hmiss).
  rewrite Hcol in Hsorted.
  pose proof (gaps_count rest _ _ Hsorted Hlast) as Hcount.
  rewrite <- Hmiss, <- Hcol, length_fmap in Hcount.
  split; [exact Hlen|]. split; [exact Hcount|]. split.
  - intros Hend. rewrite (Hticks Hend), length_seqZ. lia.
  - rewrite <- Hlen. split.
    + intros Hempty. rewrite Hempty, size_empty in Hcount. lia.
    + intros Hspan. apply leibniz_equiv, size_empty_iff. lia.
Qed.

(** Four rows and one missing tick span the five ticks 100..104. *)
Lemma sample_count_identity_witness :
  (4 + Z.of_nat (size (missing_ticks Binary64.gapped_connection)) = 104 - 100 + 1)%Z ∧
  length (ticks Binary64.gapped_connection) = 5%nat.
Proof.
  destruct (sample_count_identity Binary64.gapped_scenario "STA1" "G01" 0 3
              Binary64.gapped_connection Binary64.gapped_connection
              (Binary64.blank_row <$> [100; 101; 103; 104]%Z))
    as (_ & Hcount & Hticks & _).
  - lia.
  - vm_compute. reflexivity.
  - left. reflexivity.
  - vm_compute. reflexivity.
  - repeat constructor.
  - apply i4_ticks_within. repeat constructor; simpl; lia.
  - split; [exact Hcount|]. rewrite Hticks by (simpl; lia). vm_compute. reflexivity.
Defined.

(** X3.  For such a connection [tick_idx] maps the ticks that have a row
    onto valid row indices, in increasing order: every answer lies in
    [[0, len(observations))], a later tick gets a larger index, the first
    tick gets 0 and the last tick gets the last index. *)
Theorem tick_idx_monotone `{Float64 F} (scn : Scenario F) (st pr : string)
    (i j : Z) (c0 c : Connection F) (obs : list (Row F)) :
  (0 ≤ i ≤ j)%Z →
  Connection_init scn st pr i j = Ok c0 →
  c = c0 ∨ correct_ambiguities c0 = Ok c →
  observations c = Ok obs →
  Sorted Z.lt (tick <$> obs) →
  i4_ticks (tick <$> obs) →
  (∀ t k, (tick_start c ≤ t ≤ tick_end c)%Z → tick_idx c t = Some k →
          (0 ≤ k < Z.of_nat (length obs))%Z) ∧
  (∀ t1 t2 k1 k2,
      (tick_start c ≤ t1)%Z → (t1 < t2)%Z → (t2 ≤ tick_end c)%Z →
      tick_idx c t1 = Some k1 → tick_idx c t2 = Some k2 → (k1 < k2)%Z) ∧
  tick_idx c (tick_start c) = Some 0%Z ∧
  tick_idx c (tick_end c) = Some (Z.of_nat (length obs) - 1)%Z.
Proof.
  intros Hij Hinit Hc Hobs Hsorted Hi4.
  destruct (built_describes scn st pr i j c0 c obs Hij Hinit Hc Hobs Hi4) as [Hd _].
  assert (∀ t k, (tick_start c ≤ t ≤ tick_end c)%Z → tick_idx c t = Some k →
                 ∃ n : nat, k = Z.of_nat n ∧ (tick <$> obs) !! n = Some t) as Hpos.
  { intros t k Hrange Hk.
    assert (t ∉ missing_ticks c) as Hnot.
    { intros Hin. apply tick_idx_None in Hin. congruence. }
    destruct (describes_position c obs t Hd Hsorted Hrange Hnot) as (n & Hn & Hcol).
    exists n. split; [congruence|exact Hcol]. }
  destruct (describes_column c obs Hd) as (rest & Hcol & Hlast & Hmiss).
  assert (tick_start c ≤ tick_end c)%Z as Hspan.
  { rewrite Hcol in Hsorted.
    apply (sorted_below_last rest _ _ _ Hsorted Hlast). left. }
  assert (∀ t, t ∈ tick <$> obs → ∃ k, tick_idx c t = Some k) as Hsome.
  { intros t Ht. destruct (tick_idx c t) as [k|] eqn:Hk; [exists k; reflexivity|].
    apply tick_idx_None in Hk. rewrite Hmiss in Hk. rewrite Hcol in Ht, Hsorted.
    destruct (gaps_not_member _ t Hsorted Hk Ht). }
  split; [|split; [|split]].
  - intros t k Hrange Hk. destruct (Hpos t k Hrange Hk) as (n & -> & Hn).
    apply lookup_lt_Some in Hn. rewrite length_fmap in Hn. lia.
  - intros t1 t2 k1 k2 H1 Hlt H2 Hk1 Hk2.
    destruct (Hpos t1 k1 ltac:(lia) Hk1) as (n1 & -> & Hn1).
    destruct (Hpos t2 k2 ltac:(lia) Hk2) as (n2 & -> & Hn2).
    destruct (decide (n1 < n2)%nat) as [Hn|Hn]; [lia|].
    destruct (decide (n1 = n2)) as [->|Hne]; [rewrite Hn1 in Hn2; inversion Hn2; lia|].
    pose proof (sorted_lookup_lt _ n2 n1 t2 t1 Hsorted Hn2 Hn1 ltac:(lia)). lia.
  - destruct (Hsome (tick_start c)) as [k Hk]; [rewrite Hcol; left|].
    destruct (Hpos (tick_start c) k ltac:(lia) Hk) as (n & -> & Hn). rewrite Hk. f_equal.
    destruct n as [|n]; [reflexivity|].
    assert ((tick <$> obs) !! 0%nat = Some (tick_start c)) as H0 by (rewrite Hcol; reflexivity).
    pose proof (sorted_lookup_lt _ 0%nat (S n) _ _ Hsorted H0 Hn ltac:(lia)). lia.
  - assert ((tick <$> obs) !! Init.Nat.pred (length (tick <$> obs)) = Some (tick_end c))
      as Hend by (rewrite <- last_lookup, Hcol; exact Hlast).
    destruct (Hsome (tick_end c)) as [k Hk].
    { apply list_elem_of_lookup. eexists. exact Hend. }
    destruct (Hpos (tick_end c) k ltac:(lia) Hk) as (n & -> & Hn). rewrite Hk. f_equal.
    pose proof (lookup_lt_Some _ _ _ Hn) as Hlt. rewrite length_fmap in Hlt, Hend.
    destruct (decide (n = Init.Nat.pred (length obs))) as [->|Hne]; [lia|].
    pose proof (sorted_lookup_lt _ n (Init.Nat.pred (length obs)) _ _ Hsorted Hn Hend
                  ltac:(lia)). lia.
Qed.

(** On the gapped connection the four rows get the indices 0 to 3. *)
Lemma tick_idx_monotone_witness :
  tick_idx Binary64.gapped_connection 100 = Some 0%Z ∧
  tick_idx Binary64.gapped_connection 104 = Some 3%Z ∧
  (∀ k1 k2, tick_idx Binary64.gapped_connection 101 = Some k1 →
            tick_idx Binary64.gapped_connection 103 = Some k2 → (k1 < k2)%Z).
Proof.
  destruct (tick_idx_monotone Binary64.gapped_scenario "STA1" "G01" 0 3
              Binary64.gapped_connection Binary64.gapped_connection
              (Binary64.blank_row <$> [100; 101; 103; 104]%Z))
    as (_ & Hmono & Hfirst & Hlast).
  - lia.
  - vm_compute. reflexivity.
  - left. reflexivity.
  - vm_compute. reflexivity.
  - repeat constructor.
  - apply i4_ticks_within. repeat constructor; simpl; lia.
  - split; [exact Hfirst|]. split; [exact Hlast|].
    intros k1 k2. apply (Hmono 101%Z 103%Z); simpl; lia.
Defined.

(** X4.  For such a connection whose [tick_end] is not the largest
    [int32], the ticks of the [ticks] array for which [tick_idx] answers
    an index are, in order, the ticks of the observation rows. *)
Theorem ticks_with_rows `{Float64 F} (scn : Scenario F) (st pr : string)
    (i j : Z) (c0 c : Connection F) (obs : list (Row F)) :
  (0 ≤ i ≤ j)%Z →
  Connection_init scn st pr i j = Ok c0 →
  c = c0 ∨ correct_ambiguities c0 = Ok c →
  observations c = Ok obs →
  Sorted Z.lt (tick <$> obs) →
  i4_ticks (tick <$> obs) →
  (tick_end c < 2 ^ 31 - 1)%Z →
  filter (λ t, is_Some (tick_idx c t)) (ticks c) = tick <$> obs.
Proof.
  intros Hij Hinit Hc Hobs Hsorted Hi4 Hend.
  destruct (built_describes scn st pr i j c0 c obs Hij Hinit Hc Hobs Hi4) as [Hd _].
  rewrite (ticks_span c obs Hd Hi4 Hend).
  destruct (describes_column c obs Hd) as (rest & Hcol & Hlast & Hmiss).
  rewrite Hcol in *. rewrite <- (span_without_gaps _ rest _ Hsorted Hlast).
  apply list_filter_iff. intros t. rewrite <- Hmiss.
  rewrite <- tick_idx_None. destruct (tick_idx c t); split; intros Hx.
  - discriminate.
  - eexists. reflexivity.
  - destruct Hx as [k Hk]. discriminate Hk.
  - destruct Hx. reflexivity.
Qed.

(** Of the ticks 100..104 of the gapped connection, 102 is dropped. *)
Lemma ticks_with_rows_witness :
  filter (λ t, is_Some (tick_idx Binary64.gapped_connection t))
         (ticks Binary64.gapped_connection)
  = [100; 101; 103; 104]%Z.
Proof.
  rewrite (ticks_with_rows Binary64.gapped_scenario "STA1" "G01" 0 3
             Binary64.gapped_connection Binary64.gapped_connection
             (Binary64.blank_row <$> [100; 101; 103; 104]%Z)).
  - reflexivity.
  - lia.
  - vm_compute. reflexivity.
  - left. reflexivity.
  - vm_compute. reflexivity.
  - repeat constructor.
  - apply i4_ticks_within. repeat constructor; simpl; lia.
  - simpl. lia.
Defined.

(** ** Outcomes of Connection.__init__ *)

Section init_facts.
Local Open Scope Z_scope.
Context {F : Type}.

(** Indexing succeeds exactly on [-len <= i < len]. *)
Lemma getitem_outcome {A} (l : list A) (i : Z) :
  (- Z.of_nat (length l) ≤ i < Z.of_nat (length l) → ∃ x, getitem l i = Ok x) ∧
  (¬ (- Z.of_nat (length l) ≤ i < Z.of_nat (length l)) → getitem l i = Raise IndexError).
Proof.
  unfold getitem. cbv zeta.
  destruct (decide (i < 0)) as [Hneg|Hneg].
  - rewrite (bool_decide_eq_true_2 (i < 0)) by exact Hneg. cbv iota. split.
    + intros Hi. rewrite bool_decide_eq_true_2 by lia.
      destruct (lookup_lt_is_Some_2 l (Z.to_nat (i + Z.of_nat (length l)))) as [x Hx]; [lia|].
      rewrite Hx. exists x. reflexivity.
    + intros Hi. rewrite bool_decide_eq_false_2 by lia. reflexivity.
  - rewrite (bool_decide_eq_false_2 (i < 0)) by exact Hneg. cbv iota. split.
    + intros Hi. rewrite bool_decide_eq_true_2 by lia.
      destruct (lookup_lt_is_Some_2 l (Z.to_nat i)) as [x Hx]; [lia|].
      rewrite Hx. exists x. reflexivity.
    + intros Hi. rewrite bool_decide_eq_false_2 by lia. reflexivity.
Qed.

Lemma station_array_lookup (scn : Scenario F) (st pr : string) :
  station_array scn st pr =
  match station_data scn !! st with
  | None => Raise KeyError
  | Some by_prn =>
      match by_prn !! pr with
      | None => Raise KeyError
      | Some arr => Ok arr
      end
  end.
Proof.
  unfold station_array, dict_getitem.
  destruct (station_data scn !! st) as [by_prn|]; [|reflexivity].
  cbn [mbind result_bind bind]. destruct (by_prn !! pr); reflexivity.
Qed.

(** With the array at hand and both indices valid, the constructor
    returns. *)
Lemma Connection_init_returns (scn : Scenario F) (st pr : string) (i j : Z)
    (arr : list (Row F)) (first lastr : Row F) :
  station_array scn st pr = Ok arr →
  getitem arr i = Ok first → getitem arr j = Ok lastr →
  ∃ missing,
    Connection_init scn st pr i j =
      Ok (mkConnection scn st pr i j (tick first) (tick lastr)
            missing None None None None).
Proof.
  intros Harr Hf Hl. unfold Connection_init.
  rewrite Harr. cbn [mbind result_bind bind]. rewrite Hf. cbn [mbind result_bind bind].
  rewrite Hl. cbn [mbind result_bind bind].
  unfold _init_missing_ticks, observations.
  cbn [scenario station prn idx_start idx_end tick_start tick_end missing_ticks
       n_chan1 n_chan2 offset offset_error].
  rewrite bool_decide_eq_false_2 by (eapply station_array_nonempty; exact Harr).
  cbn [negb assert mbind result_bind bind]. rewrite Harr. cbn [mbind result_bind bind].
  destruct (missing_ticks_of_Ok (tick <$> slice arr i (j + 1)) ∅) as (missing & -> & _).
  exists missing. reflexivity.
Qed.
End init_facts.

(** X5.  [Connection.__init__] raises [KeyError] when the scenario has no
    data for the station or, under the station, for the satellite;
    [IndexError] when the data are there and an index is outside
    [[-len, len)]; and otherwise returns a connection that records its
    arguments, the ticks of the two end rows, and no correction at all. *)
Theorem Connection_init_outcome {F : Type} (scn : Scenario F) (st pr : string) (i j : Z) :
  (station_data scn !! st = None → Connection_init scn st pr i j = Raise KeyError) ∧
  (∀ by_prn, station_data scn !! st = Some by_prn → by_prn !! pr = None →
             Connection_init scn st pr i j = Raise KeyError) ∧
  (∀ by_prn arr,
      station_data scn !! st = Some by_prn → by_prn !! pr = Some arr →
      let n := Z.of_nat (length arr) in
      (¬ ((- n ≤ i < n)%Z ∧ (- n ≤ j < n)%Z) →
       Connection_init scn st pr i j = Raise IndexError) ∧
      ((- n ≤ i < n)%Z → (- n ≤ j < n)%Z →
       ∃ c first lastr,
         Connection_init scn st pr i j = Ok c ∧
         getitem arr i = Ok first ∧ getitem arr j = Ok lastr ∧
         scenario c = scn ∧ station c = st ∧ prn c = pr ∧
         idx_start c = i ∧ idx_end c = j ∧
         tick_start c = tick first ∧ tick_end c = tick lastr ∧
         n_chan1 c = None ∧ n_chan2 c = None ∧
         offset c = None ∧ offset_error c = None)).
Proof.
  split; [|split].
  - intros Hst. unfold Connection_init. rewrite station_array_lookup, Hst. reflexivity.
  - intros by_prn Hst Hpr. unfold Connection_init.
    rewrite station_array_lookup, Hst, Hpr. reflexivity.
  - intros by_prn arr Hst Hpr n.
    assert (station_array scn st pr = Ok arr) as Harr
      by (rewrite station_array_lookup, Hst, Hpr; reflexivity).
    destruct (getitem_outcome arr i) as [Hi_ok Hi_bad].
    destruct (getitem_outcome arr j) as [Hj_ok Hj_bad].
    fold n in Hi_ok, Hi_bad, Hj_ok, Hj_bad. split.
    + intros Hbad. unfold Connection_init. rewrite Harr. cbn [mbind result_bind bind].
      destruct (decide (- n ≤ i < n)%Z) as [Hi|Hi].
      * destruct (Hi_ok Hi) as [first ->]. cbn [mbind result_bind bind].
        rewrite Hj_bad by tauto. reflexivity.
      * rewrite Hi_bad by exact Hi. reflexivity.
    + intros Hi Hj. destruct (Hi_ok Hi) as [first Hf]. destruct (Hj_ok Hj) as [lastr Hl].
      destruct (Connection_init_returns scn st pr i j arr first lastr Harr Hf Hl)
        as [missing Hreturns].
      eexists _, first, lastr. split.
      * exact Hreturns.
      * repeat split; assumption.
Qed.

(** On the gapped scenario: an unknown station, an unknown satellite, an
    index past the four rows, and the last row addressed from the end. *)
Lemma Connection_init_outcome_witness :
  Connection_init Binary64.gapped_scenario "NOPE" "G01" 0 3 = Raise KeyError ∧
  Connection_init Binary64.gapped_scenario "STA1" "G99" 0 3 = Raise KeyError ∧
  Connection_init Binary64.gapped_scenario "STA1" "G01" 0 4 = Raise IndexError ∧
  ∃ c, Connection_init Binary64.gapped_scenario "STA1" "G01" 0 (-1) = Ok c ∧
       tick_end c = 104%Z ∧ offset c = None.
Proof.
  split; [|split; [|split]].
  - apply (proj1 (Connection_init_outcome Binary64.gapped_scenario "NOPE" "G01" 0 3)).
    vm_compute. reflexivity.
  - apply (proj1 (proj2 (Connection_init_outcome Binary64.gapped_scenario "STA1" "G99" 0 3))
             {[ "G01"%string := Binary64.blank_row <$> [100; 101; 103; 104]%Z ]}).
    + vm_compute. reflexivity.
    + vm_compute. reflexivity.
  - destruct (proj2 (proj2 (Connection_init_outcome Binary64.gapped_scenario "STA1" "G01" 0 4))
                {[ "G01"%string := Binary64.blank_row <$> [100; 101; 103; 104]%Z ]}
                (Binary64.blank_row <$> [100; 101; 103; 104]%Z)) as [Hbad _].
    + vm_compute. reflexivity.
    + vm_compute. reflexivity.
    + apply Hbad. simpl. lia.
  - destruct (proj2 (proj2 (Connection_init_outcome Binary64.gapped_scenario "STA1" "G01"
                              0 (-1)))
                {[ "G01"%string := Binary64.blank_row <$> [100; 101; 103; 104]%Z ]}
                (Binary64.blank_row <$> [100; 101; 103; 104]%Z)) as [_ Hgood].
    + vm_compute. reflexivity.
    + vm_compute. reflexivity.
    + destruct Hgood as (c & first & lastr & Hc & _ & Hl & _ & _ & _ & _ & _ & _ & He & _ & _ & Ho & _).
      * simpl. lia.
      * simpl. lia.
      * exists c. split; [exact Hc|]. split; [|exact Ho].
        rewrite He. vm_compute in Hl. inversion Hl. reflexivity.
Defined.

(** ** The correction, once computed *)

Section corrected_facts.
Context `{Float64 F}.




End corrected_facts.



(** ** calc_carrier_delays *)

Section carrier_facts.
Context `{Float64 F, FloatAdd F}.



End carrier_facts.



(** ** Looking ticks up in the views of a ConnTickMap *)

Section view_lookup_facts.
Local Open Scope Z_scope.
Context {F D : Type}.

Lemma comprehension_Ok {A B} (f : A → result B) (xs : list A) :
  ∀ ys, comprehension f xs = Ok ys →
        length ys = length xs ∧
        ∀ (k : nat) x, xs !! k = Some x → ∃ y, ys !! k = Some y ∧ f x = Ok y.
Proof.
  induction xs as [|x xs IH]; intros ys Hys.
  - simpl in Hys. inversion Hys. split; [reflexivity|].
    intros k x Hk. rewrite lookup_nil in Hk. discriminate.
  - cbn [comprehension] in Hys.
    apply bind_Ok in Hys as (y & Hy & Hys).
    apply bind_Ok in Hys as (ys' & Hys' & Hys). inversion Hys; subst ys.
    destruct (IH ys' Hys') as [Hlen Hall]. split; [simpl; lia|].
    intros [|k] x' Hk.
    + simpl in Hk. inversion Hk; subst x'. exists y. split; [reflexivity|exact Hy].
    + apply (Hall k x' Hk).
Qed.

Lemma zip3_lookup {A B C} (xs : list A) (ys : list B) (zs : list C) (k : nat)
    (x : A) (y : B) (z : C) :
  zip3 xs ys zs !! k = Some (x, y, z) ↔
  xs !! k = Some x ∧ ys !! k = Some y ∧ zs !! k = Some z.
Proof.
  unfold zip3. rewrite lookup_zip_with_Some. split.
  - intros (p & z' & Heq & Hp & Hz). inversion Heq; subst p z'.
    apply lookup_zip_with_Some in Hp as (x' & y' & Heq' & Hx & Hy).
    inversion Heq'; subst x' y'. repeat split; assumption.
  - intros (Hx & Hy & Hz). exists (x, y), z. split; [reflexivity|]. split; [|exact Hz].
    apply lookup_zip_with_Some. exists x, y. repeat split; assumption.
Qed.

(** The triples of a view built over connections. *)
Lemma view_triple (m : list (Connection F)) (ds : list (list D)) (k : nat)
    (x : Z * Z * list D * (Z → option Z)) :
  zip3 (tick_range <$> m) ds (tick_idx <$> m) !! k = Some x →
  ∃ con, m !! k = Some con ∧ x.1.1 = tick_range con ∧ x.2 = tick_idx con ∧
         ds !! k = Some x.1.2.
Proof.
  destruct x as [[r v] f]. rewrite zip3_lookup, !list_lookup_fmap.
  intros (Hr & Hv & Hf). destruct (m !! k) as [con|]; [|discriminate Hr].
  simpl in Hr, Hf. inversion Hr. inversion Hf. exists con. repeat split. exact Hv.
Qed.

(** A view answers from the connection that [ConnTickMap.__getitem__]
    finds, and with the default when that raises. *)
Lemma view_scan (m : list (Connection F)) (ds : list (list D)) (dflt : D) (t : Z) :
  length ds = length m →
  (∀ con, conn_getitem m t = Ok con →
     ∃ (k : nat) v, m !! k = Some con ∧ ds !! k = Some v ∧
       scan dflt (zip3 (tick_range <$> m) ds (tick_idx <$> m)) t =
         match tick_idx con t with
         | None => Ok dflt
         | Some idx => getitem v idx
         end) ∧
  (∀ e, conn_getitem m t = Raise e →
        scan dflt (zip3 (tick_range <$> m) ds (tick_idx <$> m)) t = Ok dflt).
Proof.
  intros Hlen. split.
  - intros con Hcon. apply conn_getitem_Ok in Hcon as (k & Hk & Hin & Hfirst).
    destruct (lookup_lt_is_Some_2 ds k) as [v Hv].
    { rewrite Hlen. apply lookup_lt_Some in Hk. exact Hk. }
    exists k, v. split; [exact Hk|]. split; [exact Hv|].
    rewrite (scan_first dflt _ t k (tick_range con, v, tick_idx con)).
    + reflexivity.
    + apply zip3_lookup. rewrite !list_lookup_fmap, Hk. repeat split. exact Hv.
    + apply contains_range in Hin. exact Hin.
    + intros k' x' Hlt Hx'.
      apply view_triple in Hx' as (con' & Hcon' & Hr & _). rewrite Hr.
      intros Hrange. apply (contains_range con' t) in Hrange.
      rewrite (Hfirst k' con' Hlt Hcon') in Hrange. discriminate Hrange.
  - intros e He. apply conn_getitem_Raise in He as [_ Hnone].
    apply scan_none. intros x Hx. apply list_elem_of_lookup in Hx as [k Hk].
    apply view_triple in Hk as (con' & Hcon' & Hr & _). rewrite Hr.
    intros Hrange. apply (contains_range con' t) in Hrange.
    rewrite Hnone in Hrange; [discriminate Hrange|].
    apply list_elem_of_lookup. exists k. exact Hcon'.
Qed.
End view_lookup_facts.

(** X8.  Looking a tick up in the view of [get_vtecs] agrees with
    [ConnTickMap.__getitem__]: when that finds a connection, the view
    answers that connection's VTEC value at [tick_idx], or 0.0 when the
    tick is missing in it; when that raises, the view answers 0.0.  The
    view of [get_filtered_vtecs] does the same with the connections it
    keeps and their filtered values. *)
Theorem view_lookup `{Float64 F, TidExternals F} (m : list (Connection F)) (t : Z) :
  (∀ sl, get_vtecs m = Ok sl →
     (∀ con, conn_getitem m t = Ok con →
        ∃ v, vtecs0 con = Ok v ∧
          sparse_getitem sl t =
            match tick_idx con t with
            | None => Ok fzero
            | Some idx => getitem v idx
            end) ∧
     (∀ e, conn_getitem m t = Raise e → sparse_getitem sl t = Ok fzero)) ∧
  (∀ sl, get_filtered_vtecs m = Ok sl →
     (∀ con, conn_getitem (long_enough m) t = Ok con →
        ∃ v, filtered_vtecs0 con = Ok v ∧
          sparse_getitem sl t =
            match tick_idx con t with
            | None => Ok fzero
            | Some idx => getitem v idx
            end) ∧
     (∀ e, conn_getitem (long_enough m) t = Raise e → sparse_getitem sl t = Ok fzero)).
Proof.
  assert (∀ (f : Connection F → result (list F)) (cs : list (Connection F)) sl,
            (ds ← comprehension f cs;
             SparseList_init (tick_range <$> cs) ds (tick_idx <$> cs) fzero) = Ok sl →
            (∀ con, conn_getitem cs t = Ok con →
               ∃ v, f con = Ok v ∧
                 sparse_getitem sl t =
                   match tick_idx con t with
                   | None => Ok fzero
                   | Some idx => getitem v idx
                   end) ∧
            (∀ e, conn_getitem cs t = Raise e → sparse_getitem sl t = Ok fzero)) as Hview.
  { intros f cs sl Hsl. apply bind_Ok in Hsl as (ds & Hds & Hinit).
    apply SparseList_init_fields in Hinit as (Hr & Hd & Hl & Hdf).
    destruct (comprehension_Ok f cs ds Hds) as [Hlen Hall].
    destruct (view_scan cs ds fzero t Hlen) as [Hfound Hnone].
    unfold sparse_getitem. rewrite Hr, Hd, Hl, Hdf. split.
    - intros con Hcon. destruct (Hfound con Hcon) as (k & v & Hk & Hv & Hscan).
      exists v. split; [|exact Hscan].
      destruct (Hall k con Hk) as (v' & Hv' & Hf). congruence.
    - exact Hnone. }
  split.
  - intros sl Hsl. apply (Hview vtecs0 m sl). rewrite <- get_vtecs_unfold. exact Hsl.
  - intros sl Hsl. apply (Hview filtered_vtecs0 (long_enough m) sl).
    rewrite <- get_filtered_vtecs_unfold. exact Hsl.
Qed.

(** With a threshold of 27: tick 30 belongs to the connection of 33
    samples in both views; tick 3 belongs to the connection of 27
    samples, which only the raw view holds; tick 100 belongs to none. *)
Lemma view_lookup_witness :
  let E := Binary64.stand_in_externals in
  let m := [Binary64.con_27; Binary64.con_33] in
  ∃ raw filtered,
    @get_vtecs _ _ E m = Ok raw ∧ @get_filtered_vtecs _ _ E m = Ok filtered ∧
    sparse_getitem raw 30 = Ok PrimFloat.one ∧
    sparse_getitem filtered 30 = Ok PrimFloat.one ∧
    sparse_getitem raw 3 = Ok PrimFloat.one ∧
    sparse_getitem filtered 3 = Ok PrimFloat.zero ∧
    sparse_getitem raw 100 = Ok PrimFloat.zero.
Proof.
  intros E m.
  destruct (@get_vtecs _ _ E m) as [raw|e] eqn:Hraw;
    [|exfalso; vm_compute in Hraw; discriminate Hraw].
  destruct (@get_filtered_vtecs _ _ E m) as [filtered|e] eqn:Hfil;
    [|exfalso; vm_compute in Hfil; discriminate Hfil].
  exists raw, filtered. split; [reflexivity|]. split; [reflexivity|].
  assert (@long_enough _ E m = [Binary64.con_33]) as Hlong by (vm_compute; reflexivity).
  repeat split.
  - destruct (proj1 (@view_lookup _ _ E m 30%Z) raw Hraw) as [Hfound _].
    destruct (Hfound Binary64.con_33) as (v & Hv & ->); [vm_compute; reflexivity|].
    vm_compute in Hv. inversion Hv. vm_compute. reflexivity.
  - destruct (proj2 (@view_lookup _ _ E m 30%Z) filtered Hfil) as [Hfound _].
    destruct (Hfound Binary64.con_33) as (v & Hv & ->);
      [rewrite Hlong; vm_compute; reflexivity|].
    vm_compute in Hv. inversion Hv. vm_compute. reflexivity.
  - destruct (proj1 (@view_lookup _ _ E m 3%Z) raw Hraw) as [Hfound _].
    destruct (Hfound Binary64.con_27) as (v & Hv & ->); [vm_compute; reflexivity|].
    vm_compute in Hv. inversion Hv. vm_compute. reflexivity.
  - destruct (proj2 (@view_lookup _ _ E m 3%Z) filtered Hfil) as [_ Hnone].
    apply (Hnone KeyError). rewrite Hlong. vm_compute. reflexivity.
  - destruct (proj1 (@view_lookup _ _ E m 100%Z) raw Hraw) as [_ Hnone].
    apply (Hnone KeyError). vm_compute. reflexivity.
Defined.

(** ** get_ipps *)

Section ipps_facts.
Import Tec.
Local Open Scope Z_scope.

Lemma get_ipps_unfold (EARTH_RADIUS : R) (station_locs : gmap string vec3)
    (m : list (Connection R)) :
  get_ipps EARTH_RADIUS station_locs m =
  bind (comprehension (ipps EARTH_RADIUS station_locs) m)
       (λ ds : list (list vec3),
          SparseList_init (tick_range <$> m) (fmap (M:=list) Some <$> ds)
            (tick_idx <$> m) (None : option vec3)).
Proof. reflexivity. Qed.

Lemma ipps_Ok (EARTH_RADIUS : R) (station_locs : gmap string vec3)
    (con : Connection R) (v : list vec3) :
  ipps EARTH_RADIUS station_locs con = Ok v →
  ∃ loc obs, station_locs !! station con = Some loc ∧ observations con = Ok obs ∧
    v = (λ row, point_at loc (sat_pos row)
                  (pierce_scale loc (sat_pos row) (IONOSPHERE_H EARTH_RADIUS))) <$> obs.
Proof.
  unfold ipps, dict_getitem, column. intros Hv.
  destruct (station_locs !! station con) as [loc|]; [|discriminate Hv].
  cbn [mbind result_bind bind] in Hv.
  destruct (observations con) as [obs|e]; [|discriminate Hv].
  cbn [mbind result_bind bind] in Hv. inversion Hv.
  exists loc, obs. split; [reflexivity|]. split; [reflexivity|].
  rewrite ion_locs_map. change (List.map sat_pos obs) with (sat_pos <$> obs).
  rewrite <- list_fmap_compose. reflexivity.
Qed.
End ipps_facts.

(** X9.  Looking a tick up in the view of [get_ipps]: when no connection
    holds the tick the answer is [None]; when the first connection that
    holds it was built over a valid index range with increasing ticks
    free of [int32] overflow, the answer is [None] for a tick missing in
    it, and otherwise the entry that [ion_locs] computes for the very row
    that carries the tick: where that row's satellite is not at the
    station and its quadratic has a real solution, the pierce point from
    the station's position and the row's satellite position. *)
Theorem get_ipps_lookup (EARTH_RADIUS : R) (station_locs : gmap string Tec.vec3)
    (m : list (Connection R)) (sl : SparseList (option Tec.vec3)) (t : Z) :
  get_ipps EARTH_RADIUS station_locs m = Ok sl →
  (∀ e, conn_getitem m t = Raise e → sparse_getitem sl t = Ok None) ∧
  (∀ con scn st pr i j obs,
     conn_getitem m t = Ok con →
     (0 ≤ i ≤ j)%Z → Connection_init scn st pr i j = Ok con →
     observations con = Ok obs → Sorted Z.lt (tick <$> obs) →
     i4_ticks (tick <$> obs) →
     ∃ loc, station_locs !! st = Some loc ∧
       (t ∈ missing_ticks con → sparse_getitem sl t = Ok None) ∧
       (t ∉ missing_ticks con →
        ∃ row v, row ∈ obs ∧ tick row = t ∧
          sparse_getitem sl t = Ok (Some v) ∧
          (sat_pos row ≠ loc →
           (0 <= Tec.discriminant loc (sat_pos row) (Tec.IONOSPHERE_H EARTH_RADIUS))%R →
           v = Tec.point_at loc (sat_pos row)
                 (Tec.pierce_scale loc (sat_pos row)
                    (Tec.IONOSPHERE_H EARTH_RADIUS))))).
Proof.
  intros Hsl. rewrite get_ipps_unfold in Hsl.
  apply (bind_Ok (comprehension (ipps EARTH_RADIUS station_locs) m)) in Hsl
    as (ds & Hds & Hinit).
  apply SparseList_init_fields in Hinit as (Hr & Hd & Hl & Hdf).
  destruct (comprehension_Ok _ m ds Hds) as [Hlen Hall].
  assert (length (fmap (M:=list) Some <$> ds) = length m) as Hlen'
    by (rewrite length_fmap; exact Hlen).
  destruct (view_scan m (fmap (M:=list) Some <$> ds) None t Hlen') as [Hfound Hnone].
  unfold sparse_getitem. rewrite Hr, Hd, Hl, Hdf. split; [exact Hnone|].
  intros con scn st pr i j obs Hcon Hij Hbuilt Hobs Hsorted Hi4.
  destruct (Hfound con Hcon) as (k & v & Hk & Hv & Hscan).
  destruct (Hall k con Hk) as (v0 & Hv0 & Hipps).
  rewrite list_lookup_fmap, Hv0 in Hv. simpl in Hv. inversion Hv; subst v. clear Hv.
  apply ipps_Ok in Hipps as (loc & obs' & Hloc & Hobs' & ->).
  rewrite Hobs in Hobs'. inversion Hobs'; subst obs'. clear Hobs'.
  destruct (Connection_init_describes scn st pr i j con Hij Hbuilt) as (obs0 & Hobs0 & Hdesc).
  rewrite Hobs in Hobs0. inversion Hobs0; subst obs0. clear Hobs0.
  specialize (Hdesc Hi4).
  assert (station con = st) as Hst.
  { apply Connection_init_Ok in Hbuilt as (? & ? & ? & ? & _ & _ & _ & _ & _ & ->).
    reflexivity. }
  exists loc. split; [rewrite <- Hst; exact Hloc|]. rewrite Hscan. split.
  - intros Hmiss. apply tick_idx_None in Hmiss. rewrite Hmiss. reflexivity.
  - intros Hnot.
    assert (tick_start con ≤ t ≤ tick_end con)%Z as Hrange.
    { apply conn_getitem_Ok in Hcon as (? & _ & Hin & _).
      apply contains_range in Hin. exact Hin. }
    destruct (describes_position con obs t Hdesc Hsorted Hrange Hnot) as (n & Hn & Hcol).
    rewrite list_lookup_fmap in Hcol.
    destruct (obs !! n) as [row|] eqn:Hrow; [|discriminate Hcol].
    simpl in Hcol. exists row. eexists. split; [|split; [|split]].
    + apply list_elem_of_lookup. exists n. exact Hrow.
    + congruence.
    + rewrite Hn. apply getitem_nat.
      rewrite !list_lookup_fmap, Hrow. reflexivity.
    + intros _ _. reflexivity.
Qed.

Section ipps_outcome_facts.
Import Tec.
Local Open Scope Z_scope.

Lemma comprehension_returns {A B} (f : A → result B) (xs : list A) :
  (∀ x, x ∈ xs → ∃ y, f x = Ok y) → ∃ ys, comprehension f xs = Ok ys.
Proof.
  induction xs as [|x xs IH]; intros Hall.
  - exists []. reflexivity.
  - destruct (Hall x) as [y Hy]; [left|].
    destruct IH as [ys Hys]; [intros z Hz; apply Hall; right; exact Hz|].
    exists (y :: ys). cbn [comprehension]. rewrite Hy. cbn [mbind result_bind bind].
    rewrite Hys. reflexivity.
Qed.

Lemma comprehension_Raise {A B} (f : A → result B) (xs : list A) (e : exn) :
  comprehension f xs = Raise e → ∃ x, x ∈ xs ∧ f x = Raise e.
Proof.
  induction xs as [|x xs IH]; intros Hr; [discriminate Hr|].
  cbn [comprehension] in Hr.
  destruct (f x) as [y|e'] eqn:Hy.
  - cbn [mbind result_bind bind] in Hr.
    destruct (comprehension f xs) as [ys|e''] eqn:Hys; [discriminate Hr|].
    cbn [mbind result_bind bind] in Hr. inversion Hr; subst e''.
    destruct IH as (z & Hz & Hfz); [reflexivity|]. exists z. split; [right; exact Hz|exact Hfz].
  - cbn [mbind result_bind bind] in Hr. inversion Hr; subst e'.
    exists x. split; [left|exact Hy].
Qed.

Lemma ipps_returns (EARTH_RADIUS : R) (station_locs : gmap string vec3)
    (con : Connection R) (loc : vec3) (obs : list (Row R)) :
  station_locs !! station con = Some loc → observations con = Ok obs →
  ipps EARTH_RADIUS station_locs con =
    Ok (ion_locs loc (sat_pos <$> obs) (IONOSPHERE_H EARTH_RADIUS)).
Proof.
  intros Hloc Hobs. unfold ipps, dict_getitem, column. rewrite Hloc.
  cbn [mbind result_bind bind]. rewrite Hobs. reflexivity.
Qed.

Lemma ipps_Raise (EARTH_RADIUS : R) (station_locs : gmap string vec3)
    (con : Connection R) (e : exn) :
  ipps EARTH_RADIUS station_locs con = Raise e →
  (station_locs !! station con = None ∧ e = KeyError) ∨
  observations con = Raise e.
Proof.
  unfold ipps, dict_getitem, column. intros Hr.
  destruct (station_locs !! station con) as [loc|].
  - right. cbn [mbind result_bind bind] in Hr.
    destruct (observations con) as [obs|e']; [discriminate Hr|].
    cbn [mbind result_bind bind] in Hr. inversion Hr. reflexivity.
  - left. cbn [mbind result_bind bind] in Hr. inversion Hr. split; reflexivity.
Qed.

Lemma get_ipps_returns (EARTH_RADIUS : R) (station_locs : gmap string vec3)
    (m : list (Connection R)) :
  m ≠ [] →
  (∀ con, con ∈ m → is_Some (station_locs !! station con) ∧
                    ∃ obs, observations con = Ok obs) →
  ∃ sl, get_ipps EARTH_RADIUS station_locs m = Ok sl.
Proof.
  intros Hne Hall.
  destruct (comprehension_returns (ipps EARTH_RADIUS station_locs) m) as [ds Hds].
  { intros con Hcon. destruct (Hall con Hcon) as [[loc Hloc] [obs Hobs]].
    eexists. apply (ipps_returns _ _ _ loc obs Hloc Hobs). }
  rewrite get_ipps_unfold, Hds. cbn [bind].
  destruct (SparseList_init_Ok (tick_range <$> m) (fmap (M:=list) Some <$> ds)
              (tick_idx <$> m) (None : option vec3)) as (mx & Hmx & _).
  { destruct m; [congruence|discriminate]. }
  eexists. exact Hmx.
Qed.
End ipps_outcome_facts.

(** The real-valued connection with ticks 5, 6, 8: tick 7 is missing,
    tick 9 is outside, and tick 6 gives the pierce point under the
    satellite position recorded at tick 6. *)
Lemma get_ipps_lookup_witness :
  ∃ sl, get_ipps 6378137 Samples.real_station_locs [Samples.real_connection] = Ok sl ∧
        sparse_getitem sl 7 = Ok None ∧
        sparse_getitem sl 9 = Ok None ∧
        sparse_getitem sl 6 =
          Ok (Some (Tec.point_at (6378137, 0, 0)%R (21000000, 0, 0)%R
                      (Tec.pierce_scale (6378137, 0, 0)%R (21000000, 0, 0)%R
                         (Tec.IONOSPHERE_H 6378137)))).
Proof.
  assert (Connection_init Samples.real_scenario "STA1" "G01" 0 2 = Ok Samples.real_connection)
    as Hbuilt by reflexivity.
  assert (observations Samples.real_connection = Ok Samples.real_rows)
    as Hobs by reflexivity.
  assert (Sorted Z.lt (tick <$> Samples.real_rows)) as Hsorted by (repeat constructor).
  assert (i4_ticks (tick <$> Samples.real_rows)) as Hi4
    by (apply i4_ticks_within; repeat constructor; simpl; lia).
  destruct (get_ipps_returns 6378137 Samples.real_station_locs [Samples.real_connection])
    as [sl Hsl]; [discriminate| |].
  { intros con Hcon. apply list_elem_of_singleton in Hcon as ->.
    split; [eexists; reflexivity|exists Samples.real_rows; exact Hobs]. }
  exists sl. split; [exact Hsl|].
  split; [|split].
  - destruct (get_ipps_lookup _ _ _ sl 7%Z Hsl) as [_ Hfound].
    destruct (Hfound Samples.real_connection Samples.real_scenario "STA1"%string
                "G01"%string 0%Z 2%Z Samples.real_rows eq_refl ltac:(lia)
                Hbuilt Hobs Hsorted Hi4) as (loc & _ & Hmiss & _).
    apply Hmiss. simpl. apply elem_of_singleton. reflexivity.
  - destruct (get_ipps_lookup _ _ _ sl 9%Z Hsl) as [Hnone _].
    apply (Hnone KeyError). reflexivity.
  - destruct (get_ipps_lookup _ _ _ sl 6%Z Hsl) as [_ Hfound].
    destruct (Hfound Samples.real_connection Samples.real_scenario "STA1"%string
                "G01"%string 0%Z 2%Z Samples.real_rows eq_refl ltac:(lia)
                Hbuilt Hobs Hsorted Hi4) as (loc & Hloc & _ & Hpresent).
    assert (Some loc = Some (6378137, 0, 0)%R) as Heq by (rewrite <- Hloc; reflexivity).
    inversion Heq; subst loc. clear Heq.
    destruct Hpresent as (row & v & Hrow & Htick & -> & Hv).
    + simpl. rewrite elem_of_singleton. lia.
    + assert (row = Samples.real_row 6 (21000000, 0, 0)%R) as ->.
      { unfold Samples.real_rows in Hrow.
        apply elem_of_cons in Hrow as [->|Hrow]; [simpl in Htick; lia|].
        apply elem_of_cons in Hrow as [->|Hrow]; [reflexivity|].
        apply list_elem_of_singleton in Hrow as ->. simpl in Htick. lia. }
      rewrite Hv; [reflexivity| |].
      * simpl. intros Heq. inversion Heq. lra.
      * unfold Tec.discriminant, Tec.qa, Tec.qb, Tec.qc, Tec.IONOSPHERE_H,
          Tec.vmul, Tec.vsub, Tec.vsq, Tec.vsum. simpl. lra.
Defined.

(** X10.  When [get_ipps] returns: on no connections the [SparseList]
    constructor raises [ValueError]; on a non-empty list whose
    connections all have a station array, the view is returned exactly
    when every connection's station has a location, and a station
    without one makes the call raise [KeyError]. *)
Theorem get_ipps_outcome (EARTH_RADIUS : R) (station_locs : gmap string Tec.vec3)
    (m : list (Connection R)) :
  get_ipps EARTH_RADIUS station_locs [] = Raise ValueError ∧
  ((∀ con, con ∈ m → ∃ obs, observations con = Ok obs) → m ≠ [] →
   ((∃ sl, get_ipps EARTH_RADIUS station_locs m = Ok sl) ↔
      ∀ con, con ∈ m → is_Some (station_locs !! station con)) ∧
   ((∃ con, con ∈ m ∧ station_locs !! station con = None) →
      get_ipps EARTH_RADIUS station_locs m = Raise KeyError)).
Proof.
  split; [reflexivity|]. intros Hobs Hne.
  assert ((∃ sl, get_ipps EARTH_RADIUS station_locs m = Ok sl) ↔
          ∀ con, con ∈ m → is_Some (station_locs !! station con)) as Hiff.
  { split.
    - intros [sl Hsl] con Hcon. rewrite get_ipps_unfold in Hsl.
      apply (bind_Ok (comprehension (ipps EARTH_RADIUS station_locs) m)) in Hsl
        as (ds & Hds & _).
      destruct (comprehension_Ok _ m ds Hds) as [_ Hall].
      apply list_elem_of_lookup in Hcon as [k Hk].
      destruct (Hall k con Hk) as (v & _ & Hv).
      apply ipps_Ok in Hv as (loc & _ & Hloc & _). exists loc. exact Hloc.
    - intros Hall. apply get_ipps_returns; [exact Hne|].
      intros con Hcon. split; [apply Hall, Hcon|apply Hobs, Hcon]. }
  split; [exact Hiff|].
  intros (con & Hcon & Hnone).
  destruct (get_ipps EARTH_RADIUS station_locs m) as [sl|e] eqn:Hsl.
  - destruct (proj1 Hiff (ex_intro _ sl eq_refl) con Hcon) as [loc Hloc]. congruence.
  - f_equal. rewrite get_ipps_unfold in Hsl.
    destruct (comprehension (ipps EARTH_RADIUS station_locs) m) as [ds|e'] eqn:Hds.
    + cbn [bind] in Hsl.
      destruct (SparseList_init_Ok (tick_range <$> m) (fmap (M:=list) Some <$> ds)
                  (tick_idx <$> m) (None : option Tec.vec3)) as (mx & Hmx & _).
      { destruct m; [congruence|discriminate]. }
      rewrite Hmx in Hsl. discriminate Hsl.
    + cbn [bind] in Hsl. inversion Hsl; subst e'.
      apply comprehension_Raise in Hds as (c & Hc & Hr).
      apply ipps_Raise in Hr as [[_ ->]|Hr]; [reflexivity|].
      destruct (Hobs c Hc) as [obs Ho]. congruence.
Qed.

(** The same connection: the view is returned with the station located,
    and [KeyError] is raised without any station location. *)
Lemma get_ipps_outcome_witness :
  (∃ sl, get_ipps 6378137 Samples.real_station_locs [Samples.real_connection] = Ok sl) ∧
  get_ipps 6378137 ∅ [Samples.real_connection] = Raise KeyError.
Proof.
  assert (∀ con, con ∈ [Samples.real_connection] → ∃ obs, observations con = Ok obs) as Hobs.
  { intros con Hcon. apply list_elem_of_singleton in Hcon as ->.
    exists Samples.real_rows. reflexivity. }
  split.
  - apply (proj2 (get_ipps_outcome 6378137 Samples.real_station_locs
                    [Samples.real_connection]) Hobs ltac:(discriminate)).
    intros con Hcon. apply list_elem_of_singleton in Hcon as ->. eexists. reflexivity.
  - apply (proj2 (get_ipps_outcome 6378137 ∅ [Samples.real_connection])
             Hobs ltac:(discriminate)).
    exists Samples.real_connection. split; [left|reflexivity].
Defined.

Section merge_facts.
Context {F : Type}.
Implicit Types (d : gmap string (list (Row F))) (sv : string).

Lemma merge_data_lookup d1 d2 sv :
  merge_data d1 d2 !! sv =
  union_with (λ rows1 rows2, Some (rows1 ++ rows2)) (d1 !! sv) (d2 !! sv).
Proof.
  unfold merge_data. revert sv.
  apply (map_fold_weak_ind
           (λ r m, ∀ sv, r !! sv =
                         union_with (λ rows1 rows2, Some (rows1 ++ rows2))
                           (d1 !! sv) (m !! sv))).
  - intros sv. rewrite lookup_empty. destruct (d1 !! sv); reflexivity.
  - intros k rows2 m r Hk IH sv. unfold merge_step.
    destruct (decide (k = sv)) as [->|Hne].
    + rewrite lookup_insert_eq. destruct (d1 !! sv) as [rows1|].
      * rewrite lookup_insert_eq. reflexivity.
      * rewrite lookup_insert_eq. reflexivity.
    + rewrite (lookup_insert_ne m) by exact Hne.
      destruct (d1 !! k); rewrite lookup_insert_ne by exact Hne; apply IH.
Qed.
End merge_facts.

(** X11.  [merge_data] keeps every satellite of either data set and no
    other: a satellite of both gets the rows of [data1] followed by the
    rows of [data2], a satellite of one gets that one's rows unchanged.
    So no row is lost or repeated, and the row counts add up. *)
Theorem merge_data_rows {F : Type} (data1 data2 : gmap string (list (Row F)))
    (prn : string) :
  (merge_data data1 data2 !! prn = None ↔
     data1 !! prn = None ∧ data2 !! prn = None) ∧
  (∀ rows1 rows2, data1 !! prn = Some rows1 → data2 !! prn = Some rows2 →
     merge_data data1 data2 !! prn = Some (rows1 ++ rows2)) ∧
  (data2 !! prn = None → merge_data data1 data2 !! prn = data1 !! prn) ∧
  (data1 !! prn = None → merge_data data1 data2 !! prn = data2 !! prn) ∧
  dom (merge_data data1 data2) = dom data1 ∪ dom data2 ∧
  length (entry_rows (merge_data data1 data2 !! prn)) =
    (length (entry_rows (data1 !! prn)) + length (entry_rows (data2 !! prn)))%nat.
Proof.
  rewrite merge_data_lookup.
  split; [|split; [|split; [|split; [|split]]]].
  - destruct (data1 !! prn), (data2 !! prn); simpl; split;
      try discriminate; try (intros [? ?]; discriminate); auto.
  - intros rows1 rows2 -> ->. reflexivity.
  - intros ->. destruct (data1 !! prn); reflexivity.
  - intros ->. destruct (data2 !! prn); reflexivity.
  - apply set_eq. intros sv. rewrite elem_of_union, !elem_of_dom, merge_data_lookup.
    destruct (data1 !! sv), (data2 !! sv); simpl;
      rewrite ?is_Some_alt; tauto.
  - destruct (data1 !! prn), (data2 !! prn); simpl;
      rewrite ?length_app, ?app_nil_r; simpl; lia.
Qed.

(** X12.  Merging composes: the empty data set is a unit on both sides
    and merging is associative, so chunks merged in chronological order
    give the same result however the merges are grouped. *)
Theorem merge_data_assoc {F : Type} (a b c : gmap string (list (Row F))) :
  merge_data ∅ a = a ∧
  merge_data a ∅ = a ∧
  merge_data (merge_data a b) c = merge_data a (merge_data b c).
Proof.
  split; [|split].
  - apply map_eq. intros sv. rewrite merge_data_lookup, lookup_empty.
    destruct (a !! sv); reflexivity.
  - reflexivity.
  - apply map_eq. intros sv. rewrite !merge_data_lookup.
    destruct (a !! sv), (b !! sv), (c !! sv); simpl; try reflexivity.
    rewrite app_assoc. reflexivity.
Qed.

Section chunk_facts.
Context `{Float64 F}.

Lemma converted_app (raw1 raw2 : list (list (GNSSMeasurement F))) (sv : string) :
  converted (raw1 ++ raw2) sv = converted raw1 sv ++ converted raw2 sv.
Proof.
  unfold converted. rewrite concat_app, filter_app, fmap_app. reflexivity.
Qed.

Lemma all_isnan_app (xs ys : list F) :
  Numpy.all_isnan (xs ++ ys) = Numpy.all_isnan xs && Numpy.all_isnan ys.
Proof. unfold Numpy.all_isnan. apply forallb_app. Qed.

Lemma extend_None (rows : list (Row F)) :
  extend None rows = match rows with [] => None | _ => Some rows end.
Proof. destruct rows; reflexivity. Qed.
End chunk_facts.

(** X13.  Converting two batches and merging the results gives, for a
    satellite, the same array as converting the two batches as one,
    provided the satellite is missing from one batch or its [C2C] column
    is all NaN in both batches or in neither.  When exactly one batch has
    an all-NaN [C2C] column, the merged array has that batch's rows with
    the bands exchanged while the joint conversion exchanges nothing. *)
Theorem merge_data_from_raw_obs `{Float64 F}
    (raw1 raw2 : list (list (GNSSMeasurement F))) (sv : string) :
  let conv1 := converted raw1 sv in
  let conv2 := converted raw2 sv in
  (conv1 = [] ∨ conv2 = [] ∨
   Numpy.all_isnan (C2C <$> conv1) = Numpy.all_isnan (C2C <$> conv2) →
   merge_data (from_raw_obs raw1) (from_raw_obs raw2) !! sv =
   from_raw_obs (raw1 ++ raw2) !! sv) ∧
  (conv1 ≠ [] → conv2 ≠ [] →
   Numpy.all_isnan (C2C <$> conv1) = true →
   Numpy.all_isnan (C2C <$> conv2) = false →
   merge_data (from_raw_obs raw1) (from_raw_obs raw2) !! sv =
     Some ((swap_C2C_C2P <$> conv1) ++ conv2) ∧
   from_raw_obs (raw1 ++ raw2) !! sv = Some (conv1 ++ conv2)).
Proof.
  intros conv1 conv2.
  rewrite merge_data_lookup, !from_raw_obs_lookup, converted_app, !extend_None.
  fold conv1 conv2. split.
  - intros Hcase.
    destruct conv1 as [|r1 l1] eqn:H1.
    { simpl. destruct conv2; reflexivity. }
    destruct conv2 as [|r2 l2] eqn:H2.
    { rewrite app_nil_r. reflexivity. }
    destruct Hcase as [Hc|[Hc|Hc]]; [discriminate Hc|discriminate Hc|].
    cbn [app fmap option_fmap option_map union_with option_union_with].
    change (r1 :: l1 ++ r2 :: l2) with ((r1 :: l1) ++ (r2 :: l2)).
    unfold normalise_bands. rewrite fmap_app, all_isnan_app, Hc.
    destruct (Numpy.all_isnan (C2C <$> r2 :: l2)); simpl.
    + rewrite fmap_app. reflexivity.
    + reflexivity.
  - intros Hne1 Hne2 Hnan1 Hnan2.
    destruct conv1 as [|r1 l1] eqn:H1; [congruence|].
    destruct conv2 as [|r2 l2] eqn:H2; [congruence|].
    cbn [app fmap option_fmap option_map union_with option_union_with].
    change (r1 :: l1 ++ r2 :: l2) with ((r1 :: l1) ++ (r2 :: l2)).
    unfold normalise_bands. rewrite fmap_app, all_isnan_app, Hnan1, Hnan2.
    split; reflexivity.
Qed.

(** G01 reports C2P only in the first batch and both bands in the second:
    merging the converted batches exchanges the bands of the first row,
    converting the two batches as one exchanges nothing.  G02 is in
    neither batch and the two ways agree. *)
Lemma merge_data_from_raw_obs_witness :
  (merge_data (from_raw_obs Samples.c2p_only_batch) (from_raw_obs Samples.both_bands_batch)
     !! "G01"%string =
   Some ((swap_C2C_C2P <$> converted Samples.c2p_only_batch "G01") ++
         converted Samples.both_bands_batch "G01") ∧
   from_raw_obs (Samples.c2p_only_batch ++ Samples.both_bands_batch) !! "G01"%string =
   Some (converted Samples.c2p_only_batch "G01" ++
         converted Samples.both_bands_batch "G01")) ∧
  merge_data (from_raw_obs Samples.c2p_only_batch) (from_raw_obs Samples.both_bands_batch)
    !! "G02"%string =
  from_raw_obs (Samples.c2p_only_batch ++ Samples.both_bands_batch) !! "G02"%string.
Proof.
  split.
  - apply (proj2 (merge_data_from_raw_obs Samples.c2p_only_batch
                    Samples.both_bands_batch "G01")).
    + vm_compute. discriminate.
    + vm_compute. discriminate.
    + vm_compute. reflexivity.
    + vm_compute. reflexivity.
  - apply (proj1 (merge_data_from_raw_obs Samples.c2p_only_batch
                    Samples.both_bands_batch "G02")).
    left. vm_compute. reflexivity.
Defined.

Section rows_facts.
Context `{Float64 F}.

Lemma normalise_bands_lookup (value : list (Row F)) (k : nat) :
  normalise_bands value !! k = value !! k ∨
  normalise_bands value !! k = swap_C2C_C2P <$> value !! k.
Proof.
  unfold normalise_bands. destruct (Numpy.all_isnan (C2C <$> value)).
  - right. apply list_lookup_fmap.
  - left. reflexivity.
Qed.

Lemma from_raw_obs_Some (raw_obs : list (list (GNSSMeasurement F))) (sv : string)
    (rows : list (Row F)) :
  from_raw_obs raw_obs !! sv = Some rows →
  converted raw_obs sv ≠ [] ∧ rows = normalise_bands (converted raw_obs sv).
Proof.
  rewrite from_raw_obs_lookup. destruct (converted raw_obs sv) as [|r l].
  - discriminate.
  - cbn [extend entry_rows app fmap option_fmap option_map]. intros Hr.
    inversion Hr. split; [discriminate|reflexivity].
Qed.
End rows_facts.

(** X14.  The arrays of [from_raw_obs].  No satellite gets an empty
    array, and a satellite's array has one row per measurement of it, in
    batch order.  Every row has tick 0; its [is_processed] flag is the
    measurement's [corrected] and its [is_corrected] flag the
    measurement's [processed]; week, clock error, positions and velocity
    are the measurement's; and the bands other than [C2C] and [C2P] are the
    observables, NaN when absent, whether or not the two were
    exchanged. *)
Theorem from_raw_obs_rows `{Float64 F} (raw_obs : list (list (GNSSMeasurement F)))
    (sv : string) (rows : list (Row F)) :
  from_raw_obs raw_obs !! sv = Some rows →
  let seen := filter (λ obs, m_prn obs = sv) (concat raw_obs) in
  rows ≠ [] ∧ length rows = length seen ∧
  ∀ (k : nat) row, rows !! k = Some row →
    ∃ obs, seen !! k = Some obs ∧ m_prn obs = sv ∧
      tick row = 0%Z ∧
      is_processed row = m_corrected obs ∧ is_corrected row = m_processed obs ∧
      recv_time_sec row = as_f4 (m_recv_time_sec obs) ∧
      recv_time_week row = m_recv_time_week obs ∧
      sat_clock_err row = m_sat_clock_err obs ∧
      sat_pos row = m_sat_pos obs ∧ sat_vel row = m_sat_vel obs ∧
      sat_pos_final row = m_sat_pos_final obs ∧
      C1C row = dict_get (m_observables obs) "C1C"%string nan ∧
      C5C row = dict_get (m_observables obs) "C5C"%string nan ∧
      L1C row = dict_get (m_observables obs) "L1C"%string nan ∧
      L2C row = dict_get (m_observables obs) "L2C"%string nan ∧
      L5C row = dict_get (m_observables obs) "L5C"%string nan.
Proof.
  intros Hrows. cbv zeta. apply from_raw_obs_Some in Hrows as [Hne ->].
  unfold converted in *.
  set (seen := filter (λ obs, m_prn obs = sv) (concat raw_obs)) in *.
  assert (∀ obs, obs ∈ seen → m_prn obs = sv) as Hprn.
  { intros obs Hobs. apply list_elem_of_filter in Hobs as [Hp _]. exact Hp. }
  clearbody seen.
  assert (length (normalise_bands (_meas_to_tuple <$> seen)) = length seen) as Hlen.
  { unfold normalise_bands. destruct (Numpy.all_isnan _); rewrite ?length_fmap; reflexivity. }
  split; [|split; [exact Hlen|]].
  - intros Hnil. rewrite Hnil in Hlen. destruct seen; [|discriminate Hlen].
    apply Hne. reflexivity.
  - intros k row Hk.
    assert (∃ obs, seen !! k = Some obs ∧
                   (row = _meas_to_tuple obs ∨ row = swap_C2C_C2P (_meas_to_tuple obs)))
      as (obs & Hobs & Hrow).
    { destruct (normalise_bands_lookup (_meas_to_tuple <$> seen) k) as [Hl|Hl];
        rewrite Hl, list_lookup_fmap in Hk;
        destruct (seen !! k) as [obs|]; try discriminate Hk;
        simpl in Hk; inversion Hk; exists obs; split; auto. }
    exists obs. split; [exact Hobs|]. split.
    { apply Hprn. apply list_elem_of_lookup_2 in Hobs. exact Hobs. }
    destruct Hrow as [->| ->]; repeat split.
Qed.

(** G01 in the mixed batch: two measurements, two rows, both at tick 0. *)
Lemma from_raw_obs_rows_witness :
  ∃ rows, from_raw_obs Binary64.mixed_batch !! "G01"%string = Some rows ∧
          length rows = 2%nat ∧
          ∀ (k : nat) row, rows !! k = Some row → tick row = 0%Z.
Proof.
  destruct (from_raw_obs Binary64.mixed_batch !! "G01"%string) as [rows|] eqn:Hrows;
    [|vm_compute in Hrows; discriminate Hrows].
  exists rows. split; [reflexivity|].
  destruct (from_raw_obs_rows Binary64.mixed_batch "G01" rows Hrows) as (_ & Hlen & Hall).
  split.
  - rewrite Hlen. vm_compute. reflexivity.
  - intros k row Hk. destruct (Hall k row Hk) as (obs & _ & _ & Htick & _). exact Htick.
Defined.

Section outside_facts.
Local Open Scope Z_scope.
Context {D : Type}.

Lemma elem_of_zip3_range (rs : list (Z * Z)) (ds : list (list D))
    (ls : list (Z → option Z)) (x : Z * Z * list D * (Z → option Z)) :
  x ∈ zip3 rs ds ls → x.1.1 ∈ rs.
Proof.
  unfold zip3. intros Hx. destruct x as [[r d] f].
  apply elem_of_zip_l in Hx. simpl in Hx. apply elem_of_zip_l in Hx. exact Hx.
Qed.
End outside_facts.

(** X15.  A [SparseList] built by its constructor answers the default at
    every tick from [len] on and at every tick before all range starts:
    indexing there never raises, and negative indices do not count from
    the end.  Any other answer, an exception included, comes from a tick
    that lies in one of the ranges and below [len]. *)
Theorem sparse_getitem_outside {D : Type} (index_ranges : list (Z * Z))
    (ds : list (list D)) (ls : list (Z → option Z)) (dflt : D) (sl : SparseList D) :
  SparseList_init index_ranges ds ls dflt = Ok sl →
  (∀ t, (len sl ≤ t)%Z → sparse_getitem sl t = Ok dflt) ∧
  (∀ t, (∀ r, r ∈ index_ranges → (t < r.1)%Z) → sparse_getitem sl t = Ok dflt) ∧
  (∀ t, sparse_getitem sl t ≠ Ok dflt →
        ∃ r, r ∈ index_ranges ∧ (r.1 ≤ t ≤ r.2)%Z ∧ (t < len sl)%Z).
Proof.
  intros Hinit.
  destruct (SparseList_init_fields _ _ _ _ _ Hinit) as (Hr & Hd & Hl & Hdf).
  assert (∀ r, r ∈ index_ranges → (r.2 < len sl)%Z) as Hub.
  { intros r Hin.
    destruct (SparseList_init_Ok index_ranges ds ls dflt) as (mx & Hmx & _ & Hle).
    { intros ->. apply elem_of_nil in Hin. contradiction. }
    rewrite Hmx in Hinit. inversion Hinit. unfold len. cbn [Sparse.max].
    specialize (Hle r Hin). lia. }
  assert (∀ t, (∀ r, r ∈ index_ranges → ¬ (r.1 ≤ t ≤ r.2)%Z) →
               sparse_getitem sl t = Ok dflt) as Hout.
  { intros t Hno. unfold sparse_getitem. rewrite Hr, Hd, Hl, Hdf.
    apply scan_none. intros x Hx. apply elem_of_zip3_range in Hx.
    unfold in_range. apply Hno, Hx. }
  split; [|split].
  - intros t Ht. apply Hout. intros r Hin. specialize (Hub r Hin). lia.
  - intros t Ht. apply Hout. intros r Hin. specialize (Ht r Hin). lia.
  - intros t Hnot.
    destruct (decide (Exists (λ r, (r.1 ≤ t ≤ r.2)%Z) index_ranges)) as [Hex|Hno].
    + apply Exists_exists in Hex as (r & Hr' & Hrange). exists r.
      split; [exact Hr'|]. split; [exact Hrange|]. specialize (Hub r Hr'). lia.
    + exfalso. apply Hnot. apply Hout. intros r Hin Hrange. apply Hno.
      apply Exists_exists. exists r. split; assumption.
Qed.

(** Ranges 0..3 and 10..12: [len] is 13, and ticks 13 and -1 give the
    default 0.0. *)
Lemma sparse_getitem_outside_witness :
  ∃ sl, SparseList_init (ranges Binary64.sorted_sparse) (data Binary64.sorted_sparse)
          (tick_lookup Binary64.sorted_sparse) PrimFloat.zero = Ok sl ∧
        len sl = 13%Z ∧
        sparse_getitem sl 13 = Ok PrimFloat.zero ∧
        sparse_getitem sl (-1) = Ok PrimFloat.zero.
Proof.
  assert (SparseList_init (ranges Binary64.sorted_sparse) (data Binary64.sorted_sparse)
            (tick_lookup Binary64.sorted_sparse) PrimFloat.zero = Ok Binary64.sorted_sparse)
    as Hsl by reflexivity.
  exists Binary64.sorted_sparse. split; [exact Hsl|]. split; [reflexivity|].
  split.
  - apply (proj1 (sparse_getitem_outside _ _ _ _ _ Hsl)). vm_compute. discriminate.
  - apply (proj1 (proj2 (sparse_getitem_outside _ _ _ _ _ Hsl))).
    intros r Hr. apply elem_of_cons in Hr as [->|Hr]; [simpl; lia|].
    apply list_elem_of_singleton in Hr as ->. simpl. lia.
Defined.

Section slant_facts.
Import Tec.
Local Open Scope R_scope.

Lemma s_to_v_factor_lookup (EARTH_RADIUS : R) (elevations : list R) (ionh : R) (k : nat) :
  s_to_v_factor EARTH_RADIUS elevations ionh !! k =
  (λ el, sqrt (1 - (cos el * EARTH_RADIUS / ionh) ^ 2)) <$> elevations !! k.
Proof. unfold s_to_v_factor. apply list_lookup_fmap. Qed.

Lemma ratio_bounds (EARTH_RADIUS ionh : R) :
  0 < EARTH_RADIUS → EARTH_RADIUS < ionh → 0 < EARTH_RADIUS / ionh < 1.
Proof.
  intros Hpos Hlt. split.
  - apply Rdiv_lt_0_compat; lra.
  - apply (Rmult_lt_reg_r ionh); [lra|]. unfold Rdiv.
    rewrite Rmult_assoc, Rinv_l by lra. lra.
Qed.

Lemma slant_square (EARTH_RADIUS ionh el : R) :
  0 < EARTH_RADIUS → EARTH_RADIUS < ionh →
  0 <= (cos el * EARTH_RADIUS / ionh) ^ 2 <= (EARTH_RADIUS / ionh) ^ 2 ∧
  (EARTH_RADIUS / ionh) ^ 2 < 1.
Proof.
  intros Hpos Hlt. destruct (ratio_bounds _ _ Hpos Hlt) as [Hq0 Hq1].
  set (q := EARTH_RADIUS / ionh) in *.
  replace (cos el * EARTH_RADIUS / ionh) with (cos el * q) by (unfold q, Rdiv; ring).
  pose proof (COS_bound el) as [Hc1 Hc2].
  pose proof (pow2_ge_0 (cos el * q)) as Hsq.
  assert ((cos el) ^ 2 <= 1) as Hcc by nra.
  split; [split; [exact Hsq|]|]; nra.
Qed.
End slant_facts.

(** X16.  For an ionosphere radius above a positive Earth radius,
    [s_to_v_factor] gives one factor per elevation, each in (0, 1] and
    never below [sqrt (1 - (Re/ionh)^2)], the value on the horizon; the
    factor is 1 exactly where the cosine of the elevation is 0 (the
    zenith), and between horizon and zenith a higher elevation never
    gives a smaller factor. *)
Theorem s_to_v_factor_bounds (EARTH_RADIUS ionh : R) (elevations : list R) :
  (0 < EARTH_RADIUS)%R → (EARTH_RADIUS < ionh)%R →
  length (s_to_v_factor EARTH_RADIUS elevations ionh) = length elevations ∧
  (∀ (k : nat) el, elevations !! k = Some el →
     ∃ f, s_to_v_factor EARTH_RADIUS elevations ionh !! k = Some f ∧
          (0 < f <= 1)%R ∧
          (sqrt (1 - (EARTH_RADIUS / ionh) ^ 2) <= f)%R ∧
          (f = 1 ↔ cos el = 0)%R ∧
          (f ^ 2 + (cos el * EARTH_RADIUS / ionh) ^ 2 = 1)%R) ∧
  (∀ (k1 k2 : nat) e1 e2 f1 f2,
     elevations !! k1 = Some e1 → elevations !! k2 = Some e2 →
     (0 <= e1)%R → (e1 <= e2)%R → (e2 <= PI / 2)%R →
     s_to_v_factor EARTH_RADIUS elevations ionh !! k1 = Some f1 →
     s_to_v_factor EARTH_RADIUS elevations ionh !! k2 = Some f2 →
     (f1 <= f2)%R).
Proof.
  intros Hpos Hlt. split; [|split].
  - unfold s_to_v_factor. apply length_fmap.
  - intros k el Hk. rewrite s_to_v_factor_lookup, Hk. cbn [fmap option_fmap option_map].
    eexists. split; [reflexivity|].
    destruct (slant_square EARTH_RADIUS ionh el Hpos Hlt) as [[Hx0 Hx1] Hq].
    destruct (ratio_bounds _ _ Hpos Hlt) as [Hq0 Hq1].
    set (x2 := ((cos el * EARTH_RADIUS / ionh) ^ 2)%R) in *.
    assert (0 < 1 - x2)%R as Hrad by lra.
    split; [split|split; [|split]].
    + apply sqrt_lt_R0. exact Hrad.
    + rewrite <- sqrt_1 at 2. apply sqrt_le_1_alt. lra.
    + apply sqrt_le_1_alt. lra.
    + split.
      * intros Hone.
        assert (1 - x2 = 1)%R as Hx.
        { rewrite <- (sqrt_sqrt (1 - x2)) by lra. rewrite Hone. lra. }
        assert (x2 = 0)%R as Hzero by lra. unfold x2 in Hzero.
        apply pow2_zero in Hzero.
        replace (cos el * EARTH_RADIUS / ionh)%R
          with (cos el * (EARTH_RADIUS / ionh))%R in Hzero by (unfold Rdiv; ring).
        apply Rmult_integral in Hzero as [Hc|Hr]; [exact Hc|lra].
      * intros Hc. unfold x2. rewrite Hc.
        replace (1 - (0 * EARTH_RADIUS / ionh) ^ 2)%R with 1%R
          by (unfold Rdiv; ring).
        apply sqrt_1.
    + replace (sqrt (1 - x2) ^ 2)%R with (sqrt (1 - x2) * sqrt (1 - x2))%R by ring.
      rewrite sqrt_sqrt by lra. lra.
  - intros k1 k2 e1 e2 f1 f2 Hk1 Hk2 He1 He12 He2.
    rewrite !s_to_v_factor_lookup, Hk1, Hk2. cbn [fmap option_fmap option_map].
    intros Hf1 Hf2. inversion Hf1. inversion Hf2. clear Hf1 Hf2.
    apply sqrt_le_1_alt.
    destruct (ratio_bounds _ _ Hpos Hlt) as [Hq0 Hq1].
    set (q := (EARTH_RADIUS / ionh)%R) in *.
    replace (cos e1 * EARTH_RADIUS / ionh)%R with (cos e1 * q)%R by (unfold q, Rdiv; ring).
    replace (cos e2 * EARTH_RADIUS / ionh)%R with (cos e2 * q)%R by (unfold q, Rdiv; ring).
    assert (cos e2 <= cos e1)%R as Hcos.
    { pose proof PI_RGT_0. apply cos_decr_1; lra. }
    assert (0 <= cos e2)%R as Hc2.
    { pose proof PI_RGT_0. apply cos_ge_0; lra. }
    assert ((cos e2 * q) ^ 2 <= (cos e1 * q) ^ 2)%R as Hsq.
    { apply pow_incr. split; [apply Rmult_le_pos; lra|].
      apply Rmult_le_compat_r; lra. }
    lra.
Qed.

(** With the default shell 350 km above an Earth radius of 6378137 m, the
    factor at the zenith is 1. *)
Lemma s_to_v_factor_bounds_witness :
  ∃ f, s_to_v_factor 6378137 [(PI / 2)%R] (Tec.IONOSPHERE_H 6378137) !! 0%nat = Some f ∧
       f = 1%R.
Proof.
  destruct (s_to_v_factor_bounds 6378137 (Tec.IONOSPHERE_H 6378137) [(PI / 2)%R])
    as (_ & Hat & _); [lra|unfold Tec.IONOSPHERE_H; lra|].
  destruct (Hat 0%nat (PI / 2)%R eq_refl) as (f & Hf & _ & _ & Hone & _).
  exists f. split; [exact Hf|]. apply Hone. apply cos_PI2.
Defined.

Section delay_factor_facts.
Local Open Scope R_scope.
Context `{FloatRange}.

(** [calc_delay_factor] once the frequencies are known and their squares
    are in range. *)
Lemma calc_delay_factor_in_range (c : Connection R) (f1 f2 : R) :
  frequencies c = Ok (f1, f2) →
  square_overflows f1 = false → square_overflows f2 = false →
  calc_delay_factor c = rdiv (f1 ^ 2 * f2 ^ 2) (f1 ^ 2 - f2 ^ 2).
Proof.
  intros Hf H1 H2. unfold calc_delay_factor, pow2. rewrite Hf.
  cbn [mbind result_bind bind]. rewrite H1. cbn [mbind result_bind bind].
  rewrite H2. reflexivity.
Qed.

Lemma rdiv_nonzero (x y : R) : y <> 0 → rdiv x y = Ok (x / y).
Proof.
  intros Hy. unfold rdiv. destruct (Req_dec_T y 0) as [Hzero|_]; [contradiction|reflexivity].
Qed.

Lemma rdiv_zero (x : R) : rdiv x 0 = Raise ZeroDivisionError.
Proof.
  unfold rdiv. destruct (Req_dec_T 0 0) as [_|Hne]; [reflexivity|contradiction].
Qed.
End delay_factor_facts.

(** X17.  [calc_delay_factor], over the reals with Python's exceptions.
    A failed frequency lookup is passed on.  With the frequencies known,
    it raises [OverflowError] when the square of one of them is out of
    the range of a float, and otherwise [ZeroDivisionError] when the two
    squares are equal; in every other case it returns
    [f1^2 * f2^2 / (f1^2 - f2^2)].  For [0 < f2 < f1] that factor [d] is
    larger than [f2^2] and satisfies [1/d = 1/f2^2 - 1/f1^2]. *)
Theorem calc_delay_factor_outcome `{FloatRange} (c : Connection R) :
  (∀ e, frequencies c = Raise e → calc_delay_factor c = Raise e) ∧
  (∀ f1 f2, frequencies c = Ok (f1, f2) →
     (square_overflows f1 = true ∨ square_overflows f2 = true →
      calc_delay_factor c = Raise OverflowError) ∧
     (square_overflows f1 = false → square_overflows f2 = false →
      (f1 ^ 2 = f2 ^ 2 → calc_delay_factor c = Raise ZeroDivisionError)%R ∧
      (f1 ^ 2 <> f2 ^ 2 →
       calc_delay_factor c = Ok (f1 ^ 2 * f2 ^ 2 / (f1 ^ 2 - f2 ^ 2)))%R ∧
      (0 < f2 → f2 < f1 →
       ∃ d, calc_delay_factor c = Ok d ∧
            f2 ^ 2 < d ∧ / d = / f2 ^ 2 - / f1 ^ 2)%R)).
Proof.
  split.
  - intros e He. unfold calc_delay_factor. rewrite He. reflexivity.
  - intros f1 f2 Hf. split.
    + intros Hover. unfold calc_delay_factor, pow2. rewrite Hf.
      cbn [mbind result_bind bind].
      destruct (square_overflows f1); [reflexivity|]. cbn [mbind result_bind bind].
      destruct Hover as [Hover|Hover]; [discriminate Hover|]. rewrite Hover. reflexivity.
    + intros H1 H2. rewrite (calc_delay_factor_in_range c f1 f2 Hf H1 H2).
      split; [|split].
      * intros Heq. replace (f1 ^ 2 - f2 ^ 2)%R with 0%R by lra. apply rdiv_zero.
      * intros Hne. apply rdiv_nonzero. lra.
      * intros Hf2 Hlt.
        assert (0 < f1 ^ 2 - f2 ^ 2)%R as Hden by nra.
        assert (0 < f2 ^ 2)%R as Hf22 by nra.
        assert (0 < f1 ^ 2)%R as Hf12 by nra.
        eexists. split; [apply rdiv_nonzero; lra|]. split.
        -- apply (Rmult_lt_reg_r (f1 ^ 2 - f2 ^ 2)); [exact Hden|].
           unfold Rdiv. rewrite Rmult_assoc, Rinv_l by lra. nra.
        -- field. repeat split; lra.
Qed.

(** The GPS L1 and L2 frequencies of the real-valued connection, within
    the range of binary64; and a lookup that answers the same frequency
    twice. *)
Lemma calc_delay_factor_outcome_witness :
  (∃ d, calc_delay_factor Samples.real_connection = Ok d ∧ (1227600000 ^ 2 < d)%R) ∧
  calc_delay_factor Samples.equal_frequency_connection = Raise ZeroDivisionError.
Proof.
  assert (∀ f : R, (f ^ 2 < Samples.SQUARE_OVERFLOW)%R → square_overflows f = false)
    as Hrange.
  { intros f Hf. unfold square_overflows, Samples.binary64_range.
    destruct (Rle_dec Samples.SQUARE_OVERFLOW (f ^ 2)) as [Hle|_]; [lra|reflexivity]. }
  split.
  - destruct (proj2 (calc_delay_factor_outcome Samples.real_connection)
                1575420000%R 1227600000%R eq_refl) as (_ & Hin).
    destruct Hin as (_ & _ & (d & Hd & Hlt & _)).
    + apply Hrange. unfold Samples.SQUARE_OVERFLOW. lra.
    + apply Hrange. unfold Samples.SQUARE_OVERFLOW. lra.
    + lra.
    + lra.
    + exists d. split; [exact Hd|exact Hlt].
  - destruct (proj2 (calc_delay_factor_outcome Samples.equal_frequency_connection)
                5%R 5%R eq_refl) as (_ & Hin).
    destruct Hin as (Hzero & _).
    + apply Hrange. unfold Samples.SQUARE_OVERFLOW. lra.
    + apply Hrange. unfold Samples.SQUARE_OVERFLOW. lra.
    + apply Hzero. reflexivity.
Defined.

Section shell_facts.
Import Tec.
Local Open Scope R_scope.

Lemma smallest_zero_l (y : R) : smallest 0 y = 0.
Proof.
  unfold smallest. destruct (Rlt_dec (Rabs 0) (Rabs y)) as [Hlt|Hge]; [reflexivity|].
  rewrite Rabs_R0 in Hge. pose proof (Rabs_pos y) as Hy.
  assert (Rabs y = 0) as Hzero by lra.
  destruct (Req_dec y 0) as [->|Hne]; [reflexivity|].
  apply Rabs_no_R0 in Hne. contradiction.
Qed.

Lemma smallest_zero_r (x : R) : smallest x 0 = 0.
Proof.
  unfold smallest. destruct (Rlt_dec (Rabs x) (Rabs 0)) as [Hlt|Hge]; [|reflexivity].
  rewrite Rabs_R0 in Hlt. pose proof (Rabs_pos x). lra.
Qed.

Lemma point_at_zero (rec_pos s : vec3) : point_at rec_pos s 0 = rec_pos.
Proof.
  destruct rec_pos as [[rx ry] rz], s as [[sx sy] sz].
  unfold point_at, vadd, vmul, vsub. f_equal; [f_equal|]; ring.
Qed.

Lemma pierce_scale_on_shell (rec_pos s : vec3) (ionh : R) :
  norm2 rec_pos = ionh ^ 2 → qa rec_pos s <> 0 → pierce_scale rec_pos s ionh = 0.
Proof.
  intros Hshell Ha. unfold pierce_scale, root_plus, root_minus, discriminant.
  assert (qc rec_pos ionh = 0) as -> by (unfold qc; fold (norm2 rec_pos); lra).
  set (a := qa rec_pos s) in *. set (b := qb rec_pos s).
  replace (b ^ 2 - 4 * a * 0) with (b²) by (unfold Rsqr; ring).
  rewrite sqrt_Rsqr_abs.
  destruct (Rcase_abs b) as [Hneg|Hpos].
  - rewrite (Rabs_left b Hneg).
    replace (- b / (2 * a) - - b / (2 * a)) with 0 by (field; exact Ha).
    apply smallest_zero_r.
  - rewrite (Rabs_right b Hpos).
    replace (- b / (2 * a) + b / (2 * a)) with 0 by (field; exact Ha).
    apply smallest_zero_l.
Qed.
End shell_facts.

(** X18.  A receiver that lies on the shell itself is its own pierce
    point: [ion_locs] returns the receiver position for every satellite
    sample that is not at the receiver, whatever the direction of the
    satellite. *)
Theorem ion_locs_on_shell (rec_pos : Tec.vec3) (sat_pos : list Tec.vec3) (ionh : R) :
  Tec.norm2 rec_pos = (ionh ^ 2)%R →
  length (Tec.ion_locs rec_pos sat_pos ionh) = length sat_pos ∧
  ∀ (i : nat) s, sat_pos !! i = Some s → s ≠ rec_pos →
    Tec.ion_locs rec_pos sat_pos ionh !! i = Some rec_pos.
Proof.
  intros Hshell. rewrite ion_locs_map. split; [apply length_fmap|].
  intros i s Hi Hne. rewrite list_lookup_fmap, Hi. cbn [fmap option_fmap option_map].
  rewrite pierce_scale_on_shell; [rewrite point_at_zero; reflexivity|exact Hshell|].
  intros Hzero. apply Hne.
  destruct rec_pos as [[rx ry] rz], s as [[sx sy] sz].
  unfold Tec.qa, Tec.vsub, Tec.vsq, Tec.vsum in Hzero.
  pose proof (pow2_ge_0 (sx - rx)) as Hx. pose proof (pow2_ge_0 (sy - ry)) as Hy.
  pose proof (pow2_ge_0 (sz - rz)) as Hz.
  assert ((sx - rx) ^ 2 = 0)%R as Hx0 by lra.
  assert ((sy - ry) ^ 2 = 0)%R as Hy0 by lra.
  assert ((sz - rz) ^ 2 = 0)%R as Hz0 by lra.
  apply pow2_zero in Hx0, Hy0, Hz0.
  f_equal; [f_equal|]; lra.
Qed.

(** A receiver at the shell radius on the x axis and a satellite further
    out on the same axis. *)
Lemma ion_locs_on_shell_witness :
  Tec.ion_locs (6728137, 0, 0)%R [(20000000, 0, 0)%R] 6728137 !! 0%nat
  = Some (6728137, 0, 0)%R.
Proof.
  assert (Tec.norm2 (6728137, 0, 0)%R = (6728137 ^ 2)%R) as Hshell.
  { unfold Tec.norm2, Tec.vsq, Tec.vsum. ring. }
  apply (proj2 (ion_locs_on_shell (6728137, 0, 0)%R [(20000000, 0, 0)%R] 6728137 Hshell)
           0%nat (20000000, 0, 0)%R).
  - reflexivity.
  - intros Heq. inversion Heq. lra.
Defined.

Section disjoint_facts.
Local Open Scope Z_scope.
Context {F : Type}.

Lemma Connection_init_ends (scn : Scenario F) (st pr : string) (i j : Z)
    (arr : list (Row F)) (c : Connection F) :
  station_array scn st pr = Ok arr → 0 ≤ i → 0 ≤ j →
  Connection_init scn st pr i j = Ok c →
  (tick <$> arr) !! Z.to_nat i = Some (tick_start c) ∧
  (tick <$> arr) !! Z.to_nat j = Some (tick_end c).
Proof.
  intros Harr Hi Hj Hc.
  apply Connection_init_Ok in Hc
    as (arr' & first & lastr & missing & Harr' & Hfirst & Hlast & _ & _ & ->).
  rewrite Harr in Harr'. inversion Harr'; subst arr'.
  apply getitem_nonneg in Hfirst; [|exact Hi]. apply getitem_nonneg in Hlast; [|exact Hj].
  rewrite !list_lookup_fmap, Hfirst, Hlast. split; reflexivity.
Qed.
End disjoint_facts.

(** X19.  Two connections built over index ranges of the same station
    array, the second range after the first, cover tick ranges that do
    not meet when the array's ticks increase: no tick belongs to both,
    and [ConnTickMap.__getitem__] gives the same answer whichever of the
    two comes first. *)
Theorem disjoint_connections {F : Type} (scn : Scenario F) (st pr : string)
    (arr : list (Row F)) (i1 j1 i2 j2 : Z) (c1 c2 : Connection F) :
  station_array scn st pr = Ok arr → Sorted Z.lt (tick <$> arr) →
  (0 ≤ i1 ≤ j1)%Z → (j1 < i2)%Z → (i2 ≤ j2)%Z →
  Connection_init scn st pr i1 j1 = Ok c1 →
  Connection_init scn st pr i2 j2 = Ok c2 →
  (tick_start c1 ≤ tick_end c1)%Z ∧ (tick_end c1 < tick_start c2)%Z ∧
  (tick_start c2 ≤ tick_end c2)%Z ∧
  (∀ t, contains c1 t = true → contains c2 t = false) ∧
  (∀ t, conn_getitem [c1; c2] t = conn_getitem [c2; c1] t).
Proof.
  intros Harr Hsorted H1 H12 H2 Hc1 Hc2.
  destruct (Connection_init_ends scn st pr i1 j1 arr c1 Harr) as [Hs1 He1];
    [lia|lia|exact Hc1|].
  destruct (Connection_init_ends scn st pr i2 j2 arr c2 Harr) as [Hs2 He2];
    [lia|lia|exact Hc2|].
  assert (∀ (a b : Z) x y, (0 ≤ a ≤ b)%Z →
            (tick <$> arr) !! Z.to_nat a = Some x → (tick <$> arr) !! Z.to_nat b = Some y →
            (x ≤ y)%Z) as Hle.
  { intros a b x y Hab Hx Hy. destruct (decide (a = b)) as [->|Hne].
    - rewrite Hx in Hy. inversion Hy. lia.
    - assert (x < y)%Z; [|lia].
      apply (sorted_lookup_lt _ (Z.to_nat a) (Z.to_nat b) x y Hsorted Hx Hy). lia. }
  assert (tick_end c1 < tick_start c2)%Z as Hlt.
  { apply (sorted_lookup_lt _ (Z.to_nat j1) (Z.to_nat i2) _ _ Hsorted He1 Hs2). lia. }
  assert (tick_start c1 ≤ tick_end c1)%Z as Ho1 by (apply (Hle i1 j1); [lia|assumption..]).
  assert (tick_start c2 ≤ tick_end c2)%Z as Ho2 by (apply (Hle i2 j2); [lia|assumption..]).
  split; [exact Ho1|]. split; [exact Hlt|]. split; [exact Ho2|].
  assert (∀ t, contains c1 t = true → contains c2 t = false) as Hdis.
  { intros t Hin. apply contains_range in Hin.
    destruct (contains c2 t) eqn:Hin2; [|reflexivity].
    apply contains_range in Hin2. lia. }
  split; [exact Hdis|].
  intros t. cbn [conn_getitem].
  destruct (contains c1 t) eqn:Hin1.
  - rewrite (Hdis t Hin1). reflexivity.
  - destruct (contains c2 t); reflexivity.
Qed.

(** The first two rows and the last row of the real-valued station
    array. *)
Lemma disjoint_connections_witness :
  ∃ c1 c2, Connection_init Samples.real_scenario "STA1" "G01" 0 1 = Ok c1 ∧
           Connection_init Samples.real_scenario "STA1" "G01" 2 2 = Ok c2 ∧
           (tick_end c1 < tick_start c2)%Z ∧
           conn_getitem [c1; c2] 8 = conn_getitem [c2; c1] 8.
Proof.
  assert (∃ c1, Connection_init Samples.real_scenario "STA1" "G01" 0 1 = Ok c1)
    as [c1 H1] by (eexists; reflexivity).
  assert (∃ c2, Connection_init Samples.real_scenario "STA1" "G01" 2 2 = Ok c2)
    as [c2 H2] by (eexists; reflexivity).
  exists c1, c2. split; [exact H1|]. split; [exact H2|].
  destruct (disjoint_connections Samples.real_scenario "STA1" "G01" Samples.real_rows
              0 1 2 2 c1 c2 eq_refl) as (_ & Hlt & _ & _ & Hsame);
    [repeat constructor|lia|lia|lia|exact H1|exact H2|].
  split; [exact Hlt|apply Hsame].
Defined.
